(** * Orchestration layer of the assistant app builder: a Rocq model

    The development follows the TypeScript sources:
    - [JsString]: the two string primitives the sources rely on
      ([toLowerCase], [includes]);
    - [Terminal]: [server/terminal-runner.ts] and the [/terminal/run] and
      [/terminal/exec] handlers of [server/terminal-routes.ts];
    - [AILoop]: the [EnhancedAILoop] class (task queue, retry policy,
      message classification, file merge);
    - [Preview]: the preview registry and the command executor of
      [server/comprehensive-ai-service.ts].

    A JavaScript string is modelled by the [string] that holds its UTF-8
    text, counters by [nat], milliseconds by [Z], [Map]s keyed by strings
    by [gmap string _]. *)

From Stdlib Require Import String Ascii List Bool Arith NArith ZArith Lia Sorted.
From stdpp Require Import gmap strings list fin_maps pretty.

(* ===================================================================== *)
(** ** JavaScript string primitives *)
(* ===================================================================== *)

Module JsString.

(** [String.prototype.toLowerCase] as far as the letters of Basic Latin
    go: [A]..[Z] move to [a]..[z], every other byte stays. This is the
    builtin on a text of Basic Latin characters; the text functions below
    follow it beyond. *)
Definition lower_char (c : ascii) : ascii :=
  let n := N_of_ascii c in
  if ((65 <=? n) && (n <=? 90))%N then ascii_of_N (n + 32) else c.

Fixpoint toLowerCase (s : string) : string :=
  match s with
  | EmptyString => EmptyString
  | String c s' => String (lower_char c) (toLowerCase s')
  end.

(** [hay.startsWith(needle)] *)
Fixpoint startsWith (needle hay : string) : bool :=
  match needle, hay with
  | EmptyString, _ => true
  | String _ _, EmptyString => false
  | String a n', String b h' => if Ascii.eqb a b then startsWith n' h' else false
  end.

(** [hay.includes(needle)]: [needle] occurs at some offset of [hay]. *)
Fixpoint includes (needle hay : string) : bool :=
  match hay with
  | EmptyString => startsWith needle EmptyString
  | String _ h' => startsWith needle hay || includes needle h'
  end.

(** [!s] is false exactly for the non-empty strings. *)
Definition truthy (s : string) : bool :=
  match s with EmptyString => false | String _ _ => true end.

(** Truthiness of a value that is a string or [undefined]. *)
Definition truthy_opt (v : option string) : bool :=
  match v with
  | Some s => truthy s
  | None => false
  end.

(** Declarative reading of [includes]. *)
Definition Contains (needle hay : string) : Prop :=
  exists pre post, hay = pre +:+ needle +:+ post.

Lemma startsWith_spec needle hay :
  startsWith needle hay = true <-> exists post, hay = needle +:+ post.
Proof.
  revert hay; induction needle as [|a n IH]; intros hay; simpl.
  - split; [intros _; exists hay; reflexivity | reflexivity].
  - destruct hay as [|b h].
    + split; [discriminate | intros [post H]; discriminate].
    + destruct (Ascii.eqb_spec a b) as [->|Hne].
      * rewrite IH. split; intros [post H]; exists post.
        -- now rewrite H.
        -- now injection H.
      * split; [discriminate | intros [post H]; injection H; congruence].
Qed.

Lemma includes_spec needle hay :
  includes needle hay = true <-> Contains needle hay.
Proof.
  unfold Contains. induction hay as [|b h IH]; simpl.
  - rewrite startsWith_spec. split.
    + intros [post H]. exists "", post. exact H.
    + intros [pre [post H]]. destruct pre; [exists post; exact H | discriminate].
  - rewrite orb_true_iff, IH, startsWith_spec. split.
    + intros [[post H] | [pre [post H]]].
      * exists "", post. exact H.
      * exists (String b pre), post. simpl. now rewrite H.
    + intros [pre [post H]]. destruct pre as [|c pre]; simpl in H.
      * left. exists post. exact H.
      * right. injection H as _ H. exists pre, post. exact H.
Qed.

Lemma toLowerCase_length s : String.length (toLowerCase s) = String.length s.
Proof. induction s as [|c s IH]; [reflexivity | cbn; now rewrite IH]. Qed.

Lemma toLowerCase_app s t :
  toLowerCase (s +:+ t) = toLowerCase s +:+ toLowerCase t.
Proof. induction s as [|c s IH]; [reflexivity | simpl; rewrite IH; reflexivity]. Qed.

(** A needle that lower-casing leaves alone is found in the lower-cased
    text whenever it is found in the text itself. *)
Lemma includes_toLowerCase needle hay :
  toLowerCase needle = needle ->
  includes needle hay = true ->
  includes needle (toLowerCase hay) = true.
Proof.
  rewrite !includes_spec. intros Hfix [pre [post ->]].
  exists (toLowerCase pre), (toLowerCase post).
  now rewrite !toLowerCase_app, Hfix.
Qed.

Lemma includes_nonempty needle hay :
  truthy needle = true -> includes needle hay = true -> truthy hay = true.
Proof.
  destruct hay; [|reflexivity].
  destruct needle; simpl; [discriminate | intros _ H; discriminate].
Qed.


(** *** More on the string primitives *)

Lemma append_assoc s t u : (s +:+ t) +:+ u = s +:+ t +:+ u.
Proof.
  induction s as [|c s IH]; [reflexivity|].
  change (String c ((s +:+ t) +:+ u) = String c (s +:+ t +:+ u)). by rewrite IH.
Qed.

Lemma append_length s t : String.length (s +:+ t) = String.length s + String.length t.
Proof.
  induction s as [|c s IH]; [reflexivity|].
  change (S (String.length (s +:+ t)) = S (String.length s + String.length t)).
  by rewrite IH.
Qed.

Lemma includes_prefix a b s : includes (a +:+ b) s = true → includes a s = true.
Proof.
  rewrite !includes_spec. intros (pre & post & ->). exists pre, (b +:+ post).
  by rewrite append_assoc.
Qed.

(** *** Text as JavaScript sees it

    A [string] holds the UTF-8 text of a JavaScript string, as the
    literals of this file do. JavaScript itself keeps UTF-16: [length]
    counts code units, and [toLowerCase] and [includes] work on the text,
    not on its bytes. *)

(** The code points of a UTF-8 text. (A [string] that is not UTF-8 is
    read as some sequence of numbers; no such string is meant.) *)
Fixpoint codePoints (s : string) : list N :=
  match s with
  | EmptyString => []
  | String c0 s0 =>
      let b0 := N_of_ascii c0 in
      if (b0 <? 128)%N then b0 :: codePoints s0
      else if (b0 <? 224)%N then
        match s0 with
        | String c1 s1 =>
            (b0 mod 32 * 64 + N_of_ascii c1 mod 64)%N :: codePoints s1
        | EmptyString => [b0]
        end
      else if (b0 <? 240)%N then
        match s0 with
        | String c1 (String c2 s2) =>
            ((b0 mod 16 * 64 + N_of_ascii c1 mod 64) * 64 + N_of_ascii c2 mod 64)%N
              :: codePoints s2
        | _ => [b0]
        end
      else
        match s0 with
        | String c1 (String c2 (String c3 s3)) =>
            (((b0 mod 8 * 64 + N_of_ascii c1 mod 64) * 64 + N_of_ascii c2 mod 64) * 64
             + N_of_ascii c3 mod 64)%N
              :: codePoints s3
        | _ => [b0]
        end
  end.

(** The UTF-16 code units of a code point: one in the Basic Multilingual
    Plane, a surrogate pair beyond. *)
Definition codeUnits (point : N) : nat := if (point <? 65536)%N then 1 else 2.

(** [s.length] *)
Definition unitLength (text : list N) : nat := sum_list_with codeUnits text.

(** [toLowerCase] on one code point. Basic Latin and Latin-1 capitals
    move by 32; U+0130 (capital I with dot above) becomes [i] followed by
    U+0307, two code units for one; U+212A (the Kelvin sign) becomes [k].
    These are all the code points whose lower case contains a Basic Latin
    character or differs in its count of code units. Any other code point
    is kept: where the builtin replaces a capital of another script by its
    small letter, that letter lies in the same plane and outside Basic
    Latin, so neither the count of code units nor the occurrences of a
    Basic Latin word differ. *)
Definition lowerPoint (point : N) : list N :=
  if ((65 <=? point) && (point <=? 90))%N then [(point + 32)%N]
  else if ((192 <=? point) && (point <=? 222) && negb (point =? 215))%N then [(point + 32)%N]
  else if (point =? 304)%N then [105%N; 775%N]
  else if (point =? 8490)%N then [107%N]
  else [point].

Definition toLowerCaseText (text : list N) : list N := text ≫= lowerPoint.

(** [startsWith] and [includes] on texts. *)
Fixpoint startsWithText (needle hay : list N) : bool :=
  match needle, hay with
  | [], _ => true
  | _ :: _, [] => false
  | a :: n', b :: h' => (a =? b)%N && startsWithText n' h'
  end.

Fixpoint includesText (needle hay : list N) : bool :=
  match hay with
  | [] => startsWithText needle []
  | _ :: h' => startsWithText needle hay || includesText needle h'
  end.

(** A text of Basic Latin characters only. *)
Fixpoint isBasicLatin (s : string) : bool :=
  match s with
  | EmptyString => true
  | String c s' => (N_of_ascii c <? 128)%N && isBasicLatin s'
  end.

Lemma startsWithText_spec needle hay :
  startsWithText needle hay = true ↔ ∃ post, hay = needle ++ post.
Proof.
  revert hay. induction needle as [|a n IH]; intros hay; simpl.
  - split; [intros _; by exists hay|done].
  - destruct hay as [|b h].
    + split; [done|]. by intros [post H].
    + rewrite andb_true_iff, N.eqb_eq, IH. split.
      * intros [-> [post ->]]. by exists post.
      * intros [post [= -> ->]]. split; [done|by exists post].
Qed.

Lemma includesText_spec needle hay :
  includesText needle hay = true ↔ ∃ pre post, hay = pre ++ needle ++ post.
Proof.
  induction hay as [|b h IH]; simpl.
  - rewrite startsWithText_spec. split.
    + intros [post H]. by exists [], post.
    + intros (pre & post & H). destruct pre; [by exists post|done].
  - rewrite orb_true_iff, IH, startsWithText_spec. split.
    + intros [[post H]|(pre & post & H)].
      * by exists [], post.
      * exists (b :: pre), post. by rewrite H.
    + intros (pre & post & H). destruct pre as [|c pre]; simpl in H.
      * left. by exists post.
      * right. injection H as _ H. by exists pre, post.
Qed.

(** Lower-casing lengthens a text by one code unit for each U+0130. *)
Lemma toLowerCaseText_length text :
  unitLength (toLowerCaseText text) =
    unitLength text + length (List.filter (λ point, (point =? 304)%N) text).
Proof.
  unfold unitLength, toLowerCaseText.
  induction text as [|point text IH]; [done|].
  rewrite bind_cons, sum_list_with_app, IH. cbn [sum_list_with List.filter].
  assert (Hpoint : sum_list_with codeUnits (lowerPoint point) =
                   codeUnits point + (if (point =? 304)%N then 1 else 0)).
  { unfold lowerPoint, codeUnits.
    destruct ((65 <=? point) && (point <=? 90))%N eqn:E1.
    { apply andb_true_iff in E1 as [H1 H2]. apply N.leb_le in H1, H2.
      replace (point =? 304)%N with false by (symmetry; apply N.eqb_neq; lia).
      cbn [sum_list_with].
      replace (point + 32 <? 65536)%N with true by (symmetry; apply N.ltb_lt; lia).
      replace (point <? 65536)%N with true by (symmetry; apply N.ltb_lt; lia). lia. }
    destruct ((192 <=? point) && (point <=? 222) && negb (point =? 215))%N eqn:E2.
    { apply andb_true_iff in E2 as [E2 _]. apply andb_true_iff in E2 as [H1 H2].
      apply N.leb_le in H1, H2.
      replace (point =? 304)%N with false by (symmetry; apply N.eqb_neq; lia).
      cbn [sum_list_with].
      replace (point + 32 <? 65536)%N with true by (symmetry; apply N.ltb_lt; lia).
      replace (point <? 65536)%N with true by (symmetry; apply N.ltb_lt; lia). lia. }
    destruct (point =? 304)%N eqn:E3.
    { apply N.eqb_eq in E3. subst point. reflexivity. }
    destruct (point =? 8490)%N eqn:E4.
    { apply N.eqb_eq in E4. subst point. reflexivity. }
    cbn [sum_list_with]. lia. }
  rewrite Hpoint. destruct (point =? 304)%N; cbn [length]; lia.
Qed.

(** On a text of Basic Latin characters the text functions are the byte
    functions above. *)
Definition bytes (s : string) : list N := N_of_ascii <$> list_ascii_of_string s.

Lemma codePoints_basic s : isBasicLatin s = true → codePoints s = bytes s.
Proof.
  unfold bytes. induction s as [|c s IH]; [done|]. cbn [isBasicLatin].
  intros H. apply andb_true_iff in H as [Hc Hs]. cbn [codePoints]. cbv zeta.
  rewrite Hc. cbn [list_ascii_of_string fmap list_fmap]. f_equal. by apply IH.
Qed.

Lemma unitLength_bytes s : unitLength (bytes s) = String.length s.
Proof.
  unfold unitLength, bytes. induction s as [|c s IH]; [done|].
  cbn [list_ascii_of_string fmap list_fmap sum_list_with String.length].
  fold (N_of_ascii <$> list_ascii_of_string s). rewrite IH.
  unfold codeUnits.
  replace (N_of_ascii c <? 65536)%N with true; [done|].
  symmetry. apply N.ltb_lt. pose proof (N_ascii_bounded c). lia.
Qed.

Lemma toLowerCaseText_basic s :
  isBasicLatin s = true → toLowerCaseText (bytes s) = bytes (toLowerCase s).
Proof.
  unfold toLowerCaseText, bytes. induction s as [|c s IH]; [done|]. cbn [isBasicLatin].
  intros H. apply andb_true_iff in H as [Hc Hs]. apply N.ltb_lt in Hc.
  cbn [list_ascii_of_string toLowerCase]. rewrite !fmap_cons, bind_cons, (IH Hs).
  unfold lowerPoint, lower_char. cbv zeta.
  destruct ((65 <=? N_of_ascii c) && (N_of_ascii c <=? 90))%N eqn:E1.
  - apply andb_true_iff in E1 as [H1 H2]. apply N.leb_le in H1, H2.
    cbn [app]. f_equal. symmetry. apply N_ascii_embedding. lia.
  - replace ((192 <=? N_of_ascii c) && (N_of_ascii c <=? 222) &&
             negb (N_of_ascii c =? 215))%N with false
      by (symmetry; apply andb_false_iff; left; apply andb_false_iff; left;
          apply N.leb_gt; lia).
    replace (N_of_ascii c =? 304)%N with false by (symmetry; apply N.eqb_neq; lia).
    replace (N_of_ascii c =? 8490)%N with false by (symmetry; apply N.eqb_neq; lia).
    done.
Qed.

Lemma startsWithText_bytes needle hay :
  startsWithText (bytes needle) (bytes hay) = startsWith needle hay.
Proof.
  unfold bytes. revert hay. induction needle as [|a n IH]; intros hay; [done|].
  destruct hay as [|b h]; [done|].
  cbn [list_ascii_of_string fmap list_fmap startsWithText startsWith].
  fold (N_of_ascii <$> list_ascii_of_string n). fold (N_of_ascii <$> list_ascii_of_string h).
  rewrite IH. destruct (Ascii.eqb_spec a b) as [->|Hne].
  - by rewrite N.eqb_refl.
  - replace (N_of_ascii a =? N_of_ascii b)%N with false; [done|].
    symmetry. apply N.eqb_neq. intros H. apply Hne.
    by rewrite <- (ascii_N_embedding a), <- (ascii_N_embedding b), H.
Qed.

Lemma includesText_bytes needle hay :
  includesText (bytes needle) (bytes hay) = includes needle hay.
Proof.
  induction hay as [|b h IH].
  - exact (startsWithText_bytes needle "").
  - change (bytes (String b h)) with (N_of_ascii b :: bytes h).
    cbn [includesText includes].
    change (N_of_ascii b :: bytes h) with (bytes (String b h)).
    by rewrite startsWithText_bytes, IH.
Qed.

Lemma isBasicLatin_toLowerCase s : isBasicLatin s = true → isBasicLatin (toLowerCase s) = true.
Proof.
  induction s as [|c s IH]; [done|]. cbn [isBasicLatin toLowerCase].
  intros H. apply andb_true_iff in H as [Hc Hs]. apply N.ltb_lt in Hc.
  rewrite (IH Hs), andb_true_r. apply N.ltb_lt. unfold lower_char. cbv zeta.
  destruct ((65 <=? N_of_ascii c) && (N_of_ascii c <=? 90))%N eqn:E1; [|done].
  apply andb_true_iff in E1 as [H1 H2]. apply N.leb_le in H1, H2.
  rewrite N_ascii_embedding by lia. lia.
Qed.

End JsString.

(* ===================================================================== *)
(** ** server/terminal-runner.ts *)
(* ===================================================================== *)

Module Terminal.
Import JsString.

(** The child process behind a session. [signalled] records that
    [kill('SIGTERM')] was called on it, [exited] that the operating system
    reported its end (Node's ['close'], or ['error'] for a process that
    never started). *)
Record ChildProcess := {
  command : string;
  signalled : bool;
  exited : bool }.

(** [interface TerminalSession]. The [process] handle is owned by the
    session object, so the process record is kept inside it. *)
Record TerminalSession := {
  id : string;
  process : ChildProcess;
  cwd : string;
  output : list string;
  isActive : bool }.

Inductive Stream := stdout | stderr.

(** State of the [TerminalRunner] singleton and of what it has done to the
    outside.  Session objects are shared between [this.sessions] and the
    closures registered on their process, so they live in [heap] and are
    named by their index; [sessions] is the [Map] from session id to
    session object.  [execs] lists the [(command, cwd)] pairs handed to
    [exec] by [runCommandAsync]; [dataCalls] and [closeCalls] list the
    calls made to the [onData] and [onClose] callbacks, each tagged with
    the session object whose [runCommand] call received the callback. *)
Record Runner := {
  heap : list TerminalSession;
  sessions : gmap string nat;
  execs : list (string * string);
  dataCalls : list (nat * string * Stream);
  closeCalls : list (nat * Z) }.

Definition empty : Runner :=
  {| heap := []; sessions := ∅; execs := []; dataCalls := []; closeCalls := [] |}.

Definition set_heap (h : list TerminalSession) (w : Runner) : Runner :=
  {| heap := h; sessions := sessions w; execs := execs w;
     dataCalls := dataCalls w; closeCalls := closeCalls w |}.

Definition set_sessions (m : gmap string nat) (w : Runner) : Runner :=
  {| heap := heap w; sessions := m; execs := execs w;
     dataCalls := dataCalls w; closeCalls := closeCalls w |}.

Definition call_onData (r : nat) (data : string) (k : Stream) (w : Runner) : Runner :=
  {| heap := heap w; sessions := sessions w; execs := execs w;
     dataCalls := dataCalls w ++ [(r, data, k)]; closeCalls := closeCalls w |}.

Definition call_onClose (r : nat) (code : Z) (w : Runner) : Runner :=
  {| heap := heap w; sessions := sessions w; execs := execs w;
     dataCalls := dataCalls w; closeCalls := closeCalls w ++ [(r, code)] |}.

(** Field updates of a session object. *)
Definition deactivate (s : TerminalSession) : TerminalSession :=
  {| id := id s; process := process s; cwd := cwd s; output := output s;
     isActive := false |}.

Definition push_output (line : string) (s : TerminalSession) : TerminalSession :=
  {| id := id s; process := process s; cwd := cwd s;
     output := output s ++ [line]; isActive := isActive s |}.

Definition with_process (p : ChildProcess) (s : TerminalSession) : TerminalSession :=
  {| id := id s; process := p; cwd := cwd s; output := output s;
     isActive := isActive s |}.

(** [session.process.kill('SIGTERM')]: the signal is sent; with a valid
    signal name the call does not throw, so the [catch] branch of
    [killSession] is not taken. *)
Definition kill (p : ChildProcess) : ChildProcess :=
  {| command := command p; signalled := true; exited := exited p |}.

Definition mark_exited (p : ChildProcess) : ChildProcess :=
  {| command := command p; signalled := signalled p; exited := true |}.

(** A process the runner has not stopped: it was neither sent [SIGTERM]
    nor seen to end. A process that was sent the signal may still be alive:
    it is gone only when [exited] says so. *)
Definition unstopped (p : ChildProcess) : bool :=
  negb (signalled p) && negb (exited p).

(** [killSession(sessionId)] *)
Definition killSession (sessionId : string) (w : Runner) : bool * Runner :=
  match sessions w !! sessionId with
  | Some r =>
      match heap w !! r with
      | Some session =>
          if isActive session then
            let session' := deactivate (with_process (kill (process session)) session) in
            (true, set_sessions (delete sessionId (sessions w))
                     (set_heap (<[r := session']> (heap w)) w))
          else (false, w)
      | None => (false, w)
      end
  | None => (false, w)
  end.

(** [spawn(parts[0], parts.slice(1), {shell: true})]: with [shell: true]
    the file and its arguments are joined by spaces again, so the shell
    runs [command] itself. *)
Definition spawn (command : string) : ChildProcess :=
  {| command := command; signalled := false; exited := false |}.

(** [runCommand(sessionId, command, cwd, onData, onClose)]; returns the new
    session object. *)
Definition runCommand (sessionId command cwd : string) (w : Runner) : nat * Runner :=
  let w1 := snd (killSession sessionId w) in
  let proc := spawn command in
  let session :=
    {| id := sessionId; process := proc; cwd := cwd; output := []; isActive := true |} in
  let r := length (heap w1) in
  (r, set_sessions (<[sessionId := r]> (sessions w1))
        (set_heap (heap w1 ++ [session]) w1)).

(** The four listeners that [runCommand] registers on the process of
    session object [r]. *)
Definition on_stdout (r : nat) (data : string) (w : Runner) : Runner :=
  match heap w !! r with
  | Some session =>
      call_onData r data stdout (set_heap (<[r := push_output data session]> (heap w)) w)
  | None => w
  end.

Definition on_stderr (r : nat) (data : string) (w : Runner) : Runner :=
  match heap w !! r with
  | Some session =>
      call_onData r data stderr (set_heap (<[r := push_output data session]> (heap w)) w)
  | None => w
  end.

(** ['close'] with [code], [null] when a signal ended the process:
    [onClose(code || 0)]. *)
Definition on_close (r : nat) (code : option Z) (w : Runner) : Runner :=
  match heap w !! r with
  | Some session =>
      let session' := deactivate (with_process (mark_exited (process session)) session) in
      call_onClose r (default 0%Z code) (set_heap (<[r := session']> (heap w)) w)
  | None => w
  end.

(** ['error'], emitted for a process that could not be started. *)
Definition on_error (r : nat) (message : string) (w : Runner) : Runner :=
  match heap w !! r with
  | Some session =>
      let errorMsg := "Error: " +:+ message in
      let session' :=
        deactivate (with_process (mark_exited (process session))
                      (push_output errorMsg session)) in
      call_onClose r 1%Z
        (call_onData r errorMsg stderr (set_heap (<[r := session']> (heap w)) w))
  | None => w
  end.

(** What can happen to a runner: calls of its methods and events of the
    processes it spawned. *)
Inductive Event :=
| Run (sessionId command cwd : string)
| Kill (sessionId : string)
| StdoutData (r : nat) (data : string)
| StderrData (r : nat) (data : string)
| Close (r : nat) (code : option Z)
| Error (r : nat) (message : string).

Definition step (w : Runner) (e : Event) : Runner :=
  match e with
  | Run sessionId command cwd => snd (runCommand sessionId command cwd w)
  | Kill sessionId => snd (killSession sessionId w)
  | StdoutData r data => on_stdout r data w
  | StderrData r data => on_stderr r data w
  | Close r code => on_close r code w
  | Error r message => on_error r message w
  end.

Definition run_events (es : list Event) (w : Runner) : Runner := fold_left step es w.

(** [getSession], [getActiveSessions] *)
Definition getSession (sessionId : string) (w : Runner) : option TerminalSession :=
  sessions w !! sessionId ≫= λ r, heap w !! r.



(** [isCommandSafe(command)] *)
Definition dangerousCommands : list string :=
  [ "rm -rf"; "rmdir"; "del"; "format"; "shutdown"; "reboot"; "halt"; "kill";
    "killall"; "dd if="; "mkfs"; "fdisk"; ":(){ :|:& };:"; "sudo"; "su";
    "chmod 777"; "chown"; "passwd"; "useradd"; "userdel" ].

Definition isCommandSafe (command : string) : bool :=
  let lowerCommand := toLowerCase command in
  negb (existsb (λ dangerous, includes dangerous lowerCommand) dangerousCommands).

(** [runCommandAsync(command, cwd)]: [exec] is handed the command; the
    promise is settled by [exec]'s callback alone. *)
Record ExecResult := { r_stdout : string; r_stderr : string; r_code : Z }.

Definition runCommandAsync (command cwd : string) (w : Runner) : Runner :=
  {| heap := heap w; sessions := sessions w; execs := execs w ++ [(command, cwd)];
     dataCalls := dataCalls w; closeCalls := closeCalls w |}.

(** *** Well-formed runners *)

(** Every registered id names a session object carrying that id, and a
    session object whose process is not stopped is active and is the one
    registered under its id. *)
Definition registered_ok (w : Runner) : Prop :=
  ∀ sid r, sessions w !! sid = Some r → ∃ s, heap w !! r = Some s ∧ id s = sid.

Definition unstopped_ok (w : Runner) : Prop :=
  ∀ r s, heap w !! r = Some s → unstopped (process s) = true →
         isActive s = true ∧ sessions w !! id s = Some r.

Definition wf (w : Runner) : Prop := registered_ok w ∧ unstopped_ok w.

Definition reachable (w : Runner) : Prop := ∃ es, w = run_events es empty.

Lemma wf_empty : wf empty.
Proof. split; intros ? ? H; simpl in H; [by rewrite lookup_empty in H | done]. Qed.

Lemma unstopped_kill p : unstopped (kill p) = false.
Proof. reflexivity. Qed.

Lemma unstopped_mark_exited p : unstopped (mark_exited p) = false.
Proof. unfold unstopped; simpl. by rewrite andb_false_r. Qed.

(** Replacing a session object by one with the same id whose process no
    longer runs keeps a runner well formed. *)
Lemma wf_stop_object w r s s' :
  wf w → heap w !! r = Some s → id s' = id s → unstopped (process s') = false →
  wf (set_heap (<[r := s']> (heap w)) w).
Proof.
  intros [Hreg Hrun] Hr Hid Hnot. split.
  - intros sid r0 H0; simpl in *. destruct (Hreg _ _ H0) as (s0 & Hs0 & Hid0).
    destruct (decide (r0 = r)) as [->|Hne].
    + exists s'. split; [|congruence].
      apply list_lookup_insert_eq. by eapply lookup_lt_Some.
    + exists s0. by rewrite list_lookup_insert_ne.
  - intros r0 s0 H0 Hrn; simpl in *.
    destruct (decide (r0 = r)) as [->|Hne].
    + rewrite list_lookup_insert_eq in H0 by (by eapply lookup_lt_Some).
      congruence.
    + rewrite list_lookup_insert_ne in H0 by done. by apply Hrun.
Qed.

Lemma wf_killSession sid w : wf w → wf (snd (killSession sid w)).
Proof.
  intros Hwf. unfold killSession.
  destruct (sessions w !! sid) as [r|] eqn:Hsid; [|done].
  destruct (heap w !! r) as [s|] eqn:Hr; [|done].
  destruct (isActive s) eqn:Hact; [|done]. simpl.
  set (s' := deactivate _).
  assert (Hwf' : wf (set_heap (<[r := s']> (heap w)) w))
    by (eapply wf_stop_object; eauto).
  destruct Hwf as [Hreg Hrun]. destruct Hwf' as [Hreg' Hrun']. split.
  - intros sid0 r0 H0; simpl in *.
    apply lookup_delete_Some in H0 as [Hne H0]. by apply Hreg'.
  - intros r0 s0 H0 Hrn; simpl in *.
    destruct (Hrun' _ _ H0 Hrn) as [Ha Hs]; simpl in Hs. split; [done|].
    rewrite lookup_delete_ne; [done|]. intros Heq.
    rewrite <- Heq in Hs. assert (r0 = r) as -> by congruence.
    rewrite list_lookup_insert_eq in H0 by (by eapply lookup_lt_Some).
    injection H0 as <-. subst s'. simpl in Hrn. discriminate.
Qed.

(** After [killSession sid] the process of every session object under
    [sid] was sent the signal or has ended. *)
Lemma killSession_none_unstopped sid w r s :
  wf w → heap (snd (killSession sid w)) !! r = Some s → id s = sid →
  unstopped (process s) = false.
Proof.
  intros Hwf Hr Hid. destruct (unstopped (process s)) eqn:Hrn; [|done].
  destruct (wf_killSession sid w Hwf) as [_ Hrun'].
  destruct (Hrun' _ _ Hr Hrn) as [Hact Hs]. rewrite Hid in Hs.
  revert Hr Hs. unfold killSession.
  destruct (sessions w !! sid) as [r1|] eqn:Hsid; [|simpl; congruence].
  destruct (heap w !! r1) as [s1|] eqn:Hr1.
  - destruct (isActive s1) eqn:Hact1; simpl.
    + by rewrite lookup_delete_eq.
    + intros Hr Hs. congruence.
  - simpl. intros Hr Hs. congruence.
Qed.

Lemma wf_runCommand sid command cwd w : wf w → wf (snd (runCommand sid command cwd w)).
Proof.
  intros Hwf. unfold runCommand.
  pose proof (wf_killSession sid w Hwf) as [Hreg Hrun].
  pose proof (killSession_none_unstopped sid w) as Hnone.
  set (w1 := snd (killSession sid w)) in *. simpl. split.
  - intros sid0 r0 H0; simpl in *.
    destruct (decide (sid0 = sid)) as [->|Hne].
    + rewrite lookup_insert_eq in H0. injection H0 as <-.
      eexists. split; [by apply list_lookup_middle|done].
    + rewrite lookup_insert_ne in H0 by done.
      destruct (Hreg _ _ H0) as (s0 & Hs0 & Hid0). exists s0. split; [|done].
      by apply lookup_app_l_Some.
  - intros r0 s0 H0 Hrn; simpl in *.
    apply lookup_app_Some in H0 as [H0 | [Hge H0]].
    + destruct (Hrun _ _ H0 Hrn) as [Ha Hs]. split; [done|].
      rewrite lookup_insert_ne; [done|]. intros Heq.
      rewrite (Hnone r0 s0 Hwf H0) in Hrn; done.
    + apply list_lookup_singleton_Some in H0 as [Hz <-]. simpl. split; [done|].
      rewrite lookup_insert_eq. f_equal. lia.
Qed.

(** Appending to the output of a session object keeps a runner well
    formed. *)
Lemma wf_push_output w r s line :
  wf w → heap w !! r = Some s →
  wf (set_heap (<[r := push_output line s]> (heap w)) w).
Proof.
  intros [Hreg Hrun] Hr. split.
  - intros sid r0 H0; simpl in *. destruct (Hreg _ _ H0) as (s0 & Hs0 & Hid0).
    destruct (decide (r0 = r)) as [->|Hne].
    + eexists. split; [apply list_lookup_insert_eq; by eapply lookup_lt_Some|].
      simpl. congruence.
    + exists s0. by rewrite list_lookup_insert_ne.
  - intros r0 s0 H0 Hrn; simpl in *. destruct (decide (r0 = r)) as [->|Hne].
    + rewrite list_lookup_insert_eq in H0 by (by eapply lookup_lt_Some).
      injection H0 as <-. simpl in *. by apply Hrun.
    + rewrite list_lookup_insert_ne in H0 by done. by apply Hrun.
Qed.

Lemma wf_step w e : wf w → wf (step w e).
Proof.
  intros Hwf. destruct e as [sid c d|sid|r data|r data|r code|r msg]; simpl.
  - by apply wf_runCommand.
  - by apply wf_killSession.
  - unfold on_stdout. destruct (heap w !! r) as [s|] eqn:Hr; [|done].
    by destruct (wf_push_output w r s data Hwf Hr).
  - unfold on_stderr. destruct (heap w !! r) as [s|] eqn:Hr; [|done].
    by destruct (wf_push_output w r s data Hwf Hr).
  - unfold on_close. destruct (heap w !! r) as [s|] eqn:Hr; [|done].
    set (s' := deactivate _).
    by destruct (wf_stop_object w r s s' Hwf Hr eq_refl (unstopped_mark_exited _)).
  - unfold on_error. destruct (heap w !! r) as [s|] eqn:Hr; [|done].
    set (s' := deactivate _).
    by destruct (wf_stop_object w r s s' Hwf Hr eq_refl (unstopped_mark_exited _)).
Qed.

Lemma wf_run_events es w : wf w → wf (run_events es w).
Proof.
  revert w. induction es as [|e es IH]; intros w Hwf; [done|].
  simpl. apply IH. by apply wf_step.
Qed.

Lemma wf_reachable w : reachable w → wf w.
Proof. intros [es ->]. apply wf_run_events, wf_empty. Qed.

(** *** One process that is not stopped per session id *)






(** [killSession] signals the process of the session registered under the
    id and leaves every other session object alone. *)
Lemma killSession_signals sid w r s :
  wf w → heap w !! r = Some s → id s = sid → unstopped (process s) = true →
  ∃ s', heap (snd (killSession sid w)) !! r = Some s' ∧
        signalled (process s') = true ∧ isActive s' = false.
Proof.
  intros [_ Hrun] Hr Hid Hrn. destruct (Hrun _ _ Hr Hrn) as [Hact Hs].
  unfold killSession. rewrite Hid in Hs. rewrite Hs, Hr, Hact. simpl.
  eexists. split; [apply list_lookup_insert_eq; by eapply lookup_lt_Some|done].
Qed.

Lemma killSession_heap_length sid w :
  length (heap (snd (killSession sid w))) = length (heap w).
Proof.
  unfold killSession. destruct (sessions w !! sid) as [r|]; [|done].
  destruct (heap w !! r) as [s|]; [|done]. destruct (isActive s); [|done].
  simpl. apply length_insert.
Qed.

Lemma killSession_closeCalls sid w :
  closeCalls (snd (killSession sid w)) = closeCalls w.
Proof.
  unfold killSession. destruct (sessions w !! sid) as [r|]; [|done].
  destruct (heap w !! r) as [s|]; [|done]. by destruct (isActive s).
Qed.





(** *** The safety filter *)

Lemma isCommandSafe_false command dangerous :
  dangerous ∈ dangerousCommands →
  Contains dangerous (toLowerCase command) →
  isCommandSafe command = false.
Proof.
  intros Hin Hc. unfold isCommandSafe. apply negb_false_iff, existsb_exists.
  exists dangerous. split; [by apply list_elem_of_In|by apply includes_spec].
Qed.

Lemma isCommandSafe_true command :
  isCommandSafe command = true ↔
  ∀ dangerous, dangerous ∈ dangerousCommands →
               ¬ Contains dangerous (toLowerCase command).
Proof.
  unfold isCommandSafe. rewrite negb_true_iff, <- not_true_iff_false, existsb_exists.
  split.
  - intros H d Hd Hc. apply H. exists d.
    split; [by apply list_elem_of_In|by apply includes_spec].
  - intros H (d & Hd & Hc). apply (H d); [by apply list_elem_of_In|by apply includes_spec].
Qed.

Lemma dangerousCommands_lower :
  Forall (λ dangerous, toLowerCase dangerous = dangerous) dangerousCommands.
Proof. repeat constructor. Qed.

(** *** [killSession], the output log and the registry *)

(** [getAllSessions()], [getActiveSessions()] (the order of the [Map] is
    not modelled). *)
Definition getAllSessions (w : Runner) : list TerminalSession :=
  omap (λ kv, heap w !! kv.2) (map_to_list (sessions w)).

Definition getActiveSessions (w : Runner) : list TerminalSession :=
  List.filter isActive (getAllSessions w).

(** The chunks handed to the [onData] callback of session object [r],
    oldest first. *)
Definition chunks_for (r : nat) (w : Runner) : list string :=
  (λ c, c.1.2) <$> List.filter (λ c, Nat.eqb c.1.1 r) (dataCalls w).

Lemma killSession_true sid w :
  (killSession sid w).1 = true ↔
  ∃ s, getSession sid w = Some s ∧ isActive s = true.
Proof.
  unfold killSession, getSession.
  destruct (sessions w !! sid) as [r|]; simpl; [|split; [done|by intros (s & ? & _)]].
  destruct (heap w !! r) as [s|]; simpl; [|split; [done|by intros (s & ? & _)]].
  destruct (isActive s) eqn:E; simpl.
  - split; [|done]. intros _. by exists s.
  - split; [done|]. intros (s' & [= <-] & ?). congruence.
Qed.

Lemma killSession_unregisters sid w :
  (killSession sid w).1 = true → sessions (killSession sid w).2 !! sid = None.
Proof.
  unfold killSession.
  destruct (sessions w !! sid) as [r|]; [|done].
  destruct (heap w !! r) as [s|]; [|done].
  destruct (isActive s); [|done]. intros _. simpl. apply lookup_delete_eq.
Qed.

Lemma killSession_false sid w : (killSession sid w).1 = false → (killSession sid w).2 = w.
Proof.
  unfold killSession.
  destruct (sessions w !! sid) as [r|]; [|done].
  destruct (heap w !! r) as [s|]; [|done]. by destruct (isActive s).
Qed.

Lemma killSession_twice sid w :
  killSession sid (killSession sid w).2 = (false, (killSession sid w).2).
Proof.
  destruct (killSession sid w).1 eqn:E.
  - pose proof (killSession_unregisters sid w E) as H.
    unfold killSession at 1. by rewrite H.
  - rewrite (killSession_false sid w E).
    rewrite (surjective_pairing (killSession sid w)), E.
    by rewrite (killSession_false sid w E).
Qed.

Lemma killSession_other sid sid' w :
  wf w → sid' ≠ sid → getSession sid' (killSession sid w).2 = getSession sid' w.
Proof.
  intros [Hreg _] Hne. unfold killSession.
  destruct (sessions w !! sid) as [r|] eqn:Hs; [|done].
  destruct (heap w !! r) as [s|] eqn:Hr; [|done].
  destruct (isActive s); [|done]. unfold getSession. simpl.
  rewrite lookup_delete_ne by done.
  destruct (sessions w !! sid') as [r'|] eqn:Hs'; [|done]. simpl.
  apply list_lookup_insert_ne. intros <-.
  destruct (Hreg _ _ Hs) as (s1 & H1 & Hid1). destruct (Hreg _ _ Hs') as (s2 & H2 & Hid2).
  congruence.
Qed.

(** X1. [killSession] answers [true] exactly when an active session is
    registered under the id; it then sends [SIGTERM] to the process of that
    session, marks the session inactive and unregisters the id. The signal
    is only sent: the call does not wait for the process, which is not
    recorded as ended. Afterwards every process spawned under the id was
    sent the signal or has ended. Asked again, [killSession] answers
    [false] and changes nothing, and the sessions of other ids are never
    affected. *)
Theorem killSession_contract (w : Runner) (Hw : reachable w) (sid : string) :
  let killed := (killSession sid w).1 in
  let w' := (killSession sid w).2 in
  (killed = true ↔ ∃ s, getSession sid w = Some s ∧ isActive s = true) ∧
  (if killed then getSession sid w' = None else w' = w) ∧
  (∀ r s, sessions w !! sid = Some r → heap w !! r = Some s → isActive s = true →
     ∃ s', heap w' !! r = Some s' ∧
           signalled (process s') = true ∧ exited (process s') = exited (process s) ∧
           isActive s' = false ∧ output s' = output s ∧ id s' = id s) ∧
  (∀ r s, heap w' !! r = Some s → id s = sid →
     signalled (process s) = true ∨ exited (process s) = true) ∧
  killSession sid w' = (false, w') ∧
  (∀ sid', sid' ≠ sid → getSession sid' w' = getSession sid' w).
Proof.
  pose proof (wf_reachable w Hw) as Hwf. cbv zeta.
  split; [apply killSession_true|]. split; [|split; [|split; [|split]]].
  - destruct (killSession sid w).1 eqn:E.
    + unfold getSession. by rewrite killSession_unregisters.
    + by apply killSession_false.
  - intros r s Hs Hr Hact. unfold killSession. rewrite Hs, Hr, Hact. cbn [snd heap set_sessions set_heap].
    eexists. split; [apply list_lookup_insert_eq; by eapply lookup_lt_Some|done].
  - intros r s Hs Hid.
    pose proof (killSession_none_unstopped sid w r s Hwf Hs Hid) as Hstop.
    unfold unstopped in Hstop. destruct (signalled (process s)); [by left|].
    destruct (exited (process s)); [by right|done].
  - apply killSession_twice.
  - intros sid' Hne. by apply killSession_other.
Qed.

(** The contract at a state with one session: the second kill. *)
Lemma killSession_contract_witness :
  killSession "s1" (killSession "s1" (run_events [Run "s1" "npm test" "/srv/app"] empty)).2
  = (false, (killSession "s1" (run_events [Run "s1" "npm test" "/srv/app"] empty)).2).
Proof.
  refine (proj1 (proj2 (proj2 (proj2 (proj2
    (killSession_contract (run_events [Run "s1" "npm test" "/srv/app"] empty) _ "s1")))))).
  exists [Run "s1" "npm test" "/srv/app"]. reflexivity.
Defined.

(** Data calls only name existing session objects, and the output of an
    object is what its callback was given. *)
Definition log_ok (w : Runner) : Prop :=
  (∀ c, c ∈ dataCalls w → c.1.1 < length (heap w)) ∧
  (∀ r s, heap w !! r = Some s → output s = chunks_for r w).

Lemma chunks_for_fresh r w :
  (∀ c, c ∈ dataCalls w → c.1.1 < r) → chunks_for r w = [].
Proof.
  intros H. unfold chunks_for.
  induction (dataCalls w) as [|c cs IH]; [done|]. cbn [List.filter].
  assert (Hc : c.1.1 < r) by (apply H; left).
  destruct (Nat.eqb c.1.1 r) eqn:E; [apply Nat.eqb_eq in E; lia|].
  apply IH. intros c' Hc'. apply H. by right.
Qed.

Lemma chunks_for_snoc r r' data k w :
  chunks_for r (call_onData r' data k w) =
    chunks_for r w ++ (if Nat.eqb r' r then [data] else []).
Proof.
  unfold chunks_for, call_onData. simpl.
  rewrite List.filter_app, fmap_app. f_equal. simpl.
  by destruct (Nat.eqb r' r).
Qed.

Lemma log_ok_replace w r s s' :
  log_ok w → heap w !! r = Some s → output s' = output s →
  log_ok (set_heap (<[r := s']> (heap w)) w).
Proof.
  intros [Hlt Hout] Hr Ho. split; simpl.
  - intros c Hc. rewrite length_insert. by apply Hlt.
  - intros r0 s0 H0. destruct (decide (r0 = r)) as [->|Hne].
    + rewrite list_lookup_insert_eq in H0 by (by eapply lookup_lt_Some).
      injection H0 as <-. rewrite Ho. by apply Hout.
    + rewrite list_lookup_insert_ne in H0 by done. by apply Hout.
Qed.

Lemma log_ok_push w r s data k tweak :
  log_ok w → heap w !! r = Some s → output (tweak (push_output data s)) = output s ++ [data] →
  log_ok (call_onData r data k (set_heap (<[r := tweak (push_output data s)]> (heap w)) w)).
Proof.
  intros [Hlt Hout] Hr Ho. split.
  - intros c Hc. simpl in *. rewrite length_insert.
    apply elem_of_app in Hc as [Hc|Hc]; [by apply Hlt|].
    apply list_elem_of_singleton in Hc as ->. simpl. by eapply lookup_lt_Some.
  - intros r0 s0 H0. rewrite chunks_for_snoc. simpl in H0.
    destruct (decide (r0 = r)) as [->|Hne].
    + rewrite list_lookup_insert_eq in H0 by (by eapply lookup_lt_Some).
      injection H0 as <-. rewrite Nat.eqb_refl, Ho. f_equal. by apply Hout.
    + rewrite list_lookup_insert_ne in H0 by done.
      destruct (Nat.eqb_spec r r0) as [->|_]; [done|]. rewrite app_nil_r. by apply Hout.
Qed.

Lemma log_ok_killSession sid w : log_ok w → log_ok (killSession sid w).2.
Proof.
  intros Hlog. unfold killSession.
  destruct (sessions w !! sid) as [r|]; [|done].
  destruct (heap w !! r) as [s|] eqn:Hr; [|done].
  destruct (isActive s); [|done]. simpl.
  by destruct (log_ok_replace w r s (deactivate (with_process (kill (process s)) s)) Hlog Hr).
Qed.

Lemma log_ok_step w e : log_ok w → log_ok (step w e).
Proof.
  intros Hlog. destruct e as [sid c d|sid|r data|r data|r code|r msg]; simpl.
  - pose proof (log_ok_killSession sid w Hlog) as [Hlt Hout].
    unfold runCommand. set (w1 := (killSession sid w).2) in *. split; simpl.
    + intros c0 Hc. rewrite length_app. specialize (Hlt _ Hc). lia.
    + intros r0 s0 H0. apply lookup_app_Some in H0 as [H0|[Hge H0]].
      * by apply Hout.
      * apply list_lookup_singleton_Some in H0 as [Hz <-]. simpl.
        symmetry. apply chunks_for_fresh. intros c0 Hc. specialize (Hlt _ Hc).
        unfold chunks_for. simpl. lia.
  - by apply log_ok_killSession.
  - unfold on_stdout. destruct (heap w !! r) as [s|] eqn:Hr; [|done].
    by apply (log_ok_push w r s data stdout (λ x, x)).
  - unfold on_stderr. destruct (heap w !! r) as [s|] eqn:Hr; [|done].
    by apply (log_ok_push w r s data stderr (λ x, x)).
  - unfold on_close. destruct (heap w !! r) as [s|] eqn:Hr; [|done].
    set (s' := deactivate _).
    by destruct (log_ok_replace w r s s' Hlog Hr).
  - unfold on_error. destruct (heap w !! r) as [s|] eqn:Hr; [|done].
    destruct (log_ok_push w r s ("Error: " +:+ msg) stderr
                (λ x, deactivate (with_process (mark_exited (process x)) x)) Hlog Hr eq_refl)
      as [Hlt Hout].
    split; [exact Hlt|]. intros r0 s0 H0. rewrite (Hout r0 s0 H0). done.
Qed.

(** X2. In every state the runner reaches, the output log of each session
    object is exactly the sequence of chunks its [onData] callback was
    given, standard and error output interleaved in arrival order, the
    message of a spawn error included. *)
Theorem output_log_matches_callbacks (es : list Event) (r : nat) :
  output <$> heap (run_events es empty) !! r =
  (λ _, chunks_for r (run_events es empty)) <$> heap (run_events es empty) !! r.
Proof.
  assert (H : ∀ es w, log_ok w → log_ok (run_events es w)).
  { clear. induction es as [|e es IH]; intros w Hw; [done|].
    simpl. by apply IH, log_ok_step. }
  destruct (H es empty) as [_ Hout];
    [split; [by intros c Hc; apply elem_of_nil in Hc|done]|].
  destruct (heap (run_events es empty) !! r) as [s|] eqn:Hr; [|done].
  simpl. f_equal. by apply Hout.
Qed.

(** An example of the log: two chunks and a close. *)
Example output_log_example :
  let w := run_events [ Run "s1" "npm test" "/srv/app"; StdoutData 0 "ok 1";
                        StderrData 0 "warn"; Close 0 (Some 0%Z) ] empty in
  (output <$> getSession "s1" w) = Some ["ok 1"; "warn"] ∧
  dataCalls w = [(0, "ok 1", stdout); (0, "warn", stderr)] ∧
  closeCalls w = [(0, 0%Z)].
Proof. cbv zeta. by vm_compute. Qed.


Lemma on_close_registered w sid r s code :
  wf w → sessions w !! sid = Some r → heap w !! r = Some s →
  getSession sid (on_close r code w) = Some (deactivate (with_process (mark_exited (process s)) s)).
Proof.
  intros _ Hs Hr. unfold on_close, getSession. rewrite Hr. simpl. rewrite Hs. simpl.
  apply list_lookup_insert_eq. by eapply lookup_lt_Some.
Qed.


(** *** The predefined commands *)

(** The table of [getSafeCommands]. *)
Definition safeCommands : list (string * list string) :=
  [ ("node", ["npm install"; "npm run build"; "npm run dev"; "npm start"; "npm test"]);
    ("python", ["pip install -r requirements.txt"; "python main.py"; "python app.py";
                "flask run"]);
    ("java", ["mvn compile"; "mvn test"; "mvn exec:java"; "gradle build"; "gradle run"]);
    ("go", ["go mod tidy"; "go build"; "go run main.go"; "go test"]);
    ("rust", ["cargo build"; "cargo run"; "cargo test"; "cargo check"]);
    ("csharp", ["dotnet restore"; "dotnet build"; "dotnet run"; "dotnet test"]);
    ("php", ["composer install"; "php -S localhost:8000"; "php artisan serve"]);
    ("ruby", ["bundle install"; "ruby main.rb"; "rails server"]);
    ("flutter", ["flutter pub get"; "flutter run"; "flutter build"; "flutter test"]) ].

(** The table of [getSetupCommands]. *)
Definition setupCommands : list (string * list string) :=
  [ ("react", ["npm install"; "npm run dev"]);
    ("node", ["npm install"; "npm start"]);
    ("python", ["pip install -r requirements.txt"; "python main.py"]);
    ("java", ["mvn compile"; "mvn exec:java"]);
    ("go", ["go mod tidy"; "go run main.go"]);
    ("rust", ["cargo build"; "cargo run"]);
    ("csharp", ["dotnet restore"; "dotnet run"]);
    ("php", ["composer install"; "php -S localhost:8000"]);
    ("flutter", ["flutter pub get"; "flutter run -d web-server --web-port=3000"]) ].

(** [commands[language] || []] for a [language] that is a key of the table
    or names no property at all. *)
Definition commands_of (table : list (string * list string)) (language : string)
  : list string :=
  default [] ((list_to_map table : gmap string (list string)) !! language).

Definition getSafeCommands (language : string) : list string :=
  commands_of safeCommands language.

Definition getSetupCommands (language projectPath : string) : list string :=
  commands_of setupCommands language.

Lemma commands_of_elem table language c :
  c ∈ commands_of table language → ∃ cmds, (language, cmds) ∈ table ∧ c ∈ cmds.
Proof.
  unfold commands_of.
  destruct (list_to_map table !! language) as [cmds|] eqn:E; simpl.
  - intros Hc. exists cmds. split; [|done]. by apply elem_of_list_to_map_2.
  - intros Hc. by apply elem_of_nil in Hc.
Qed.

Lemma predefined_commands_safe language c :
  c ∈ getSafeCommands language ++ getSetupCommands language "" →
  isCommandSafe c = true ∧ truthy c = true.
Proof.
  assert (Hall : Forall (λ kv, Forall (λ c, isCommandSafe c = true ∧ truthy c = true) kv.2)
                   (safeCommands ++ setupCommands)).
  { apply Forall_forall. intros kv Hkv. apply Forall_forall. intros c0 Hc0.
    assert (H : forallb (λ kv, forallb (λ c, isCommandSafe c && truthy c) kv.2)
                  (safeCommands ++ setupCommands) = true)
      by (by vm_compute).
    rewrite forallb_forall in H. apply list_elem_of_In in Hkv. specialize (H _ Hkv).
    rewrite forallb_forall in H. apply andb_true_iff, H. by apply list_elem_of_In. }
  rewrite Forall_forall in Hall.
  intros Hc. apply elem_of_app in Hc as [Hc|Hc];
    apply commands_of_elem in Hc as (cmds & Hin & Hc);
    (assert (Hin' : (language, cmds) ∈ safeCommands ++ setupCommands)
       by (apply elem_of_app; auto));
    specialize (Hall _ Hin'); simpl in Hall; rewrite Forall_forall in Hall; by apply Hall.
Qed.

End Terminal.

(* ===================================================================== *)
(** ** server/terminal-routes.ts *)
(* ===================================================================== *)

Module TerminalRoutes.
Import JsString.

(** [req.body] of the terminal endpoints; a field the client left out is
    [None]. *)
Record Body := {
  command : option string;
  path : option string;
  sessionId : option string }.

(** [!v] for a field of the body. *)
Definition falsy (v : option string) : bool :=
  match v with
  | Some s => negb (truthy s)
  | None => true
  end.

(** [a || b] on such a field. *)
Definition or_else (v : option string) (b : string) : string :=
  match v with
  | Some s => if truthy s then s else b
  | None => b
  end.

Inductive Response :=
| BadRequest (error : string)
| EventStream (sessionId command : string)
| ExecJson (command path stdout stderr : string) (exitCode : Z).

Definition required : string := "Command and path are required".
Definition not_allowed : string := "Command not allowed for security reasons".

(** [POST /terminal/run]; [nanoid] is the identifier [nanoid()] would
    return. The handler answers and leaves the runner in a new state. The
    [killSession(id)] it registers for the client's disconnect is the
    [Terminal.Kill] event of the runner. *)
Definition run_route (nanoid : string) (body : Body) (w : Terminal.Runner)
  : Response * Terminal.Runner :=
  if falsy (command body) || falsy (path body) then (BadRequest required, w)
  else
    let command := or_else (command body) "" in
    let path := or_else (path body) "" in
    if negb (Terminal.isCommandSafe command) then (BadRequest not_allowed, w)
    else
      let id := or_else (sessionId body) nanoid in
      (EventStream id command, snd (Terminal.runCommand id command path w)).

(** [POST /terminal/exec]; [result] is what the promise of
    [runCommandAsync] resolves with. *)
Definition exec_route (result : Terminal.ExecResult) (body : Body) (w : Terminal.Runner)
  : Response * Terminal.Runner :=
  if falsy (command body) || falsy (path body) then (BadRequest required, w)
  else
    let command := or_else (command body) "" in
    let path := or_else (path body) "" in
    if negb (Terminal.isCommandSafe command) then (BadRequest not_allowed, w)
    else
      (ExecJson command path (Terminal.r_stdout result) (Terminal.r_stderr result)
         (Terminal.r_code result),
       Terminal.runCommandAsync command path w).

(** What a handler spawned: the session objects and [exec] calls added. *)
Definition spawned (w w' : Terminal.Runner) : nat :=
  (length (Terminal.heap w') - length (Terminal.heap w)) +
  (length (Terminal.execs w') - length (Terminal.execs w)).

Lemma run_route_unsafe nanoid body c w :
  command body = Some c → Terminal.isCommandSafe c = false →
  run_route nanoid body w =
    (BadRequest (if falsy (command body) || falsy (path body)
                 then required else not_allowed), w).
Proof.
  intros Hc Hs. unfold run_route.
  destruct (falsy (command body) || falsy (path body)) eqn:E; [done|].
  rewrite Hc in *. simpl in E. unfold or_else at 1.
  destruct (truthy c); [|done]. by rewrite Hs.
Qed.

Lemma exec_route_unsafe result body c w :
  command body = Some c → Terminal.isCommandSafe c = false →
  exec_route result body w =
    (BadRequest (if falsy (command body) || falsy (path body)
                 then required else not_allowed), w).
Proof.
  intros Hc Hs. unfold exec_route.
  destruct (falsy (command body) || falsy (path body)) eqn:E; [done|].
  rewrite Hc in *. simpl in E. unfold or_else at 1.
  destruct (truthy c); [|done]. by rewrite Hs.
Qed.

(** C8. The safety check classifies ["rm -rf /"] as not permitted, and
    [POST /terminal/run] with that command answers 400 with the runner
    unchanged, whatever the path, the session id and the state: no session
    object is created and no process spawned. With a path present the error
    is the security one. *)
Theorem rm_rf_rejected_before_spawn :
  Terminal.isCommandSafe "rm -rf /" = false ∧
  ∀ nanoid path sessionId w,
    let body := {| command := Some "rm -rf /"; path := path; sessionId := sessionId |} in
    run_route nanoid body w =
      (BadRequest (if falsy path then required else not_allowed), w) ∧
    spawned w (snd (run_route nanoid body w)) = 0.
Proof.
  split; [reflexivity|]. intros nanoid path sessionId w body.
  rewrite (run_route_unsafe nanoid body "rm -rf /" w eq_refl eq_refl). simpl.
  split; [done|]. unfold spawned. lia.
Qed.

(** C10. The deny check is a plain substring test on the lower-cased
    command: a command whose lower-cased text contains a deny-list entry
    anywhere, inside a word or not, is unsafe, and both [/terminal/run] and
    [/terminal/exec] answer 400 for it and spawn nothing. A command that
    contains an entry as written is covered too, the entries being lower
    case. ["npm install suspense"], ["echo result"] and ["skill list"] are
    rejected that way. *)
Theorem substring_deny_rejects_benign (c dangerous : string)
  (Hd : dangerous ∈ Terminal.dangerousCommands)
  (Hc : Contains dangerous (toLowerCase c) ∨ Contains dangerous c) :
  Terminal.isCommandSafe c = false ∧
  (∀ nanoid path sessionId w,
     let body := {| command := Some c; path := path; sessionId := sessionId |} in
     run_route nanoid body w =
       (BadRequest (if falsy path then required else not_allowed), w) ∧
     spawned w (snd (run_route nanoid body w)) = 0) ∧
  (∀ result path sessionId w,
     let body := {| command := Some c; path := path; sessionId := sessionId |} in
     exec_route result body w =
       (BadRequest (if falsy path then required else not_allowed), w) ∧
     spawned w (snd (exec_route result body w)) = 0) ∧
  Terminal.isCommandSafe "npm install suspense" = false ∧
  Terminal.isCommandSafe "echo result" = false ∧
  Terminal.isCommandSafe "skill list" = false.
Proof.
  assert (Hlow : Contains dangerous (toLowerCase c)).
  { destruct Hc as [Hc|Hc]; [done|].
    apply includes_spec, includes_toLowerCase; [|by apply includes_spec].
    pose proof Terminal.dangerousCommands_lower as Hall.
    rewrite Forall_forall in Hall. by apply Hall. }
  assert (Hunsafe : Terminal.isCommandSafe c = false)
    by (by eapply Terminal.isCommandSafe_false).
  assert (Htruthy : truthy c = true).
  { rewrite <- includes_spec in Hlow. clear Hc Hunsafe.
    assert (truthy (toLowerCase c) = true) as H.
    { eapply includes_nonempty; [|exact Hlow].
      revert Hd. unfold Terminal.dangerousCommands.
      rewrite !elem_of_cons, elem_of_nil. intuition (subst; reflexivity). }
    by destruct c. }
  split; [done|]. split; [|split; [|by vm_compute]].
  - intros nanoid path sessionId w body.
    rewrite (run_route_unsafe nanoid body c w eq_refl Hunsafe). simpl.
    rewrite Htruthy. simpl. split; [done|]. unfold spawned. lia.
  - intros result path sessionId w body.
    rewrite (exec_route_unsafe result body c w eq_refl Hunsafe). simpl.
    rewrite Htruthy. simpl. split; [done|]. unfold spawned. lia.
Qed.

(** The theorem at ["npm install suspense"], which contains ["su"]. *)
Lemma substring_deny_rejects_benign_witness :
  Terminal.isCommandSafe "npm install suspense" = false ∧
  fst (run_route "id0" {| command := Some "npm install suspense";
                          path := Some "/srv/app"; sessionId := None |}
         Terminal.empty) = BadRequest not_allowed.
Proof.
  assert (Hd : "su" ∈ Terminal.dangerousCommands)
    by (unfold Terminal.dangerousCommands; rewrite !elem_of_cons; tauto).
  assert (Hc : Contains "su" (toLowerCase "npm install suspense") ∨
               Contains "su" "npm install suspense")
    by (right; exists "npm install ", "spense"; reflexivity).
  pose proof (substring_deny_rejects_benign "npm install suspense" "su" Hd Hc)
    as (Hsafe & Hrun & _).
  split; [exact Hsafe|].
  destruct (Hrun "id0" (Some "/srv/app") None Terminal.empty) as [-> _].
  reflexivity.
Defined.


(** *** The other endpoints *)

(** Answers of [/terminal/kill], [/terminal/session/:sessionId],
    [/terminal/sessions] and [/terminal/commands/:language]. *)
Inductive Answer :=
| SessionIdRequired
| Killed (success : bool) (sessionId : string)
| SessionNotFound
| SessionInfo (id cwd : string) (isActive : bool) (outputLines : nat)
| ActiveSessions (sessions : list (string * string * bool * nat))
| Commands (language : string) (safeCommands setupCommands : list string).

(** [POST /terminal/kill] *)
Definition kill_route (sessionId : option string) (w : Terminal.Runner)
  : Answer * Terminal.Runner :=
  if falsy sessionId then (SessionIdRequired, w)
  else
    let sessionId := or_else sessionId "" in
    let killed := Terminal.killSession sessionId w in
    (Killed killed.1 sessionId, killed.2).

(** [GET /terminal/session/:sessionId] *)
Definition session_route (sessionId : string) (w : Terminal.Runner) : Answer :=
  match Terminal.getSession sessionId w with
  | None => SessionNotFound
  | Some session =>
      SessionInfo (Terminal.id session) (Terminal.cwd session) (Terminal.isActive session)
        (length (Terminal.output session))
  end.

(** [GET /terminal/sessions] *)
Definition sessions_route (w : Terminal.Runner) : Answer :=
  ActiveSessions
    ((λ s, (Terminal.id s, Terminal.cwd s, Terminal.isActive s, length (Terminal.output s)))
       <$> Terminal.getActiveSessions w).

(** [GET /terminal/commands/:language] *)
Definition commands_route (language : string) : Answer :=
  Commands language (Terminal.getSafeCommands language) (Terminal.getSetupCommands language "").

Lemma run_route_accepted nanoid c path sessionId w :
  truthy c = true → truthy path = true → Terminal.isCommandSafe c = true →
  run_route nanoid {| command := Some c; path := Some path; sessionId := sessionId |} w =
    (EventStream (or_else sessionId nanoid) c,
     (Terminal.runCommand (or_else sessionId nanoid) c path w).2).
Proof.
  intros Hc Hp Hs. unfold run_route. simpl. by rewrite Hc, Hp, Hs.
Qed.

Lemma getSession_runCommand sid c path w :
  Terminal.getSession sid (Terminal.runCommand sid c path w).2 =
    Some {| Terminal.id := sid; Terminal.process := Terminal.spawn c; Terminal.cwd := path;
            Terminal.output := []; Terminal.isActive := true |}.
Proof.
  unfold Terminal.getSession, Terminal.runCommand. simpl. rewrite lookup_insert_eq. simpl.
  by apply list_lookup_middle.
Qed.


(** X4. Every command the runner lists for a language, as a safe command
    or as a setup command, passes the safety filter; sent to
    [/terminal/run] with a path it is started, under the given session id
    or a fresh one. *)
Theorem predefined_commands_run (language c : string)
  (Hc : c ∈ Terminal.getSafeCommands language ++ Terminal.getSetupCommands language "") :
  Terminal.isCommandSafe c = true ∧
  ∀ nanoid path sessionId w, truthy path = true →
    run_route nanoid {| command := Some c; path := Some path; sessionId := sessionId |} w =
      (EventStream (or_else sessionId nanoid) c,
       (Terminal.runCommand (or_else sessionId nanoid) c path w).2).
Proof.
  destruct (Terminal.predefined_commands_safe language c Hc) as [Hsafe Ht].
  split; [done|]. intros nanoid path sessionId w Hp. by apply run_route_accepted.
Qed.

(** The theorem at [npm install], listed for [node]. *)
Lemma predefined_commands_run_witness :
  Terminal.isCommandSafe "npm install" = true.
Proof.
  refine (proj1 (predefined_commands_run "node" "npm install" _)). by vm_compute; left.
Defined.



(** X6. [/terminal/kill] asks for a session id and changes nothing without
    one. For a session that [/terminal/run] has just started it answers
    success, after which the session is gone from [/terminal/session/:id]
    (404); a second kill answers failure and changes nothing. For an id
    that was never registered it answers failure. *)
Theorem kill_route_contract (w : Terminal.Runner) (id c path : string)
  (Hid : truthy id = true) :
  let started := (Terminal.runCommand id c path w).2 in
  let killed := (kill_route (Some id) started).2 in
  (∀ w0, kill_route None w0 = (SessionIdRequired, w0) ∧
         kill_route (Some "") w0 = (SessionIdRequired, w0)) ∧
  (kill_route (Some id) started).1 = Killed true id ∧
  session_route id killed = SessionNotFound ∧
  kill_route (Some id) killed = (Killed false id, killed) ∧
  (∀ w0, Terminal.sessions w0 !! id = None → kill_route (Some id) w0 = (Killed false id, w0)).
Proof.
  cbv zeta. split; [done|].
  assert (Hor : or_else (Some id) "" = id) by (simpl; by rewrite Hid).
  assert (Hk : (Terminal.killSession id (Terminal.runCommand id c path w).2).1 = true).
  { apply Terminal.killSession_true. eexists. split; [apply getSession_runCommand|done]. }
  unfold kill_route. simpl falsy. rewrite Hid. cbn [negb]. rewrite Hor.
  cbn [fst snd]. split; [by rewrite Hk|]. split; [|split].
  - unfold session_route, Terminal.getSession.
    by rewrite (Terminal.killSession_unregisters _ _ Hk).
  - by rewrite Terminal.killSession_twice.
  - intros w0 H0. unfold Terminal.killSession. by rewrite H0.
Qed.

(** The theorem at the session id ["s1"]. *)
Lemma kill_route_contract_witness :
  (kill_route (Some "s1") (Terminal.runCommand "s1" "npm test" "/srv/app" Terminal.empty).2).1
  = Killed true "s1".
Proof.
  refine (proj1 (proj2
    (kill_route_contract Terminal.empty "s1" "npm test" "/srv/app" _))).
  reflexivity.
Defined.

End TerminalRoutes.

(* ===================================================================== *)
(** ** The enhanced AI loop ([class EnhancedAILoop]) *)
(* ===================================================================== *)

Module AILoop.
Import JsString.

Inductive TaskType := chat | file_generation | preview_update.
Inductive Priority := high | medium | low.
Inductive Status := pending | processing | completed | failed.
Inductive Role := user | assistant.

#[global] Instance Status_eq_dec : EqDecision Status.
Proof. solve_decision. Defined.

(** A file as the session keeps it, [{ content, language }]. *)
Record FileEntry := { content : string; language : string }.

(** A file as the generation service returns it. *)
Record GeneratedFile := { g_content : string; g_language : string; g_path : string }.

(** [interface ChatSession] *)
Record ChatSession := {
  userId : string;
  projectId : option string;
  conversationHistory : list (Role * string);
  activeFiles : gmap string FileEntry;
  isGenerating : bool }.

(** [task.data]: [{ userId, message, session }] for chat and generation
    tasks, [{ userId, projectId, previewUrl }] for preview updates.
    [d_session] names the session object the task was created with. *)
Record TaskData := {
  d_userId : string;
  d_message : string;
  d_session : option nat;
  d_projectId : option string;
  d_previewUrl : option string }.

(** [interface LoopTask] *)
Record LoopTask := {
  id : string;
  type : TaskType;
  data : TaskData;
  retries : nat;
  maxRetries : nat;
  priority : Priority;
  status : Status }.

(** The loop object. Session objects are shared between [activeSessions]
    and the tasks' [data.session], so they live in [heap]; task objects
    are the elements of [taskQueue], named by their position. [slept]
    lists the delays the retry policy waited for. *)
Record Loop := {
  taskQueue : list LoopTask;
  heap : list ChatSession;
  activeSessions : gmap string nat;
  slept : list Z }.

Definition empty : Loop :=
  {| taskQueue := []; heap := []; activeSessions := ∅; slept := [] |}.

Definition retryDelays : list Z := [1000; 2000; 4000; 8000; 16000]%Z.

(** [AIGenerationResponse] of [comprehensiveAI.generateProject]; [files]
    lists the entries of the object in [Object.entries] order. *)
Record AIGenerationResponse := {
  success : bool;
  message : string;
  files : option (list (string * GeneratedFile));
  r_previewUrl : option string;
  r_projectId : option string;
  error : option string }.

(** Field updates. *)
Definition set_taskQueue (q : list LoopTask) (l : Loop) : Loop :=
  {| taskQueue := q; heap := heap l; activeSessions := activeSessions l; slept := slept l |}.

Definition set_heap (h : list ChatSession) (l : Loop) : Loop :=
  {| taskQueue := taskQueue l; heap := h; activeSessions := activeSessions l; slept := slept l |}.

Definition set_activeSessions (m : gmap string nat) (l : Loop) : Loop :=
  {| taskQueue := taskQueue l; heap := heap l; activeSessions := m; slept := slept l |}.

Definition sleep (ms : Z) (l : Loop) : Loop :=
  {| taskQueue := taskQueue l; heap := heap l; activeSessions := activeSessions l;
     slept := slept l ++ [ms] |}.

Definition set_status (s : Status) (t : LoopTask) : LoopTask :=
  {| id := id t; type := type t; data := data t; retries := retries t;
     maxRetries := maxRetries t; priority := priority t; status := s |}.

Definition incr_retries (t : LoopTask) : LoopTask :=
  {| id := id t; type := type t; data := data t; retries := S (retries t);
     maxRetries := maxRetries t; priority := priority t; status := status t |}.

(** [session.conversationHistory.push({ role, content })] *)
Definition push_turn (r : Role) (text : string) (s : ChatSession) : ChatSession :=
  {| userId := userId s; projectId := projectId s;
     conversationHistory := conversationHistory s ++ [(r, text)];
     activeFiles := activeFiles s; isGenerating := isGenerating s |}.

Definition set_activeFiles (m : gmap string FileEntry) (s : ChatSession) : ChatSession :=
  {| userId := userId s; projectId := projectId s;
     conversationHistory := conversationHistory s;
     activeFiles := m; isGenerating := isGenerating s |}.

Definition set_projectId (p : string) (s : ChatSession) : ChatSession :=
  {| userId := userId s; projectId := Some p;
     conversationHistory := conversationHistory s;
     activeFiles := activeFiles s; isGenerating := isGenerating s |}.

(** Update of the object at a position, when there is one. *)
Definition update {A} (i : nat) (f : A → A) (l : list A) : list A :=
  match l !! i with
  | Some x => <[i := f x]> l
  | None => l
  end.

(** [addTask(task)] *)
Definition addTask (task : LoopTask) (l : Loop) : Loop :=
  set_taskQueue (taskQueue l ++ [task]) l.

(** [getPriorityValue(priority)] *)
Definition getPriorityValue (p : Priority) : nat :=
  match p with
  | high => 1
  | medium => 2
  | low => 3
  end.

(** [isAppGenerationRequest(message)] *)
Definition appKeywords : list string :=
  [ "create"; "build"; "make"; "generate"; "develop"; "app"; "application";
    "website"; "calculator"; "todo"; "game"; "dashboard"; "api"; "server";
    "component"; "react"; "python"; "javascript"; "typescript"; "html" ].

Definition isAppGenerationRequest (message : string) : bool :=
  let lowerMessage := toLowerCaseText (codePoints message) in
  existsb (λ keyword, includesText (codePoints keyword) lowerMessage) appKeywords &&
  (10 <? unitLength lowerMessage).

(** The delay looked up by the retry policy once [retries] was
    incremented: [retryDelays[Math.min(retries - 1, retryDelays.length - 1)]]. *)
Definition retryDelay (retries : nat) : option Z :=
  retryDelays !! Nat.min (retries - 1) (length retryDelays - 1).

Definition apology : string :=
  "I encountered an issue with your request. Let me try a different approach...".

(** [handleTaskError(task, error)] for the task object at position [i].
    [sleep(undefined)] would wait 0 ms. *)
Definition handleTaskError (i : nat) (l : Loop) : Loop :=
  match taskQueue l !! i with
  | None => l
  | Some task0 =>
      let task := incr_retries task0 in
      if retries task <=? maxRetries task then
        let delay := retryDelay (retries task) in
        let l1 := sleep (default 0%Z delay) (set_taskQueue (<[i := task]> (taskQueue l)) l) in
        set_taskQueue (<[i := set_status pending task]> (taskQueue l1)) l1
      else
        let l1 := set_taskQueue (<[i := set_status failed task]> (taskQueue l)) l in
        if truthy (d_userId (data task)) then
          match activeSessions l1 !! d_userId (data task) with
          | Some r => set_heap (update r (push_turn assistant apology) (heap l1)) l1
          | None => l1
          end
        else l1
  end.

(** The loop of [executeFileGeneration] over [Object.entries(result.files)]:
    one [session.activeFiles.set(filename, { content, language })] each. *)
Definition entry_of (fileData : GeneratedFile) : FileEntry :=
  {| content := g_content fileData; language := g_language fileData |}.

Definition merge_files (entries : list (string * GeneratedFile))
    (activeFiles : gmap string FileEntry) : gmap string FileEntry :=
  fold_left (λ m e, <[e.1 := entry_of e.2]> m) entries activeFiles.

Definition nl : string := String (ascii_of_nat 10) "".

(** [xs.join(sep)] *)
Fixpoint join (sep : string) (xs : list string) : string :=
  match xs with
  | [] => ""
  | [x] => x
  | x :: rest => x +:+ sep +:+ join sep rest
  end.

(** The assistant turn that reports the generated files. *)
Definition summary (entries : list (string * GeneratedFile)) (previewUrl : option string) : string :=
  "✅ I've created your application with " +:+ pretty (length entries) +:+
  " files! The project includes:" +:+ nl +:+ nl +:+
  join nl ((λ e, "📄 " +:+ e.1) <$> entries) +:+ nl +:+ nl +:+
  (if truthy_opt previewUrl then "🌐 Live preview: " +:+ default "" previewUrl else "").

(** What the outside world supplies while one task runs: the clock, the
    answer of [comprehensiveAI.generateProject] and the text
    [generateChatResponse] comes back with. *)
Record Oracle := {
  o_now : Z;
  o_result : AIGenerationResponse;
  o_response : string }.

(** [executeFileGeneration(task)] for the task at position [i]; the
    boolean is [false] when the method throws. *)
Definition executeFileGeneration (o : Oracle) (i : nat) (l : Loop) : bool * Loop :=
  match taskQueue l !! i with
  | None => (false, l)
  | Some task =>
      let result := o_result o in
      match success result, files result, d_session (data task) with
      | true, Some entries, Some session =>
          let l1 :=
            set_heap (update session
                        (λ s, set_activeFiles (merge_files entries (activeFiles s)) s)
                        (heap l)) l in
          let l2 :=
            if truthy_opt (r_projectId result) && truthy_opt (r_previewUrl result) then
              let previewTask :=
                {| id := "preview_" +:+ pretty (o_now o) +:+ "_" +:+ d_userId (data task);
                   type := preview_update;
                   data := {| d_userId := d_userId (data task); d_message := "";
                              d_session := None;
                              d_projectId := r_projectId result;
                              d_previewUrl := r_previewUrl result |};
                   retries := 0; maxRetries := 2; priority := high; status := pending |} in
              addTask previewTask
                (set_heap (update session (set_projectId (default "" (r_projectId result)))
                             (heap l1)) l1)
            else l1 in
          (true,
           set_heap (update session
                       (push_turn assistant (summary entries (r_previewUrl result)))
                       (heap l2)) l2)
      | _, _, _ => (false, l)
      end
  end.

(** [executeChatTask(task)]: [generateChatResponse] catches its own
    errors, so the method does not throw. *)
Definition executeChatTask (o : Oracle) (i : nat) (l : Loop) : bool * Loop :=
  match taskQueue l !! i with
  | None => (false, l)
  | Some task =>
      match d_session (data task) with
      | Some session =>
          (true, set_heap (update session (push_turn assistant (o_response o)) (heap l)) l)
      | None => (false, l)
      end
  end.

(** [executePreviewUpdate(task)] only logs. *)
Definition executePreviewUpdate (i : nat) (l : Loop) : bool * Loop := (true, l).

(** [executeTask(task)] *)
Definition executeTask (o : Oracle) (i : nat) (l : Loop) : bool * Loop :=
  match type <$> taskQueue l !! i with
  | Some file_generation => executeFileGeneration o i l
  | Some chat => executeChatTask o i l
  | Some preview_update => executePreviewUpdate i l
  | None => (false, l)
  end.

(** The body of the [for] loop of [processPendingTasks] for one task. *)
Definition process_task (o : Oracle) (i : nat) (l : Loop) : Loop :=
  let l1 := set_taskQueue (update i (set_status processing) (taskQueue l)) l in
  let (ok, l2) := executeTask o i l1 in
  if ok then set_taskQueue (update i (set_status completed) (taskQueue l2)) l2
  else handleTaskError i l2.

(** [Array.prototype.sort] with comparator [key a - key b]: stable. *)
Fixpoint insert_by {A} (key : A → nat) (x : A) (l : list A) : list A :=
  match l with
  | [] => [x]
  | y :: l' => if key y <=? key x then y :: insert_by key x l' else x :: l
  end.

Definition sort_by {A} (key : A → nat) (l : list A) : list A :=
  fold_left (λ acc x, insert_by key x acc) l [].

(** Positions of the pending tasks, highest priority first; ties keep
    queue order. *)
Definition pendingTasks (l : Loop) : list nat :=
  sort_by (λ i, from_option (getPriorityValue ∘ priority) 2 (taskQueue l !! i))
    (List.filter (λ i, bool_decide (status <$> taskQueue l !! i = Some pending))
       (seq 0 (length (taskQueue l)))).

(** [processPendingTasks()]; [o i] is what the world supplies while the
    task at position [i] runs. *)
Definition processPendingTasks (o : nat → Oracle) (l : Loop) : Loop :=
  fold_left (λ l i, process_task (o i) i l) (take 3 (pendingTasks l)) l.

(** The eviction test of [maintainActiveSessions]: [now - lastActivity >
    3600000], where [lastActivity] is a fresh clock reading for a session
    with a turn and [0] for one without. *)
Definition inactive (now : Z) (session : ChatSession) : bool :=
  let lastActivity :=
    if bool_decide (0 < length (conversationHistory session)) then now else 0%Z in
  (3600000 <? now - lastActivity)%Z.

(** [maintainActiveSessions()]; [now] is [Date.now()]. *)
Definition maintainActiveSessions (now : Z) (l : Loop) : Loop :=
  set_activeSessions
    (filter (λ kv, from_option (inactive now) false (heap l !! kv.2) = false)
       (activeSessions l)) l.

(** [cleanupCompletedTasks()] *)
Definition cleanupCompletedTasks (l : Loop) : Loop :=
  let completedCount :=
    length (List.filter (λ t, bool_decide (status t = completed)) (taskQueue l)) in
  if 100 <? completedCount then
    set_taskQueue
      (List.filter (λ t, negb (bool_decide (status t = completed))) (taskQueue l)) l
  else l.

Inductive Reply :=
| AppGeneration
| Chat (message : string).

(** [handleChatMessage(userId, message)], taken whole: the call as it
    runs when nothing else runs while it awaits [generateChatResponse].
    [now] is [Date.now()] and [response] the text [generateChatResponse]
    comes back with. The call is taken apart at its await further down. *)
Definition handleChatMessage (now : Z) (response : string) (userId message : string)
    (l : Loop) : Reply * Loop :=
  let '(session, l1) :=
    match activeSessions l !! userId with
    | Some r => (r, l)
    | None =>
        let r := length (heap l) in
        (r, set_activeSessions (<[userId := r]> (activeSessions l))
              (set_heap (heap l ++ [ {| userId := userId; projectId := None;
                                        conversationHistory := [];
                                        activeFiles := ∅;
                                        isGenerating := false |} ]) l))
    end in
  let l2 := set_heap (update session (push_turn user message) (heap l1)) l1 in
  let data := {| d_userId := userId; d_message := message; d_session := Some session;
                 d_projectId := None; d_previewUrl := None |} in
  if isAppGenerationRequest message then
    (AppGeneration,
     addTask {| id := "app_" +:+ pretty now +:+ "_" +:+ userId; type := file_generation;
                data := data; retries := 0; maxRetries := 3; priority := high;
                status := pending |} l2)
  else
    let l3 :=
      addTask {| id := "chat_" +:+ pretty now +:+ "_" +:+ userId; type := chat;
                 data := data; retries := 0; maxRetries := 2; priority := medium;
                 status := pending |} l2 in
    (Chat response, set_heap (update session (push_turn assistant response) (heap l3)) l3).

(** [getTaskStatus], [getActiveTasksCount] *)
Definition getTaskStatus (taskId : string) (l : Loop) : option Status :=
  status <$> List.find (λ t, String.eqb (id t) taskId) (taskQueue l).

Definition getActiveTasksCount (l : Loop) : nat :=
  length (List.filter
            (λ t, bool_decide (status t = pending) || bool_decide (status t = processing))
            (taskQueue l)).

(** One round of the continuous loop and the calls from outside, each
    taken whole: the loop awaits each task before it takes the next one, so
    a round is a sequence of task runs, and [step] is a round, or a call of
    [handleChatMessage], during whose awaits nothing else runs. The rounds
    and calls taken apart at their awaits and interleaved are the subject
    of the last section of this module. *)
Inductive Event :=
| Message (now : Z) (response userId message : string)
| Tick (o : nat → Oracle) (now : Z).

Definition step (l : Loop) (e : Event) : Loop :=
  match e with
  | Message now response userId message =>
      snd (handleChatMessage now response userId message l)
  | Tick o now =>
      cleanupCompletedTasks (maintainActiveSessions now (processPendingTasks o l))
  end.

Definition run_events (es : list Event) (l : Loop) : Loop := fold_left step es l.

(** *** The task queue under [processPendingTasks] *)

Lemma update_length {A} i (f : A → A) (l : list A) : length (update i f l) = length l.
Proof. unfold update. destruct (l !! i); [apply length_insert|done]. Qed.

Lemma update_lookup {A} i (f : A → A) (l : list A) x :
  l !! i = Some x → update i f l = <[i := f x]> l.
Proof. unfold update. by intros ->. Qed.

Lemma set_status_set_status s s' t : set_status s (set_status s' t) = set_status s t.
Proof. reflexivity. Qed.

(** A task as [handleChatMessage] and [executeFileGeneration] create it. *)
Definition fresh (t : LoopTask) : Prop := status t = pending ∧ retries t = 0.

(** A preview task as [executeFileGeneration] queues it for user [uid]. *)
Definition spawned_for (uid : string) (t : LoopTask) : Prop :=
  fresh t ∧ d_userId (data t) = uid ∧ d_session (data t) = None.

Lemma handleTaskError_queue i l task :
  taskQueue l !! i = Some task →
  taskQueue (handleTaskError i l) =
    <[i := set_status (if S (retries task) <=? maxRetries task then pending else failed)
             (incr_retries task)]> (taskQueue l).
Proof.
  intros Hi. unfold handleTaskError. rewrite Hi. simpl.
  destruct (maxRetries task) as [|m] eqn:Hm; simpl.
  - destruct (truthy _); [|done]. by destruct (activeSessions l !! _).
  - destruct (retries task <=? m) eqn:E.
    + simpl. by rewrite list_insert_insert_eq.
    + destruct (truthy _); [|done]. by destruct (activeSessions l !! _).
Qed.

Lemma executeTask_queue o i l task :
  taskQueue l !! i = Some task →
  ∃ extra, taskQueue (executeTask o i l).2 = taskQueue l ++ extra ∧
           Forall (spawned_for (d_userId (data task))) extra.
Proof.
  intros Hi. unfold executeTask. rewrite Hi. simpl.
  destruct (type task).
  - unfold executeChatTask. rewrite Hi. destruct (d_session _); simpl; exists []; by rewrite app_nil_r.
  - unfold executeFileGeneration. rewrite Hi. cbv zeta.
    destruct (success (o_result o)), (files (o_result o)), (d_session (data task));
      simpl; try (exists []; by rewrite app_nil_r).
    destruct (truthy_opt (r_projectId (o_result o)) && truthy_opt (r_previewUrl (o_result o))); simpl.
    + eexists [_]. split; [done|]. by repeat constructor.
    + exists []. by rewrite app_nil_r.
  - exists []. by rewrite app_nil_r.
Qed.

Lemma process_task_queue o i l task :
  taskQueue l !! i = Some task →
  ∃ t' extra,
    taskQueue (process_task o i l) = <[i := t']> (taskQueue l) ++ extra ∧
    Forall (spawned_for (d_userId (data task))) extra ∧
    (t' = set_status completed task ∨
     (t' = set_status pending (incr_retries task) ∧ S (retries task) ≤ maxRetries task) ∨
     (t' = set_status failed (incr_retries task) ∧ maxRetries task < S (retries task))).
Proof.
  intros Hi. unfold process_task.
  remember (set_taskQueue _ l) as l1 eqn:Hl1.
  assert (Hq1 : taskQueue l1 = <[i := set_status processing task]> (taskQueue l))
    by (subst l1; simpl; by apply update_lookup).
  clear Hl1.
  assert (Hi1 : taskQueue l1 !! i = Some (set_status processing task)).
  { rewrite Hq1. apply list_lookup_insert_eq. by eapply lookup_lt_Some. }
  destruct (executeTask_queue o i l1 _ Hi1) as (extra & Hq2 & Hfresh).
  destruct (executeTask o i l1) as [ok l2]. simpl in Hq2.
  assert (Hi2 : taskQueue l2 !! i = Some (set_status processing task)).
  { rewrite Hq2, Hq1. apply lookup_app_l_Some, list_lookup_insert_eq.
    by eapply lookup_lt_Some. }
  assert (Hlt : i < length (<[i := set_status processing task]> (taskQueue l))).
  { rewrite length_insert. by eapply lookup_lt_Some. }
  destruct ok.
  - exists (set_status completed task), extra. split; [|split; [done|by left]].
    simpl. rewrite (update_lookup _ _ _ _ Hi2), Hq2, Hq1.
    rewrite insert_app_l by done. by rewrite list_insert_insert_eq.
  - rewrite (handleTaskError_queue _ _ _ Hi2), Hq2, Hq1. simpl.
    rewrite insert_app_l by done. rewrite list_insert_insert_eq.
    destruct (maxRetries task) as [|m] eqn:Hm.
    + eexists _, extra. split; [done|]. split; [done|]. right; right. split; [done|lia].
    + destruct (retries task <=? m) eqn:E.
      * eexists _, extra. split; [done|]. split; [done|]. right; left. split; [done|].
        apply Nat.leb_le in E. lia.
      * eexists _, extra. split; [done|]. split; [done|]. right; right. split; [done|].
        apply Nat.leb_gt in E. lia.
Qed.

(** A task that can still be selected stays within its retry budget. *)
Definition within_budget (t : LoopTask) : Prop :=
  status t ≠ failed → retries t ≤ maxRetries t.

Definition budget_ok (l : Loop) : Prop := Forall within_budget (taskQueue l).

Lemma fresh_within_budget t : fresh t → within_budget t.
Proof. intros [_ Hr] _. rewrite Hr. lia. Qed.

(** Failed tasks of [l] are still there, untouched, in [l']. *)
Definition failed_kept (l l' : Loop) : Prop :=
  ∀ j t, taskQueue l !! j = Some t → status t = failed → taskQueue l' !! j = Some t.

Definition pending_at (l : Loop) (i : nat) : Prop :=
  status <$> taskQueue l !! i = Some pending.

Lemma process_task_kept o i l :
  pending_at l i →
  failed_kept l (process_task o i l) ∧
  (∀ j, j ≠ i → pending_at l j → pending_at (process_task o i l) j).
Proof.
  unfold pending_at. intros Hp.
  destruct (taskQueue l !! i) as [task|] eqn:Hi; [|done].
  injection Hp as Hp.
  destruct (process_task_queue o i l task Hi) as (t' & extra & Hq & _ & _).
  split.
  - intros j t Hj Hf. rewrite Hq. apply lookup_app_l_Some.
    rewrite list_lookup_insert_ne; [done|]. intros ->. congruence.
  - intros j Hne Hj. rewrite Hq.
    destruct (taskQueue l !! j) as [t|] eqn:Hjt; [|done].
    erewrite lookup_app_l_Some; [done|]. by rewrite list_lookup_insert_ne.
Qed.

Lemma process_task_budget o i l :
  pending_at l i → budget_ok l → budget_ok (process_task o i l).
Proof.
  unfold pending_at. intros Hp Hinv.
  destruct (taskQueue l !! i) as [task|] eqn:Hi; [|done].
  injection Hp as Hp.
  destruct (process_task_queue o i l task Hi) as (t' & extra & Hq & Hfresh & Ht').
  assert (Hlt : i < length (taskQueue l)) by (by eapply lookup_lt_Some).
  unfold budget_ok. rewrite Hq. apply Forall_app. split.
  - apply Forall_insert; [done|].
    unfold budget_ok in Hinv. rewrite Forall_lookup in Hinv. specialize (Hinv _ _ Hi).
    destruct Ht' as [->|[[-> Hle]|[-> Hgt]]]; intros Hs; simpl in *; try done.
    apply Hinv. by rewrite Hp.
  - eapply Forall_impl; [done|]. intros t [Ht _]. by apply fresh_within_budget.
Qed.

Lemma failed_kept_refl l : failed_kept l l.
Proof. by intros j t. Qed.

Lemma failed_kept_trans l1 l2 l3 : failed_kept l1 l2 → failed_kept l2 l3 → failed_kept l1 l3.
Proof. intros H1 H2 j t Hj Hf. apply H2; [|done]. by apply H1. Qed.

Lemma process_tasks_fold o (ixs : list nat) l :
  NoDup ixs → Forall (pending_at l) ixs →
  let l' := fold_left (λ l i, process_task (o i) i l) ixs l in
  failed_kept l l' ∧ (budget_ok l → budget_ok l').
Proof.
  revert l. induction ixs as [|i ixs IH]; intros l Hnd Hp; simpl.
  - split; [apply failed_kept_refl|done].
  - apply NoDup_cons in Hnd as [Hni Hnd]. apply Forall_cons in Hp as [Hpi Hp].
    destruct (process_task_kept (o i) i l Hpi) as (Hk & Hpend).
    destruct (IH (process_task (o i) i l) Hnd) as [Hk' Hinv'].
    + rewrite Forall_forall in Hp |- *. intros j Hj. apply Hpend; [|by apply Hp].
      intros ->. done.
    + split; [by eapply failed_kept_trans|].
      intros Hinv. by apply Hinv', process_task_budget.
Qed.

Lemma insert_by_perm {A} (key : A → nat) x (l : list A) : insert_by key x l ≡ₚ x :: l.
Proof.
  induction l as [|y l IH]; simpl; [done|].
  destruct (key y <=? key x); [|done]. rewrite IH. apply Permutation_swap.
Qed.

Lemma sort_by_perm {A} (key : A → nat) (l : list A) : sort_by key l ≡ₚ l.
Proof.
  unfold sort_by. rewrite <- (app_nil_r l) at 2. generalize (@nil A) as acc.
  induction l as [|x l IH]; intros acc; simpl; [done|].
  rewrite IH, insert_by_perm. by rewrite Permutation_middle.
Qed.

Lemma pendingTasks_pending l : NoDup (pendingTasks l) ∧ Forall (pending_at l) (pendingTasks l).
Proof.
  unfold pendingTasks. rewrite sort_by_perm. split.
  - apply NoDup_ListNoDup, List.NoDup_filter, List.seq_NoDup.
  - apply Forall_forall. intros i Hi.
    apply list_elem_of_In, filter_In in Hi as [_ Hi]. by apply bool_decide_eq_true in Hi.
Qed.

Lemma processPendingTasks_ok o l :
  failed_kept l (processPendingTasks o l) ∧
  (budget_ok l → budget_ok (processPendingTasks o l)).
Proof.
  destruct (pendingTasks_pending l) as [Hnd Hp].
  apply process_tasks_fold; [|by apply Forall_take].
  eapply sublist_NoDup; [done|]. apply sublist_take.
Qed.

(** Failed tasks of [l] are still in the queue of [l'], untouched. *)
Definition failed_stay (l l' : Loop) : Prop :=
  ∀ t, t ∈ taskQueue l → status t = failed → t ∈ taskQueue l'.

Lemma failed_kept_stay l l' : failed_kept l l' → failed_stay l l'.
Proof.
  intros H t Ht Hf. apply list_elem_of_lookup in Ht as [j Hj].
  apply list_elem_of_lookup. exists j. by apply H.
Qed.

Lemma cleanupCompletedTasks_ok l :
  (budget_ok l → budget_ok (cleanupCompletedTasks l)) ∧ failed_stay l (cleanupCompletedTasks l).
Proof.
  unfold cleanupCompletedTasks, budget_ok, failed_stay.
  destruct (100 <? _); simpl; [|done]. split.
  - rewrite !Forall_forall. intros H t Ht. apply H.
    apply list_elem_of_In, filter_In in Ht as [Ht _]. by apply list_elem_of_In.
  - intros t Ht Hf. apply list_elem_of_In, filter_In. split; [by apply list_elem_of_In|].
    rewrite Hf. done.
Qed.

Lemma handleChatMessage_queue now response userId message l :
  ∃ t, taskQueue (handleChatMessage now response userId message l).2 = taskQueue l ++ [t] ∧
       fresh t ∧ d_userId (data t) = userId ∧
       type t = (if isAppGenerationRequest message then file_generation else chat) ∧
       priority t = (if isAppGenerationRequest message then high else medium) ∧
       maxRetries t = (if isAppGenerationRequest message then 3 else 2).
Proof.
  unfold handleChatMessage.
  destruct (activeSessions l !! userId) as [r|]; destruct (isAppGenerationRequest message);
    simpl; eexists; (split; [reflexivity|]); by repeat split.
Qed.

Lemma step_ok l e : (budget_ok l → budget_ok (step l e)) ∧ failed_stay l (step l e).
Proof.
  destruct e as [now response userId message|o now]; simpl.
  - destruct (handleChatMessage_queue now response userId message l) as (t & Hq & Hfresh & _).
    unfold budget_ok, failed_stay. rewrite Hq. split.
    + intros H. apply Forall_app. split; [done|].
      apply Forall_singleton. by apply fresh_within_budget.
    + intros t0 Ht0 _. apply elem_of_app. by left.
  - pose proof (cleanupCompletedTasks_ok (maintainActiveSessions now (processPendingTasks o l)))
      as [Hb Hs].
    destruct (processPendingTasks_ok o l) as [Hk Hinv].
    split.
    + intros H. by apply Hb, Hinv.
    + intros t Ht Hf. apply Hs; [|done]. simpl. by apply (failed_kept_stay _ _ Hk).
Qed.

Lemma run_events_ok es l :
  (budget_ok l → budget_ok (run_events es l)) ∧ failed_stay l (run_events es l).
Proof.
  revert l. induction es as [|e es IH]; intros l; simpl;
    [split; [done|by intros t Ht _]|].
  destruct (step_ok l e) as [Hb Hs]. destruct (IH (step l e)) as [Hb' Hs'].
  split; [by intros H; apply Hb', Hb|].
  intros t Ht Hf. apply Hs'; [|done]. by apply Hs.
Qed.

(** *** The retry policy *)

Lemma handleTaskError_retry i l task :
  taskQueue l !! i = Some task → S (retries task) ≤ maxRetries task →
  handleTaskError i l =
    set_taskQueue (<[i := set_status pending (incr_retries task)]> (taskQueue l))
      (sleep (default 0%Z (retryDelay (S (retries task)))) l).
Proof.
  intros Hi Hle. unfold handleTaskError. rewrite Hi.
  replace (retries (incr_retries task) <=? maxRetries (incr_retries task)) with true
    by (symmetry; apply Nat.leb_le; simpl; lia).
  unfold set_taskQueue, sleep; simpl. by rewrite list_insert_insert_eq.
Qed.

(** The session object a permanent failure is reported to: the one
    registered under the task's user id, when that id is not empty. *)
Definition notified (l : Loop) (task : LoopTask) : option (nat * ChatSession) :=
  if truthy (d_userId (data task)) then
    r ← activeSessions l !! d_userId (data task);
    session ← heap l !! r;
    Some (r, session)
  else None.

Lemma handleTaskError_fail i l task :
  taskQueue l !! i = Some task → maxRetries task < S (retries task) →
  handleTaskError i l =
    set_heap
      (match notified l task with
       | Some (r, session) => <[r := push_turn assistant apology session]> (heap l)
       | None => heap l
       end)
      (set_taskQueue (<[i := set_status failed (incr_retries task)]> (taskQueue l)) l).
Proof.
  intros Hi Hlt. unfold handleTaskError, notified. rewrite Hi.
  replace (retries (incr_retries task) <=? maxRetries (incr_retries task)) with false
    by (symmetry; apply Nat.leb_gt; simpl; lia).
  simpl. destruct (truthy (d_userId (data task))); [|by destruct l].
  simpl. destruct (activeSessions l !! d_userId (data task)) as [r|]; simpl; [|by destruct l].
  unfold update. simpl. by destruct (heap l !! r).
Qed.

Lemma retryDelay_last n : 5 ≤ n → retryDelay n = Some 16000%Z.
Proof.
  intros Hn. unfold retryDelay. simpl length.
  replace (Nat.min (n - 1) (5 - 1)) with 4 by lia. reflexivity.
Qed.

(** *** Merging generated files *)

Lemma merge_files_cons e entries m :
  merge_files (e :: entries) m = merge_files entries (<[e.1 := entry_of e.2]> m).
Proof. reflexivity. Qed.

(** Merging is the union with the generated entries, a later entry for a
    name taking precedence over an earlier one and over the old file. *)
Lemma merge_files_union entries (m : gmap string FileEntry) :
  merge_files entries m =
    list_to_map (reverse ((λ e, (e.1, entry_of e.2)) <$> entries)) ∪ m.
Proof.
  revert m. induction entries as [|[k f] entries IH]; intros m.
  - simpl. by rewrite (left_id_L ∅ (∪)).
  - rewrite merge_files_cons, IH. simpl.
    rewrite reverse_cons, list_to_map_app. simpl.
    rewrite <- (assoc_L (∪)). f_equal.
    by rewrite insert_empty, <- insert_union_singleton_l.
Qed.

Lemma merge_files_other entries (m : gmap string FileEntry) k :
  k ∉ entries.*1 → merge_files entries m !! k = m !! k.
Proof.
  revert m. induction entries as [|[k' f] entries IH]; intros m Hk; [done|].
  rewrite merge_files_cons. simpl in *. apply not_elem_of_cons in Hk as [Hne Hk].
  rewrite IH by done. by rewrite lookup_insert_ne.
Qed.

Lemma merge_files_dom entries (m : gmap string FileEntry) :
  dom (merge_files entries m) = dom m ∪ list_to_set entries.*1.
Proof.
  revert m. induction entries as [|[k f] entries IH]; intros m.
  - simpl. by rewrite (right_id_L ∅ (∪)).
  - rewrite merge_files_cons, IH, dom_insert_L. simpl.
    rewrite (comm_L (∪) {[k]} (dom m)). by rewrite (assoc_L (∪)).
Qed.

Lemma update_Some {A} i (f : A → A) (l : list A) x :
  l !! i = Some x → update i f l !! i = Some (f x).
Proof.
  intros H. rewrite (update_lookup _ _ _ _ H). apply list_lookup_insert_eq.
  by eapply lookup_lt_Some.
Qed.

Lemma update_ne {A} i j (f : A → A) (l : list A) : i ≠ j → update i f l !! j = l !! j.
Proof.
  intros H. unfold update. destruct (l !! i); [|done]. by apply list_lookup_insert_ne.
Qed.

Lemma executeFileGeneration_merge o i l task entries r session :
  taskQueue l !! i = Some task →
  success (o_result o) = true → files (o_result o) = Some entries →
  d_session (data task) = Some r → heap l !! r = Some session →
  let l' := (executeFileGeneration o i l).2 in
  (executeFileGeneration o i l).1 = true ∧
  (activeFiles <$> heap l' !! r) = Some (merge_files entries (activeFiles session)) ∧
  (∀ r', r' ≠ r → heap l' !! r' = heap l !! r').
Proof.
  intros Hi Hs Hf Hd Hr. unfold executeFileGeneration. rewrite Hi. cbv zeta.
  rewrite Hs, Hf, Hd.
  set (f1 := λ s, set_activeFiles (merge_files entries (activeFiles s)) s).
  destruct (truthy_opt (r_projectId (o_result o)) && truthy_opt (r_previewUrl (o_result o)));
    simpl; (split; [done|]); split.
  - pose proof (update_Some r f1 (heap l) session Hr) as H1.
    pose proof (update_Some r (set_projectId (default "" (r_projectId (o_result o)))) _ _ H1)
      as H2.
    by rewrite (update_Some r _ _ _ H2).
  - intros r' Hne. by rewrite !update_ne.
  - pose proof (update_Some r f1 (heap l) session Hr) as H1.
    by rewrite (update_Some r _ _ _ H1).
  - intros r' Hne. by rewrite !update_ne.
Qed.

(** *** The sessions of queued tasks *)

(** Session objects stay where they are and a history with a turn keeps
    one. *)
Definition keeps_turns (h h' : list ChatSession) : Prop :=
  ∀ r s, h !! r = Some s →
    ∃ s', h' !! r = Some s' ∧ (conversationHistory s ≠ [] → conversationHistory s' ≠ []).

Lemma keeps_turns_refl h : keeps_turns h h.
Proof. intros r s Hr. by exists s. Qed.

Lemma keeps_turns_trans h1 h2 h3 : keeps_turns h1 h2 → keeps_turns h2 h3 → keeps_turns h1 h3.
Proof.
  intros H12 H23 r s Hr. destruct (H12 _ _ Hr) as (s2 & Hr2 & Hs2).
  destruct (H23 _ _ Hr2) as (s3 & Hr3 & Hs3). exists s3. split; [done|]. auto.
Qed.

Lemma keeps_turns_update r f h :
  (∀ s, conversationHistory s ≠ [] → conversationHistory (f s) ≠ []) →
  keeps_turns h (update r f h).
Proof.
  intros Hf r0 s0 Hr0. destruct (decide (r = r0)) as [->|Hne].
  - exists (f s0). split; [by apply update_Some|by apply Hf].
  - exists s0. split; [by rewrite update_ne|done].
Qed.

Lemma push_turn_nonempty role text s : conversationHistory (push_turn role text s) ≠ [].
Proof. simpl. by destruct (conversationHistory s). Qed.

Lemma keeps_turns_push r role text h : keeps_turns h (update r (push_turn role text) h).
Proof. apply keeps_turns_update. intros s _. apply push_turn_nonempty. Qed.

(** The loops [l] and [l'] have the same registry and [l'] keeps the turns
    of [l]. *)
Definition same_sessions (l l' : Loop) : Prop :=
  activeSessions l' = activeSessions l ∧ keeps_turns (heap l) (heap l').

Lemma same_sessions_refl l : same_sessions l l.
Proof. split; [done|apply keeps_turns_refl]. Qed.

Lemma same_sessions_trans l1 l2 l3 :
  same_sessions l1 l2 → same_sessions l2 l3 → same_sessions l1 l3.
Proof.
  intros [Ha Hh] [Ha' Hh']. split; [congruence|by eapply keeps_turns_trans].
Qed.

Lemma handleTaskError_sessions i l : same_sessions l (handleTaskError i l).
Proof.
  unfold handleTaskError. destruct (taskQueue l !! i) as [task|]; [|apply same_sessions_refl].
  destruct (_ <=? _); [split; [done|apply keeps_turns_refl]|].
  destruct (truthy _); [|split; [done|apply keeps_turns_refl]]. simpl.
  destruct (activeSessions l !! _); [|split; [done|apply keeps_turns_refl]].
  split; [done|]. simpl. apply keeps_turns_push.
Qed.

Lemma executeTask_sessions o i l : same_sessions l (executeTask o i l).2.
Proof.
  unfold executeTask. destruct (taskQueue l !! i) as [task|] eqn:Hi; simpl;
    [|apply same_sessions_refl].
  destruct (type task); [| |apply same_sessions_refl].
  - unfold executeChatTask. rewrite Hi. destruct (d_session _); [|apply same_sessions_refl].
    split; [done|]. simpl. apply keeps_turns_push.
  - unfold executeFileGeneration. rewrite Hi. cbv zeta.
    destruct (success (o_result o)), (files (o_result o)), (d_session (data task));
      try apply same_sessions_refl.
    destruct (truthy_opt (r_projectId (o_result o)) && truthy_opt (r_previewUrl (o_result o)));
      (split; [done|]); simpl.
    + eapply keeps_turns_trans; [|apply keeps_turns_push].
      eapply keeps_turns_trans; by apply keeps_turns_update.
    + eapply keeps_turns_trans; [|apply keeps_turns_push]. by apply keeps_turns_update.
Qed.

Lemma process_task_sessions o i l : same_sessions l (process_task o i l).
Proof.
  unfold process_task.
  set (l1 := set_taskQueue _ l).
  pose proof (executeTask_sessions o i l1) as H.
  destruct (executeTask o i l1) as [ok l2]. simpl in H.
  assert (H1 : same_sessions l l2) by (destruct H; by split).
  destruct ok; [by destruct H1|].
  eapply same_sessions_trans; [done|apply handleTaskError_sessions].
Qed.

(** Every registered id names a session object with a turn. *)
Definition sessions_live (l : Loop) : Prop :=
  ∀ uid r, activeSessions l !! uid = Some r →
    ∃ s, heap l !! r = Some s ∧ conversationHistory s ≠ [].

(** The user of a task has a registered session, the one the task was
    created with when the task names one. *)
Definition task_owned (l : Loop) (t : LoopTask) : Prop :=
  ∃ r, activeSessions l !! d_userId (data t) = Some r ∧
       ∀ r', d_session (data t) = Some r' → r' = r.

Definition owned_ok (l : Loop) : Prop :=
  sessions_live l ∧ Forall (task_owned l) (taskQueue l).

Lemma sessions_live_same l l' : same_sessions l l' → sessions_live l → sessions_live l'.
Proof.
  intros [Ha Hh] Hlive uid r Hr. rewrite Ha in Hr.
  destruct (Hlive _ _ Hr) as (s & Hs & Hne). destruct (Hh _ _ Hs) as (s' & Hs' & Hne').
  exists s'. auto.
Qed.

Lemma task_owned_same l l' t : activeSessions l' = activeSessions l → task_owned l t → task_owned l' t.
Proof. intros Ha (r & Hr & Hd). exists r. by rewrite Ha. Qed.

Lemma process_task_owned o i l : pending_at l i → owned_ok l → owned_ok (process_task o i l).
Proof.
  unfold pending_at. intros Hp [Hlive Hown].
  destruct (taskQueue l !! i) as [task|] eqn:Hi; [|done].
  pose proof (process_task_sessions o i l) as Hsame.
  destruct (process_task_queue o i l task Hi) as (t' & extra & Hq & Hextra & Ht').
  split; [by eapply sessions_live_same|].
  assert (Htask : task_owned l task) by (rewrite Forall_lookup in Hown; by eapply Hown).
  rewrite Hq. apply Forall_app. split.
  - apply Forall_insert.
    + eapply Forall_impl; [done|]. intros t. apply task_owned_same. by destruct Hsame.
    + apply (task_owned_same l); [by destruct Hsame|].
      by destruct Ht' as [->|[[-> _]|[-> _]]].
  - eapply Forall_impl; [done|]. intros t (_ & Hu & Hd).
    apply (task_owned_same l); [by destruct Hsame|].
    destruct Htask as (r & Hr & _). exists r. rewrite Hu, Hd. by split.
Qed.

Lemma process_tasks_fold_inv (P : Loop → Prop) o (ixs : list nat) l :
  (∀ o i l, pending_at l i → P l → P (process_task o i l)) →
  NoDup ixs → Forall (pending_at l) ixs → P l →
  P (fold_left (λ l i, process_task (o i) i l) ixs l).
Proof.
  intros HP. revert l. induction ixs as [|i ixs IH]; intros l Hnd Hp Hl; simpl; [done|].
  apply NoDup_cons in Hnd as [Hni Hnd]. apply Forall_cons in Hp as [Hpi Hp].
  apply IH; [done| |by apply HP].
  destruct (process_task_kept (o i) i l Hpi) as [_ Hpend].
  rewrite Forall_forall in Hp |- *. intros j Hj. apply Hpend; [|by apply Hp].
  intros ->. done.
Qed.

Lemma processPendingTasks_owned o l : owned_ok l → owned_ok (processPendingTasks o l).
Proof.
  intros Hown. destruct (pendingTasks_pending l) as [Hnd Hp].
  unfold processPendingTasks.
  apply (process_tasks_fold_inv owned_ok); [apply process_task_owned| |by apply Forall_take|done].
  eapply sublist_NoDup; [done|]. apply sublist_take.
Qed.

(** A session with a turn is never found inactive, so a registry of such
    sessions is left as it is. *)
Lemma maintainActiveSessions_live now l : sessions_live l → maintainActiveSessions now l = l.
Proof.
  intros Hlive. unfold maintainActiveSessions.
  rewrite map_filter_id; [by destruct l|].
  intros uid r Hr. simpl. destruct (Hlive _ _ Hr) as (s & -> & Hne). simpl.
  unfold inactive. rewrite bool_decide_eq_true_2.
  - apply Z.ltb_ge. lia.
  - destruct (conversationHistory s); [done|simpl; lia].
Qed.

Lemma cleanupCompletedTasks_owned l : owned_ok l → owned_ok (cleanupCompletedTasks l).
Proof.
  intros [Hlive Hown]. unfold cleanupCompletedTasks. destruct (100 <? _); [|done].
  split; [done|]. simpl. rewrite !Forall_forall in *. intros t Ht.
  apply list_elem_of_In, filter_In in Ht as [Ht _]. apply list_elem_of_In in Ht.
  destruct (Hown t Ht) as (r & Hr & Hd). by exists r.
Qed.

Lemma handleChatMessage_owned now response userId message l :
  owned_ok l → owned_ok (handleChatMessage now response userId message l).2.
Proof.
  intros [Hlive Hown]. unfold handleChatMessage.
  destruct (activeSessions l !! userId) as [r|] eqn:Hu.
  - assert (Hsame : ∀ q h, keeps_turns (heap l) h →
              Forall (task_owned l) q →
              owned_ok {| taskQueue := q; heap := h; activeSessions := activeSessions l;
                          slept := slept l |}).
    { intros q h Hk Hq. split.
      - apply (sessions_live_same l); [by split|done].
      - eapply Forall_impl; [done|]. intros t. by apply task_owned_same. }
    assert (Hnew : ∀ t, d_userId (data t) = userId → d_session (data t) = Some r →
              Forall (task_owned l) (taskQueue l ++ [t])).
    { intros t Hd Hs. apply Forall_app. split; [done|]. apply Forall_singleton.
      exists r. rewrite Hd, Hs. split; [done|]. by intros r' [= <-]. }
    destruct (isAppGenerationRequest message); simpl; apply Hsame.
    + apply keeps_turns_push.
    + by apply Hnew.
    + eapply keeps_turns_trans; apply keeps_turns_push.
    + by apply Hnew.
  - set (r := length (heap l)).
    assert (Hold : ∀ t, task_owned l t →
              ∃ r0, <[userId := r]> (activeSessions l) !! d_userId (data t) = Some r0 ∧
                    ∀ r', d_session (data t) = Some r' → r' = r0).
    { intros t (r0 & Hr0 & Hd). exists r0. split; [|done].
      rewrite lookup_insert_ne; [done|]. intros Heq. rewrite <- Heq in Hr0. congruence. }
    assert (Hgen : ∀ q h,
              (∀ r0 s, heap l !! r0 = Some s → h !! r0 = Some s) →
              (∃ s, h !! r = Some s ∧ conversationHistory s ≠ []) →
              Forall (λ t, ∃ r0, <[userId := r]> (activeSessions l) !! d_userId (data t) = Some r0 ∧
                                 ∀ r', d_session (data t) = Some r' → r' = r0) q →
              owned_ok {| taskQueue := q; heap := h;
                          activeSessions := <[userId := r]> (activeSessions l);
                          slept := slept l |}).
    { intros q h Hkeep Hr Hq. split; [|done].
      intros uid r0 Hr0. simpl in *. destruct (decide (uid = userId)) as [->|Hne].
      - rewrite lookup_insert_eq in Hr0. by injection Hr0 as <-.
      - rewrite lookup_insert_ne in Hr0 by done.
        destruct (Hlive _ _ Hr0) as (s & Hs & Hne'). exists s. split; [by apply Hkeep|done]. }
    assert (Hq : ∀ t, d_userId (data t) = userId → d_session (data t) = Some r →
              Forall (λ t, ∃ r0, <[userId := r]> (activeSessions l) !! d_userId (data t) = Some r0 ∧
                                 ∀ r', d_session (data t) = Some r' → r' = r0)
                (taskQueue l ++ [t])).
    { intros t Hd Hs. apply Forall_app. split.
      - eapply Forall_impl; [done|]. apply Hold.
      - apply Forall_singleton. cbn beta. exists r. rewrite Hd, Hs, lookup_insert_eq.
        split; [done|]. by intros r' [= <-]. }
    assert (Hkeep1 : ∀ f r0 s, heap l !! r0 = Some s →
              update r f (heap l ++ [ {| userId := userId; projectId := None;
                                         conversationHistory := []; activeFiles := ∅;
                                         isGenerating := false |} ]) !! r0 = Some s).
    { intros f r0 s Hs. rewrite update_ne.
      - by apply lookup_app_l_Some.
      - apply lookup_lt_Some in Hs. unfold r. lia. }
    destruct (isAppGenerationRequest message); simpl; apply Hgen.
    + apply Hkeep1.
    + eexists. split; [apply update_Some; by apply list_lookup_middle|].
      apply push_turn_nonempty.
    + by apply Hq.
    + intros r0 s Hs. rewrite update_ne; [by apply Hkeep1|].
      apply lookup_lt_Some in Hs. unfold r. lia.
    + eexists. split; [|apply push_turn_nonempty].
      apply update_Some, update_Some. by apply list_lookup_middle.
    + by apply Hq.
Qed.

Lemma step_owned l e : owned_ok l → owned_ok (step l e).
Proof.
  intros Hown. destruct e as [now response userId message|o now]; simpl.
  - by apply handleChatMessage_owned.
  - pose proof (processPendingTasks_owned o l Hown) as H.
    rewrite maintainActiveSessions_live by (by destruct H).
    by apply cleanupCompletedTasks_owned.
Qed.

Lemma run_events_owned es l : owned_ok l → owned_ok (run_events es l).
Proof.
  revert l. induction es as [|e es IH]; intros l Hown; [done|].
  simpl. by apply IH, step_owned.
Qed.

Lemma owned_empty : owned_ok empty.
Proof. split; [|constructor]. intros uid r H. simpl in H. by rewrite lookup_empty in H. Qed.

(** In a state the loop reaches, a queued task with a non-empty user id
    has a session to report to, the one it was created with. *)
Lemma reachable_notified es t :
  t ∈ taskQueue (run_events es empty) → truthy (d_userId (data t)) = true →
  ∃ r session, notified (run_events es empty) t = Some (r, session) ∧
               ∀ r', d_session (data t) = Some r' → r' = r.
Proof.
  intros Ht Hu. destruct (run_events_owned es empty owned_empty) as [Hlive Hown].
  rewrite Forall_forall in Hown. destruct (Hown _ Ht) as (r & Hr & Hd).
  destruct (Hlive _ _ Hr) as (s & Hs & _). exists r, s. split; [|done].
  unfold notified. rewrite Hu, Hr. simpl. by rewrite Hs.
Qed.

(** *** Statements of the specification *)

Definition failing : AIGenerationResponse :=
  {| success := false; message := "Failed to generate project"; files := None;
     r_previewUrl := None; r_projectId := None; error := Some "Unknown error" |}.

Definition always_failing (now : Z) : nat → Oracle :=
  λ _, {| o_now := now; o_result := failing; o_response := "" |}.

(** A generation that keeps failing is retried after 1, 2 and 4 seconds
    before it is given up. *)
Example failing_generation_delays :
  slept (run_events [ Message 1 "" "u1" "build me a todo app";
                      Tick (always_failing 2) 2; Tick (always_failing 3) 3;
                      Tick (always_failing 4) 4; Tick (always_failing 5) 5 ] empty)
  = [1000; 2000; 4000]%Z.
Proof. by vm_compute. Qed.

(** C3. The delay looked up after the n-th failure is 1000, 2000, 4000,
    8000, 16000 ms for n = 1..5 and 16000 ms for every n beyond, that is
    [retryDelays[min(n - 1, length - 1)]]; and when the task is re-queued
    (the incremented [retries] is within [maxRetries]) the handler waits
    exactly that delay before the task is pending again. *)
Theorem retry_delay_sequence :
  retryDelay 1 = Some 1000%Z ∧ retryDelay 2 = Some 2000%Z ∧
  retryDelay 3 = Some 4000%Z ∧ retryDelay 4 = Some 8000%Z ∧
  retryDelay 5 = Some 16000%Z ∧
  (∀ n, 5 < n → retryDelay n = Some 16000%Z) ∧
  (∀ n, 1 ≤ n → retryDelay n = Some (1000 * 2 ^ Z.of_nat (Nat.min (n - 1) 4))%Z) ∧
  (∀ l i task, taskQueue l !! i = Some task → S (retries task) ≤ maxRetries task →
     ∃ delay, retryDelay (S (retries task)) = Some delay ∧
              slept (handleTaskError i l) = slept l ++ [delay] ∧
              (status <$> taskQueue (handleTaskError i l) !! i) = Some pending).
Proof.
  assert (Hform : ∀ n, 1 ≤ n →
            retryDelay n = Some (1000 * 2 ^ Z.of_nat (Nat.min (n - 1) 4))%Z).
  { intros n Hn. destruct (decide (5 ≤ n)) as [H5|H5].
    - rewrite retryDelay_last by done. by replace (Nat.min (n - 1) 4) with 4 by lia.
    - destruct n as [|[|[|[|[|n]]]]]; try reflexivity; lia. }
  repeat (split; [reflexivity|]). split; [|split; [done|]].
  - intros n Hn. apply retryDelay_last. lia.
  - intros l i task Hi Hle. rewrite (handleTaskError_retry _ _ _ Hi Hle).
    rewrite (Hform (S (retries task))) by lia. eexists. split; [done|]. simpl.
    split; [done|]. rewrite list_lookup_insert_eq; [done|]. by eapply lookup_lt_Some.
Qed.

(** C7 (as amended). A message is classified as a generation request
    exactly when its lower-cased text contains one of the twenty keywords
    and the lower-cased text is longer than 10 UTF-16 code units. Lower-casing
    lengthens a text by one code unit for each U+0130 and by nothing else,
    so a message without U+0130 of at most 10 code units is plain chat,
    whatever it contains: ["build it"] (8 code units, contains ["build"])
    is. On a message of Basic Latin characters the test is the one on the
    bytes: a keyword occurs in the lower-cased message and the message is
    longer than 10 characters. Each keyword makes a request on its own, and
    [handleChatMessage] queues a generation task for a request and a chat
    task for any other message. *)
Theorem generation_request_classification (message : string) :
  let keywords :=
    [ "create"; "build"; "make"; "generate"; "develop"; "app"; "application";
      "website"; "calculator"; "todo"; "game"; "dashboard"; "api"; "server";
      "component"; "react"; "python"; "javascript"; "typescript"; "html" ] in
  let lowerMessage := toLowerCaseText (codePoints message) in
  (isAppGenerationRequest message = true ↔
     (∃ keyword, keyword ∈ keywords ∧
                 ∃ pre post, lowerMessage = pre ++ codePoints keyword ++ post) ∧
     10 < unitLength lowerMessage) ∧
  unitLength lowerMessage =
    unitLength (codePoints message) +
    length (List.filter (λ point, (point =? 304)%N) (codePoints message)) ∧
  (304%N ∉ codePoints message → unitLength (codePoints message) ≤ 10 →
   isAppGenerationRequest message = false) ∧
  (isBasicLatin message = true →
   unitLength (codePoints message) = String.length message ∧
   isAppGenerationRequest message =
     existsb (λ keyword, includes keyword (toLowerCase message)) keywords &&
     (10 <? String.length message)) ∧
  (Contains "build" "build it" ∧ unitLength (codePoints "build it") = 8 ∧
   isAppGenerationRequest "build it" = false) ∧
  Forall (λ keyword, isAppGenerationRequest ("please " +:+ keyword +:+ " now") = true ∧
                     isAppGenerationRequest ("please " +:+ keyword) =
                       (10 <? 7 + String.length keyword))
    keywords ∧
  isAppGenerationRequest "what is the weather today" = false ∧
  (∀ now response userId l,
     ∃ t, taskQueue (handleChatMessage now response userId message l).2 = taskQueue l ++ [t] ∧
          type t = if isAppGenerationRequest message then file_generation else chat).
Proof.
  cbv zeta.
  assert (Hiff : isAppGenerationRequest message = true ↔
     (∃ keyword, keyword ∈ appKeywords ∧
                 ∃ pre post, toLowerCaseText (codePoints message) =
                             pre ++ codePoints keyword ++ post) ∧
     10 < unitLength (toLowerCaseText (codePoints message))).
  { unfold isAppGenerationRequest. cbv zeta.
    rewrite andb_true_iff, existsb_exists, Nat.ltb_lt. split.
    - intros [(k & Hk & Hc) Hlen]. split; [|done]. exists k.
      split; [by apply list_elem_of_In|by apply includesText_spec].
    - intros [(k & Hk & Hc) Hlen]. split; [|done]. exists k.
      split; [by apply list_elem_of_In|by apply includesText_spec]. }
  split; [exact Hiff|]. split; [apply toLowerCaseText_length|].
  split; [|split; [|split; [|split; [|split]]]].
  - intros Hno Hlen. apply not_true_is_false. intros E. apply Hiff in E as [_ E].
    rewrite toLowerCaseText_length in E.
    assert (Hnil : List.filter (λ point, (point =? 304)%N) (codePoints message) = []).
    { destruct (List.filter _ _) as [|p ps] eqn:Ef; [done|].
      assert (Hin : In p (List.filter (λ point, (point =? 304)%N) (codePoints message)))
        by (rewrite Ef; by left).
      apply filter_In in Hin as [Hin Hp]. apply N.eqb_eq in Hp. subst p.
      by apply list_elem_of_In in Hin. }
    rewrite Hnil in E. simpl in E. lia.
  - intros Hbasic. rewrite (codePoints_basic _ Hbasic), unitLength_bytes. split; [done|].
    unfold isAppGenerationRequest. cbv zeta.
    rewrite (codePoints_basic _ Hbasic), (toLowerCaseText_basic _ Hbasic), unitLength_bytes.
    rewrite toLowerCase_length. f_equal.
    unfold appKeywords. cbn [existsb].
    repeat match goal with
           | |- context [includesText (codePoints ?k) (bytes ?h)] =>
               change (codePoints k) with (bytes k); rewrite (includesText_bytes k h)
           end.
    done.
  - split; [by exists "", " it"|by vm_compute].
  - apply (bool_decide_unpack _). by vm_compute.
  - by vm_compute.
  - intros now response userId l.
    destruct (handleChatMessage_queue now response userId message l)
      as (t & Hq & _ & _ & Ht & _).
    by exists t.
Qed.

(** C7, as stated, fails beyond Basic Latin, where the length the code
    tests is not the number of characters of the message. A message of 10
    code units that holds U+0130 and a keyword is a generation request,
    its lower-cased text having 11; and so is a message of 8 characters
    that holds three characters beyond the Basic Multilingual Plane, which
    count twice. *)
Lemma short_message_classified_as_generation :
  (unitLength (codePoints "İ app 1234") = 10 ∧
   unitLength (toLowerCaseText (codePoints "İ app 1234")) = 11 ∧
   isAppGenerationRequest "İ app 1234" = true) ∧
  (length (codePoints "make 😀😀😀") = 8 ∧
   unitLength (codePoints "make 😀😀😀") = 11 ∧
   isAppGenerationRequest "make 😀😀😀" = true).
Proof. by vm_compute. Qed.

Definition generated (entries : list (string * GeneratedFile)) : AIGenerationResponse :=
  {| success := true; message := "Complete html project generated successfully!";
     files := Some entries; r_previewUrl := Some "http://localhost:3001";
     r_projectId := Some "p1"; error := None |}.

Definition answering (now : Z) (result : AIGenerationResponse) : nat → Oracle :=
  λ _, {| o_now := now; o_result := result; o_response := "" |}.

Definition html_file (text : string) : GeneratedFile :=
  {| g_content := text; g_language := "html"; g_path := "index.html" |}.

(** Two generations for one user: the second overwrites [index.html] and
    adds [app.css]. *)
Example two_generations_merge :
  let l :=
    run_events
      [ Message 1 "" "u1" "build me a todo app";
        Tick (answering 2 (generated [("index.html", html_file "x")])) 2;
        Message 3 "" "u1" "make the app blue please";
        Tick (answering 4 (generated [ ("index.html", html_file "z");
                                       ("app.css", html_file "y") ])) 4 ] empty in
  (activeFiles <$> heap l) =
    [ {[ "index.html" := {| content := "z"; language := "html" |};
         "app.css" := {| content := "y"; language := "html" |} ]} ].
Proof. cbv zeta. by vm_compute. Qed.

Lemma find_snoc {A} (f : A → bool) (q : list A) (t : A) :
  List.find f (q ++ [t]) =
    match List.find f q with
    | Some x => Some x
    | None => if f t then Some t else None
    end.
Proof.
  induction q as [|x q IH]; simpl; [by destruct (f t)|]. by destruct (f x).
Qed.

(** The entry of a name after a merge: the last file generated under the
    name, or the old entry when none was. *)
Lemma merge_files_lookup entries (m : gmap string FileEntry) k :
  merge_files entries m !! k =
    match List.find (λ e, String.eqb e.1 k) (reverse entries) with
    | Some e => Some {| content := g_content e.2; language := g_language e.2 |}
    | None => m !! k
    end.
Proof.
  revert m. induction entries as [|[k' f] entries IH]; intros m; [done|].
  rewrite merge_files_cons, IH, reverse_cons, find_snoc.
  destruct (List.find _ (reverse entries)); [done|]. cbn [fst snd].
  destruct (String.eqb_spec k' k) as [->|Hne].
  - by rewrite lookup_insert_eq.
  - by rewrite lookup_insert_ne.
Qed.

(** C9. Merging into a session's files only adds or overwrites, and what
    it stores under a name is the content and the language of the file
    generated under it: [{a: x}] then [{b: y}] on no files gives exactly
    [{a: x, b: y}]; [{a: z}] after [{a: x}] gives [{a: z}] alone, one entry
    and not two, holding [z] and not [x]; a name that a merge does not
    mention keeps its file, every name present before is present after,
    and a name the merge mentions ends with the last file given for it.
    [executeFileGeneration] applies this merge to the session of its task
    and touches the files of no other session. *)
Theorem files_merge_overwrites :
  let stored (f : GeneratedFile) : FileEntry :=
    {| content := g_content f; language := g_language f |} in
  (∀ a b x y, a ≠ b →
     merge_files [(b, y)] (merge_files [(a, x)] ∅) = {[ a := stored x; b := stored y ]} ∧
     size (merge_files [(b, y)] (merge_files [(a, x)] ∅)) = 2) ∧
  (∀ a x z m,
     merge_files [(a, z)] (merge_files [(a, x)] m) = <[a := stored z]> m ∧
     merge_files [(a, z)] (merge_files [(a, x)] ∅) = {[ a := stored z ]} ∧
     size (merge_files [(a, z)] (merge_files [(a, x)] ∅)) = 1 ∧
     (content <$> merge_files [(a, z)] (merge_files [(a, x)] m) !! a) = Some (g_content z) ∧
     (language <$> merge_files [(a, z)] (merge_files [(a, x)] m) !! a) =
       Some (g_language z)) ∧
  (∀ entries m k, k ∉ entries.*1 → merge_files entries m !! k = m !! k) ∧
  (∀ entries m, dom m ⊆ dom (merge_files entries m)) ∧
  (∀ entries m k,
     merge_files entries m !! k =
       match List.find (λ e, String.eqb e.1 k) (reverse entries) with
       | Some e => Some (stored e.2)
       | None => m !! k
       end) ∧
  (∀ entries m,
     merge_files entries m =
       list_to_map (reverse ((λ e, (e.1, stored e.2)) <$> entries)) ∪ m) ∧
  (∀ o i l task entries r session,
     taskQueue l !! i = Some task →
     success (o_result o) = true → files (o_result o) = Some entries →
     d_session (data task) = Some r → heap l !! r = Some session →
     let l' := (executeFileGeneration o i l).2 in
     (activeFiles <$> heap l' !! r) = Some (merge_files entries (activeFiles session)) ∧
     (∀ r', r' ≠ r → heap l' !! r' = heap l !! r')).
Proof.
  cbv zeta. split; [|split; [|split; [|split; [|split; [|split]]]]].
  - intros a b x y Hne. unfold merge_files, entry_of; simpl. rewrite insert_empty.
    split; [by apply insert_insert_ne|].
    rewrite map_size_insert_None, map_size_singleton; [done|].
    by rewrite lookup_singleton_ne.
  - intros a x z m. unfold merge_files, entry_of; simpl. rewrite !insert_insert_eq.
    split; [done|]. rewrite insert_empty. split; [done|].
    split; [apply map_size_singleton|]. by rewrite lookup_insert_eq.
  - apply merge_files_other.
  - intros entries m. rewrite merge_files_dom. apply union_subseteq_l.
  - apply merge_files_lookup.
  - apply merge_files_union.
  - intros o i l task entries r session Hi Hs Hf Hd Hr.
    by destruct (executeFileGeneration_merge o i l task entries r session Hi Hs Hf Hd Hr)
      as (_ & ? & ?).
Qed.


(** *** Selection of the tasks of a round *)

Definition priority_at (l : Loop) (i : nat) : nat :=
  from_option (getPriorityValue ∘ priority) 2 (taskQueue l !! i).

(** The pending positions in queue order. *)
Definition pending_positions (l : Loop) : list nat :=
  List.filter (λ i, bool_decide (status <$> taskQueue l !! i = Some pending))
    (seq 0 (length (taskQueue l))).

Definition sorted_by {A} (key : A → nat) (l : list A) : Prop :=
  StronglySorted (λ a b, key a ≤ key b) l.

Lemma insert_by_sorted {A} (key : A → nat) x (l : list A) :
  sorted_by key l → sorted_by key (insert_by key x l).
Proof.
  unfold sorted_by. induction l as [|y l IH]; intros Hs; simpl.
  - constructor; constructor.
  - apply StronglySorted_inv in Hs as [Hs Hy].
    destruct (key y <=? key x) eqn:E.
    + apply Nat.leb_le in E. constructor; [by apply IH|].
      rewrite Forall_forall. intros z Hz.
      rewrite insert_by_perm in Hz. apply elem_of_cons in Hz as [->|Hz]; [done|].
      rewrite Forall_forall in Hy. by apply Hy.
    + apply Nat.leb_gt in E. constructor; [by constructor|].
      constructor; [lia|]. eapply Forall_impl; [exact Hy|]. simpl. intros z Hz. lia.
Qed.

Lemma filter_all_false {A} (f : A → bool) (l : list A) :
  (∀ z, z ∈ l → f z = false) → List.filter f l = [].
Proof.
  induction l as [|y l IH]; intros H; [done|]. simpl.
  rewrite (H y) by left. apply IH. intros z Hz. apply H. by right.
Qed.

(** Among equal keys a new element goes last. *)
Lemma insert_by_filter {A} (key : A → nat) k x (l : list A) :
  sorted_by key l →
  List.filter (λ a, Nat.eqb (key a) k) (insert_by key x l) =
  List.filter (λ a, Nat.eqb (key a) k) l ++ (if Nat.eqb (key x) k then [x] else []).
Proof.
  unfold sorted_by. induction l as [|y l IH]; intros Hs; simpl.
  - by destruct (Nat.eqb (key x) k).
  - apply StronglySorted_inv in Hs as [Hs Hy].
    destruct (key y <=? key x) eqn:E; simpl.
    + rewrite IH by done. by destruct (Nat.eqb (key y) k).
    + apply Nat.leb_gt in E.
      destruct (Nat.eqb_spec (key x) k) as [Hx|Hx].
      * assert (Hnone : List.filter (λ a, Nat.eqb (key a) k) (y :: l) = []).
        { apply filter_all_false. intros z Hz. apply Nat.eqb_neq.
          apply elem_of_cons in Hz as [->|Hz]; [lia|].
          rewrite Forall_forall in Hy. specialize (Hy _ Hz). lia. }
        simpl in Hnone. by rewrite Hnone.
      * by rewrite app_nil_r.
Qed.

Lemma sort_by_spec {A} (key : A → nat) (l : list A) :
  sorted_by key (sort_by key l) ∧
  ∀ k, List.filter (λ a, Nat.eqb (key a) k) (sort_by key l) =
       List.filter (λ a, Nat.eqb (key a) k) l.
Proof.
  unfold sort_by.
  assert (H : ∀ acc, sorted_by key acc →
            sorted_by key (fold_left (λ acc x, insert_by key x acc) l acc) ∧
            ∀ k, List.filter (λ a, Nat.eqb (key a) k)
                   (fold_left (λ acc x, insert_by key x acc) l acc) =
                 List.filter (λ a, Nat.eqb (key a) k) acc ++
                 List.filter (λ a, Nat.eqb (key a) k) l).
  { induction l as [|x l IH]; intros acc Hacc; simpl.
    - split; [done|]. intros k. by rewrite app_nil_r.
    - destruct (IH (insert_by key x acc)) as [Hs Hf]; [by apply insert_by_sorted|].
      split; [done|]. intros k. rewrite Hf, insert_by_filter by done.
      rewrite <- app_assoc. by destruct (Nat.eqb (key x) k). }
  destruct (H []) as [Hs Hf]; [constructor|]. split; [done|]. intros k. by rewrite Hf.
Qed.

Lemma process_task_other o i l j t :
  is_Some (taskQueue l !! i) → j ≠ i →
  taskQueue l !! j = Some t → taskQueue (process_task o i l) !! j = Some t.
Proof.
  intros [task Hi] Hne Hj.
  destruct (process_task_queue o i l task Hi) as (t' & extra & Hq & _ & _).
  rewrite Hq. apply lookup_app_l_Some. by rewrite list_lookup_insert_ne.
Qed.

Lemma process_tasks_other o (ixs : list nat) l j t :
  NoDup ixs → Forall (pending_at l) ixs → j ∉ ixs →
  taskQueue l !! j = Some t →
  taskQueue (fold_left (λ l i, process_task (o i) i l) ixs l) !! j = Some t.
Proof.
  revert l. induction ixs as [|i ixs IH]; intros l Hnd Hp Hj Ht; [done|].
  simpl. apply NoDup_cons in Hnd as [Hni Hnd]. apply Forall_cons in Hp as [Hpi Hp].
  apply not_elem_of_cons in Hj as [Hne Hj].
  destruct (process_task_kept (o i) i l Hpi) as [_ Hpend].
  apply IH; [done| |done|].
  - rewrite Forall_forall in Hp |- *. intros k Hk. apply Hpend; [|by apply Hp].
    intros ->. done.
  - apply process_task_other; [|done..]. unfold pending_at in Hpi.
    by destruct (taskQueue l !! i).
Qed.

(** X9. A round selects among the pending positions only, each at most
    once, ordered by priority value (high, then medium, then low) with the
    positions of one priority in queue order; it runs the first three of
    them at most, and every task outside these keeps its place and its
    fields through the round. *)
Theorem round_selection (o : nat → Oracle) (l : Loop) :
  (∀ i, i ∈ pendingTasks l ↔ pending_at l i) ∧
  NoDup (pendingTasks l) ∧
  sorted_by (priority_at l) (pendingTasks l) ∧
  (∀ k, List.filter (λ i, Nat.eqb (priority_at l i) k) (pendingTasks l) =
        List.filter (λ i, Nat.eqb (priority_at l i) k) (pending_positions l)) ∧
  length (take 3 (pendingTasks l)) ≤ 3 ∧
  (∀ j t, j ∉ take 3 (pendingTasks l) → taskQueue l !! j = Some t →
          taskQueue (processPendingTasks o l) !! j = Some t).
Proof.
  destruct (pendingTasks_pending l) as [Hnd Hp].
  destruct (sort_by_spec (priority_at l) (pending_positions l)) as [Hs Hf].
  split; [|split; [done|split; [exact Hs|split; [exact Hf|split]]]].
  - intros i. unfold pendingTasks. rewrite sort_by_perm.
    rewrite list_elem_of_In, filter_In, in_seq, bool_decide_eq_true. unfold pending_at.
    split; [by intros [_ ?]|]. intros H. split; [|done].
    destruct (taskQueue l !! i) eqn:E; [|done]. apply lookup_lt_Some in E. lia.
  - rewrite length_take. lia.
  - intros j t Hj Ht. unfold processPendingTasks.
    apply process_tasks_other; [|by apply Forall_take|done..].
    eapply sublist_NoDup; [done|]. apply sublist_take.
Qed.

(** *** What a round leaves behind *)

Definition settled (t : LoopTask) : Prop := status t ≠ processing.

Lemma process_task_settled o i l :
  pending_at l i → Forall settled (taskQueue l) → Forall settled (taskQueue (process_task o i l)).
Proof.
  unfold pending_at. intros Hp Hall.
  destruct (taskQueue l !! i) as [task|] eqn:Hi; [|done].
  destruct (process_task_queue o i l task Hi) as (t' & extra & Hq & Hextra & Ht').
  rewrite Hq. apply Forall_app. split.
  - apply Forall_insert; [done|].
    by destruct Ht' as [->|[[-> _]|[-> _]]].
  - eapply Forall_impl; [done|]. intros t [[Hs _] _]. unfold settled. by rewrite Hs.
Qed.

Lemma step_settled l e : Forall settled (taskQueue l) → Forall settled (taskQueue (step l e)).
Proof.
  intros Hall. destruct e as [now response userId message|o now]; simpl.
  - destruct (handleChatMessage_queue now response userId message l) as (t & -> & [Hs _] & _).
    apply Forall_app. split; [done|]. apply Forall_singleton. unfold settled. by rewrite Hs.
  - assert (H : Forall settled (taskQueue (processPendingTasks o l))).
    { destruct (pendingTasks_pending l) as [Hnd Hp]. unfold processPendingTasks.
      apply (process_tasks_fold_inv (λ l, Forall settled (taskQueue l)));
        [intros; by apply process_task_settled| |by apply Forall_take|done].
      eapply sublist_NoDup; [done|]. apply sublist_take. }
    unfold cleanupCompletedTasks. simpl. destruct (100 <? _); [|done]. simpl.
    rewrite Forall_forall in H |- *. intros t Ht. apply H.
    apply list_elem_of_In, filter_In in Ht as [Ht _]. by apply list_elem_of_In.
Qed.

Lemma count_active_pending q :
  Forall settled q →
  length (List.filter (λ t, bool_decide (status t = pending) || bool_decide (status t = processing)) q)
  = length (List.filter (λ t, bool_decide (status t = pending)) q).
Proof.
  induction 1 as [|t q Ht _ IH]; [done|]. simpl.
  rewrite (bool_decide_eq_false_2 (status t = processing)) by done.
  rewrite orb_false_r. destruct (bool_decide (status t = pending)); simpl; by rewrite IH.
Qed.

(** X10. A round leaves no task in [processing]: in every state reached
    by messages and completed rounds each task is pending, completed or
    failed, so between rounds [getActiveTasksCount], which the health
    endpoint reports, is the number of pending tasks. *)
Theorem no_task_left_processing (es : list Event) :
  Forall (λ t, status t ≠ processing) (taskQueue (run_events es empty)) ∧
  getActiveTasksCount (run_events es empty) =
    length (List.filter (λ t, bool_decide (status t = pending))
              (taskQueue (run_events es empty))).
Proof.
  assert (H : ∀ es l, Forall settled (taskQueue l) → Forall settled (taskQueue (run_events es l))).
  { clear. induction es as [|e es IH]; intros l Hl; [done|]. simpl. by apply IH, step_settled. }
  assert (Hs : Forall settled (taskQueue (run_events es empty))) by (apply H; constructor).
  split; [exact Hs|]. by apply count_active_pending.
Qed.

(** *** Which tasks can fail *)

#[global] Instance TaskType_eq_dec : EqDecision TaskType.
Proof. solve_decision. Defined.

(** A chat task names its session; a generation task may be retried three
    times, the others twice; a failed task is a generation task that has
    just passed its limit. *)
Definition well_typed (t : LoopTask) : Prop :=
  (type t = chat → is_Some (d_session (data t))) ∧
  maxRetries t = (if bool_decide (type t = file_generation) then 3 else 2) ∧
  (status t = failed → type t = file_generation ∧ retries t = S (maxRetries t)).

Lemma process_task_well_typed o i l :
  pending_at l i → budget_ok l → Forall well_typed (taskQueue l) →
  Forall well_typed (taskQueue (process_task o i l)).
Proof.
  unfold pending_at. intros Hp Hb Hall.
  destruct (taskQueue l !! i) as [task|] eqn:Hi; [|done]. injection Hp as Hp.
  assert (Htask : well_typed task) by (rewrite Forall_lookup in Hall; by eapply Hall).
  assert (Hbud : retries task ≤ maxRetries task).
  { unfold budget_ok in Hb. rewrite Forall_lookup in Hb. apply (Hb _ _ Hi). by rewrite Hp. }
  destruct Htask as (Hchat & Hmax & _).
  assert (Hspawned : ∀ extra, Forall (spawned_for (d_userId (data task))) extra →
            (∀ t, t ∈ extra → type t = preview_update ∧ maxRetries t = 2) →
            Forall well_typed extra).
  { intros extra Hex Hty. rewrite Forall_forall in Hex |- *. intros t Ht.
    destruct (Hex _ Ht) as ([Hs _] & _). destruct (Hty _ Ht) as [Hty1 Hty2].
    split; [by rewrite Hty1|]. split; [by rewrite Hty1, Hty2|]. by rewrite Hs. }
  (* the shape of the queue after the run, by task type *)
  unfold process_task.
  remember (set_taskQueue _ l) as l1 eqn:Hl1.
  assert (Hq1 : taskQueue l1 = <[i := set_status processing task]> (taskQueue l))
    by (subst l1; simpl; by apply update_lookup).
  assert (Hi1 : taskQueue l1 !! i = Some (set_status processing task)).
  { rewrite Hq1. apply list_lookup_insert_eq. by eapply lookup_lt_Some. }
  assert (Hlt : i < length (<[i := set_status processing task]> (taskQueue l))).
  { rewrite length_insert. by eapply lookup_lt_Some. }
  assert (Hdone : ∀ l2 extra, taskQueue l2 = taskQueue l1 ++ extra → Forall well_typed extra →
            Forall well_typed (taskQueue
              (set_taskQueue (update i (set_status completed) (taskQueue l2)) l2))).
  { intros l2 extra Hq2 Hex. simpl.
    assert (Hi2 : taskQueue l2 !! i = Some (set_status processing task)).
    { rewrite Hq2. by apply lookup_app_l_Some. }
    rewrite (update_lookup _ _ _ _ Hi2), Hq2, Hq1, insert_app_l by done.
    rewrite list_insert_insert_eq. apply Forall_app. split; [|done].
    apply Forall_insert; [done|]. unfold well_typed.
    cbn [type data maxRetries status retries set_status]. by split; [|split]. }
  assert (Hfail : Forall well_typed (taskQueue (handleTaskError i l1)) ∨ type task ≠ file_generation).
  { destruct (decide (type task = file_generation)) as [Hgen|]; [left|by right].
    rewrite (handleTaskError_queue _ _ _ Hi1), Hq1, list_insert_insert_eq.
    apply Forall_insert; [done|]. unfold well_typed. cbn [type data maxRetries status retries set_status incr_retries].
    split; [by rewrite Hgen|]. split; [done|].
    destruct (S (retries task) <=? maxRetries task) eqn:E; [done|]. intros _. split; [done|].
    apply Nat.leb_gt in E. lia. }
  unfold executeTask. rewrite Hi1. simpl. destruct (type task) eqn:Hty.
  - unfold executeChatTask. rewrite Hi1. simpl.
    destruct (Hchat eq_refl) as [r ->].
    apply (Hdone _ []); [simpl; by rewrite app_nil_r|constructor].
  - unfold executeFileGeneration. rewrite Hi1. cbv zeta. simpl.
    destruct Hfail as [Hfail|]; [|done].
    destruct (success (o_result o)); [|done].
    destruct (files (o_result o)); [|done].
    destruct (d_session (data task)); [|done].
    destruct (truthy_opt (r_projectId (o_result o)) && truthy_opt (r_previewUrl (o_result o))).
    + eapply (Hdone _ [_]); [reflexivity|]. apply Forall_singleton.
      split; [done|]. by split.
    + apply (Hdone _ []); [simpl; by rewrite app_nil_r|constructor].
  - apply (Hdone _ []); [simpl; by rewrite app_nil_r|constructor].
Qed.

Lemma step_well_typed l e :
  budget_ok l → Forall well_typed (taskQueue l) → Forall well_typed (taskQueue (step l e)).
Proof.
  intros Hb Hall. destruct e as [now response userId message|o now]; simpl.
  - unfold handleChatMessage.
    destruct (activeSessions l !! userId); destruct (isAppGenerationRequest message);
      simpl; (apply Forall_app; split; [done|]); apply Forall_singleton;
      (split; [simpl; eauto|]); by split.
  - assert (H : budget_ok (processPendingTasks o l) ∧
                Forall well_typed (taskQueue (processPendingTasks o l))).
    { destruct (pendingTasks_pending l) as [Hnd Hp]. unfold processPendingTasks.
      apply (process_tasks_fold_inv (λ l, budget_ok l ∧ Forall well_typed (taskQueue l)));
        [|  |by apply Forall_take|done].
      - intros o0 i l0 Hpi [Hb0 Hw0]. split; [by apply process_task_budget|].
        by apply process_task_well_typed.
      - eapply sublist_NoDup; [done|]. apply sublist_take. }
    destruct H as [_ H]. unfold cleanupCompletedTasks. simpl. destruct (100 <? _); [|done].
    simpl. rewrite Forall_forall in H |- *. intros t Ht. apply H.
    apply list_elem_of_In, filter_In in Ht as [Ht _]. by apply list_elem_of_In.
Qed.

(** X11. Only generation tasks fail for good: in every state the loop
    reaches, a failed task is a generation task with [maxRetries = 3] that
    has failed four times. Chat replies and preview notifications never
    reach [failed]. *)
Theorem only_generation_fails (es : list Event) :
  Forall (λ t, status t = failed →
               type t = file_generation ∧ maxRetries t = 3 ∧ retries t = 4)
    (taskQueue (run_events es empty)).
Proof.
  assert (H : ∀ es l, budget_ok l → Forall well_typed (taskQueue l) →
            Forall well_typed (taskQueue (run_events es l))).
  { clear. induction es as [|e es IH]; intros l Hb Hl; [done|]. simpl.
    apply IH; [by apply step_ok|by apply step_well_typed]. }
  eapply Forall_impl; [apply (H es empty); constructor|].
  intros t (_ & Hmax & Hf) Hs. destruct (Hf Hs) as [Hty Hr].
  rewrite Hty in Hmax. simpl in Hmax. rewrite Hmax in Hr. done.
Qed.

(** *** Housekeeping *)

Definition active (t : LoopTask) : bool :=
  bool_decide (status t = pending) || bool_decide (status t = processing).

Lemma active_not_completed t : active t = true → negb (bool_decide (status t = completed)) = true.
Proof. unfold active. destruct (status t); done. Qed.

Lemma filter_filter_active (q : list LoopTask) :
  List.filter active (List.filter (λ t, negb (bool_decide (status t = completed))) q) =
  List.filter active q.
Proof.
  induction q as [|t q IH]; [done|]. simpl.
  destruct (negb (bool_decide (status t = completed))) eqn:E; simpl.
  - by rewrite IH.
  - rewrite IH. destruct (active t) eqn:Ha; [|done].
    apply active_not_completed in Ha. congruence.
Qed.

(** X12. The sweep of completed tasks does nothing while at most 100
    tasks are completed. Beyond that it drops the completed tasks and
    nothing else: the other tasks keep their order, failed tasks are kept
    for good, the count of active tasks is the same, and sessions are not
    touched. *)
Theorem cleanup_drops_completed_only (l : Loop) :
  let completedCount :=
    length (List.filter (λ t, bool_decide (status t = completed)) (taskQueue l)) in
  (completedCount ≤ 100 → cleanupCompletedTasks l = l) ∧
  (100 < completedCount →
     taskQueue (cleanupCompletedTasks l) =
       List.filter (λ t, negb (bool_decide (status t = completed))) (taskQueue l)) ∧
  (∀ t, status t ≠ completed →
        (t ∈ taskQueue (cleanupCompletedTasks l) ↔ t ∈ taskQueue l)) ∧
  getActiveTasksCount (cleanupCompletedTasks l) = getActiveTasksCount l ∧
  heap (cleanupCompletedTasks l) = heap l ∧
  activeSessions (cleanupCompletedTasks l) = activeSessions l.
Proof.
  cbv zeta. unfold cleanupCompletedTasks.
  destruct (100 <? _) eqn:E.
  - apply Nat.ltb_lt in E. split; [intros; lia|]. split; [done|]. split; [|split; [|done]].
    + intros t Ht. simpl. rewrite !list_elem_of_In, filter_In.
      rewrite (bool_decide_eq_false_2 _ Ht). simpl. tauto.
    + unfold getActiveTasksCount. simpl. f_equal.
      exact (filter_filter_active (taskQueue l)).
  - apply Nat.ltb_ge in E. split; [done|]. split; [intros; lia|]. done.
Qed.

(** X13. The inactivity sweep never evicts a session that has a turn,
    whatever the clock says, because such a session is always dated with a
    fresh clock reading; a registered session without a turn is evicted
    exactly when the clock is beyond 3600000 ms. Session objects and tasks
    are left as they are. *)
Theorem eviction_spares_sessions_with_turns (now : Z) (l : Loop) :
  (∀ uid r session, heap l !! r = Some session →
     (activeSessions (maintainActiveSessions now l) !! uid = Some r ↔
      activeSessions l !! uid = Some r ∧
      (conversationHistory session ≠ [] ∨ (now ≤ 3600000)%Z))) ∧
  heap (maintainActiveSessions now l) = heap l ∧
  taskQueue (maintainActiveSessions now l) = taskQueue l.
Proof.
  split; [|done]. intros uid r session Hr. unfold maintainActiveSessions. simpl.
  rewrite map_lookup_filter_Some. cbn [snd]. rewrite Hr. cbn [from_option]. unfold inactive.
  destruct (bool_decide (0 < length (conversationHistory session))) eqn:E.
  - apply bool_decide_eq_true in E. rewrite Z.sub_diag.
    assert (conversationHistory session ≠ []) by (destruct (conversationHistory session); [simpl in E; lia|done]).
    split; [intros [? _]; auto|intros [? _]; done].
  - apply bool_decide_eq_false in E. rewrite Z.sub_0_r, Z.ltb_ge.
    assert (conversationHistory session = []) as Hnil
      by (destruct (conversationHistory session); [done|simpl in E; lia]).
    rewrite Hnil. split; [intros [? ?]; auto|]. intros [? [?|?]]; done.
Qed.

(** *** Messages and the sessions of users *)

(** [getSession(userId)] *)
Definition getSession (userId : string) (l : Loop) : option ChatSession :=
  activeSessions l !! userId ≫= λ r, heap l !! r.

(** Every registered user id names a session object of that user. *)
Definition registry_ok (l : Loop) : Prop :=
  ∀ uid r, activeSessions l !! uid = Some r → ∃ s, heap l !! r = Some s ∧ userId s = uid.

Definition keeps_users (h h' : list ChatSession) : Prop :=
  ∀ r s, h !! r = Some s → ∃ s', h' !! r = Some s' ∧ userId s' = userId s.

Lemma keeps_users_refl h : keeps_users h h.
Proof. intros r s Hr. by exists s. Qed.

Lemma keeps_users_trans h1 h2 h3 : keeps_users h1 h2 → keeps_users h2 h3 → keeps_users h1 h3.
Proof.
  intros H12 H23 r s Hr. destruct (H12 _ _ Hr) as (s2 & Hr2 & Hs2).
  destruct (H23 _ _ Hr2) as (s3 & Hr3 & Hs3). exists s3. split; [done|congruence].
Qed.

Lemma keeps_users_update r f h :
  (∀ s, userId (f s) = userId s) → keeps_users h (update r f h).
Proof.
  intros Hf r0 s0 Hr0. destruct (decide (r = r0)) as [->|Hne].
  - exists (f s0). split; [by apply update_Some|by apply Hf].
  - exists s0. split; [by rewrite update_ne|done].
Qed.

Lemma registry_ok_same l l' :
  activeSessions l' = activeSessions l → keeps_users (heap l) (heap l') →
  registry_ok l → registry_ok l'.
Proof.
  intros Ha Hk Hreg uid r Hr. rewrite Ha in Hr. destruct (Hreg _ _ Hr) as (s & Hs & Hu).
  destruct (Hk _ _ Hs) as (s' & Hs' & Hu'). exists s'. split; [done|congruence].
Qed.

Lemma handleTaskError_users i l : keeps_users (heap l) (heap (handleTaskError i l)).
Proof.
  unfold handleTaskError. destruct (taskQueue l !! i) as [task|]; [|apply keeps_users_refl].
  destruct (_ <=? _); [apply keeps_users_refl|].
  destruct (truthy _); [|apply keeps_users_refl]. simpl.
  destruct (activeSessions l !! _); [|apply keeps_users_refl].
  simpl. by apply keeps_users_update.
Qed.

Lemma executeTask_users o i l : keeps_users (heap l) (heap (executeTask o i l).2).
Proof.
  unfold executeTask. destruct (taskQueue l !! i) as [task|] eqn:Hi; simpl;
    [|apply keeps_users_refl].
  destruct (type task); [| |apply keeps_users_refl].
  - unfold executeChatTask. rewrite Hi. destruct (d_session _); [|apply keeps_users_refl].
    simpl. by apply keeps_users_update.
  - unfold executeFileGeneration. rewrite Hi. cbv zeta.
    destruct (success (o_result o)), (files (o_result o)), (d_session (data task));
      try apply keeps_users_refl.
    destruct (truthy_opt (r_projectId (o_result o)) && truthy_opt (r_previewUrl (o_result o)));
      simpl.
    + eapply keeps_users_trans; [|by apply keeps_users_update].
      eapply keeps_users_trans; by apply keeps_users_update.
    + eapply keeps_users_trans; by apply keeps_users_update.
Qed.

Lemma process_task_registry o i l : registry_ok l → registry_ok (process_task o i l).
Proof.
  intros Hreg. destruct (process_task_sessions o i l) as [Ha _].
  apply (registry_ok_same l); [done| |done].
  unfold process_task. set (l1 := set_taskQueue _ l).
  pose proof (executeTask_users o i l1) as H.
  destruct (executeTask o i l1) as [ok l2]. simpl in H.
  destruct ok; [done|]. eapply keeps_users_trans; [exact H|apply handleTaskError_users].
Qed.

Lemma handleChatMessage_registry now response userId message l :
  registry_ok l → registry_ok (handleChatMessage now response userId message l).2.
Proof.
  intros Hreg. unfold handleChatMessage.
  destruct (activeSessions l !! userId) as [r|] eqn:Hu.
  - destruct (isAppGenerationRequest message); simpl;
      (eapply (registry_ok_same l); [done| |done]); simpl.
    + by apply keeps_users_update.
    + eapply keeps_users_trans; by apply keeps_users_update.
  - assert (Hgen : ∀ q h sl,
              (∃ s, h !! length (heap l) = Some s ∧ AILoop.userId s = userId) →
              (∀ r0 s, heap l !! r0 = Some s → h !! r0 = Some s) →
              registry_ok {| taskQueue := q; heap := h;
                             activeSessions := <[userId := length (heap l)]> (activeSessions l);
                             slept := sl |}).
    { intros q h sl Hnew Hold uid r0 Hr0. simpl in *.
      destruct (decide (uid = userId)) as [->|Hne].
      - rewrite lookup_insert_eq in Hr0. by injection Hr0 as <-.
      - rewrite lookup_insert_ne in Hr0 by done.
        destruct (Hreg _ _ Hr0) as (s & Hs & Hid). exists s. split; [by apply Hold|done]. }
    assert (Hkeep : ∀ f r0 s, heap l !! r0 = Some s →
              update (length (heap l)) f
                (heap l ++ [ {| AILoop.userId := userId; projectId := None;
                                conversationHistory := []; activeFiles := ∅;
                                isGenerating := false |} ]) !! r0 = Some s).
    { intros f r0 s Hs. rewrite update_ne.
      - by apply lookup_app_l_Some.
      - apply lookup_lt_Some in Hs. lia. }
    destruct (isAppGenerationRequest message); simpl; apply Hgen.
    + eexists. split; [apply update_Some; by apply list_lookup_middle|done].
    + apply Hkeep.
    + eexists. split; [apply update_Some, update_Some; by apply list_lookup_middle|done].
    + intros r0 s Hs. rewrite update_ne; [by apply Hkeep|].
      apply lookup_lt_Some in Hs. lia.
Qed.

Lemma step_registry l e : registry_ok l → registry_ok (step l e).
Proof.
  intros Hreg. destruct e as [now response userId message|o now]; simpl.
  - by apply handleChatMessage_registry.
  - assert (H : registry_ok (processPendingTasks o l)).
    { destruct (pendingTasks_pending l) as [Hnd Hp]. unfold processPendingTasks.
      apply (process_tasks_fold_inv registry_ok);
        [intros; by apply process_task_registry| |by apply Forall_take|done].
      eapply sublist_NoDup; [done|]. apply sublist_take. }
    assert (H' : registry_ok (maintainActiveSessions now (processPendingTasks o l))).
    { intros uid r Hr. simpl in Hr. apply map_lookup_filter_Some in Hr as [Hr _].
      by apply H. }
    unfold cleanupCompletedTasks. by destruct (100 <? _).
Qed.

Lemma run_events_registry es : registry_ok (run_events es empty).
Proof.
  assert (H : ∀ es l, registry_ok l → registry_ok (run_events es l)).
  { clear. induction es as [|e es IH]; intros l Hl; [done|]. simpl. by apply IH, step_registry. }
  apply H. intros uid r Hr. simpl in Hr. by rewrite lookup_empty in Hr.
Qed.

Lemma handleChatMessage_session now response uid message l :
  registry_ok l →
  let r := handleChatMessage now response uid message l in
  let before := getSession uid l in
  (conversationHistory <$> getSession uid r.2) =
    Some (default [] (conversationHistory <$> before) ++ [(user, message)] ++
          (if isAppGenerationRequest message then [] else [(assistant, response)])) ∧
  (activeFiles <$> getSession uid r.2) = Some (default ∅ (activeFiles <$> before)) ∧
  (projectId <$> getSession uid r.2) = Some (default None (projectId <$> before)) ∧
  (∀ uid', uid' ≠ uid → getSession uid' r.2 = getSession uid' l) ∧
  r.1 = (if isAppGenerationRequest message then AppGeneration else Chat response) ∧
  length (heap r.2) =
    length (heap l) + (if bool_decide (is_Some (activeSessions l !! uid)) then 0 else 1).
Proof.
  intros Hreg. cbv zeta. unfold handleChatMessage, getSession.
  destruct (activeSessions l !! uid) as [r|] eqn:Hu.
  - destruct (Hreg _ _ Hu) as (s & Hs & Hid). simpl. rewrite Hs. simpl.
    assert (Hother : ∀ f uid', uid' ≠ uid →
              activeSessions l !! uid' ≫= (λ r0, update r f (heap l) !! r0) =
              activeSessions l !! uid' ≫= (λ r0, heap l !! r0)).
    { intros f uid' Hne. destruct (activeSessions l !! uid') as [r'|] eqn:Hu'; [|done].
      simpl. apply update_ne. intros <-.
      destruct (Hreg _ _ Hu') as (s' & Hs' & Hid'). congruence. }
    pose proof (update_Some r (push_turn user message) (heap l) s Hs) as H1.
    destruct (isAppGenerationRequest message); simpl; rewrite Hu; simpl.
    + rewrite H1. simpl. rewrite update_length.
      do 3 (split; [done|]). split; [|split; [done|lia]].
      intros uid' Hne. by apply Hother.
    + rewrite (update_Some r _ _ _ H1). simpl. rewrite <- ?app_assoc, !update_length.
      do 3 (split; [done|]). split; [|split; [done|lia]]. intros uid' Hne.
      destruct (activeSessions l !! uid') as [r'|] eqn:Hu'; [|done]. simpl.
      assert (r ≠ r').
      { intros <-. destruct (Hreg _ _ Hu') as (s' & Hs' & Hid'). congruence. }
      by rewrite !update_ne.
  - simpl.
    set (new := {| userId := uid; projectId := None; conversationHistory := [];
                   activeFiles := ∅; isGenerating := false |}).
    assert (Hnew : (heap l ++ [new]) !! length (heap l) = Some new)
      by (by apply list_lookup_middle).
    pose proof (update_Some _ (push_turn user message) _ _ Hnew) as H1.
    assert (Hother : ∀ (h : list ChatSession) uid', uid' ≠ uid →
              (∀ r0 s, heap l !! r0 = Some s → h !! r0 = Some s) →
              <[uid := length (heap l)]> (activeSessions l) !! uid' ≫= (λ r0, h !! r0) =
              activeSessions l !! uid' ≫= (λ r0, heap l !! r0)).
    { intros h uid' Hne Hh. rewrite lookup_insert_ne by done.
      destruct (activeSessions l !! uid') as [r'|] eqn:Hu'; [|done]. simpl.
      destruct (Hreg _ _ Hu') as (s' & Hs' & _). rewrite Hs'. by apply Hh. }
    assert (Hkeep : ∀ f r0 s, heap l !! r0 = Some s →
              update (length (heap l)) f (heap l ++ [new]) !! r0 = Some s).
    { intros f r0 s Hs. rewrite update_ne.
      - by apply lookup_app_l_Some.
      - apply lookup_lt_Some in Hs. lia. }
    destruct (isAppGenerationRequest message); simpl; rewrite lookup_insert_eq; simpl.
    + rewrite H1. simpl. rewrite update_length, length_app. simpl.
      do 3 (split; [done|]). split; [|done].
      intros uid' Hne. apply Hother; [done|]. apply Hkeep.
    + rewrite (update_Some _ _ _ _ H1). simpl. rewrite !update_length, length_app. simpl.
      do 3 (split; [done|]). split; [|done]. intros uid' Hne. apply Hother; [done|].
      intros r0 s Hs. rewrite update_ne; [by apply Hkeep|].
      apply lookup_lt_Some in Hs. lia.
Qed.

(** *** Task ids and their status *)

(** The id [handleChatMessage] gives the task it queues. *)
Definition task_id (now : Z) (userId message : string) : string :=
  (if isAppGenerationRequest message then "app_" else "chat_") +:+ pretty now +:+ "_" +:+ userId.

Lemma handleChatMessage_task now response uid message l :
  ∃ t, taskQueue (handleChatMessage now response uid message l).2 = taskQueue l ++ [t] ∧
       id t = task_id now uid message ∧ status t = pending.
Proof.
  unfold handleChatMessage, task_id.
  destruct (activeSessions l !! uid); destruct (isAppGenerationRequest message);
    simpl; by eexists.
Qed.

Lemma task_status_after_message_aux now response uid message l :
  let l' := (handleChatMessage now response uid message l).2 in
  let tid := task_id now uid message in
  getTaskStatus tid l' = Some (default pending (getTaskStatus tid l)) ∧
  (∀ other, other ≠ tid → getTaskStatus other l' = getTaskStatus other l).
Proof.
  cbv zeta. destruct (handleChatMessage_task now response uid message l) as (t & Hq & Hid & Hs).
  unfold getTaskStatus. rewrite Hq. split.
  - rewrite find_snoc. destruct (List.find _ (taskQueue l)); [done|].
    rewrite Hid, String.eqb_refl. simpl. by rewrite Hs.
  - intros other Hne. rewrite find_snoc. destruct (List.find _ (taskQueue l)); [done|].
    rewrite Hid. by rewrite (proj2 (String.eqb_neq _ _)).
Qed.

(* ------------------------------------------------------------------ *)
(** *** The loop and its callers, one uninterrupted stretch at a time

    JavaScript runs a handler until it returns or awaits, and while one
    handler waits the others run. The loop awaits [executeTask] and, in
    [handleTaskError], [sleep(delay)]; [handleChatMessage] awaits
    [generateChatResponse] for a message that is no generation request.
    The methods above are these calls when nothing else runs during their
    awaits. Here they are taken apart at their awaits, and the stretches
    of the loop and of any number of messages are interleaved.

    The other awaits of the loop, on its own methods as they return
    ([executeTask] on its way back to [processPendingTasks],
    [handleTaskError] beyond the limit, the two sweeps), resume within the
    same turn of the event loop. No message arrives there; the push of a
    reply that has come back may run there, and it is taken before or after
    the stretch, as it writes one history and reads nothing. A task that
    awaits nothing from outside is given a stretch of its own all the same:
    the interleavings followed here include those of the program. *)

(** [handleChatMessage] up to its [return] (a generation request) or up to
    its [await this.generateChatResponse(...)] (any other message). The
    result tells which of the two it is and names the session object. *)
Definition handleChatMessage_begin (now : Z) (userId message : string) (l : Loop)
  : bool * nat * Loop :=
  let '(session, l1) :=
    match activeSessions l !! userId with
    | Some r => (r, l)
    | None =>
        let r := length (heap l) in
        (r, set_activeSessions (<[userId := r]> (activeSessions l))
              (set_heap (heap l ++ [ {| userId := userId; projectId := None;
                                        conversationHistory := [];
                                        activeFiles := ∅;
                                        isGenerating := false |} ]) l))
    end in
  let l2 := set_heap (update session (push_turn user message) (heap l1)) l1 in
  let data := {| d_userId := userId; d_message := message; d_session := Some session;
                 d_projectId := None; d_previewUrl := None |} in
  if isAppGenerationRequest message then
    (true, session,
     addTask {| id := "app_" +:+ pretty now +:+ "_" +:+ userId; type := file_generation;
                data := data; retries := 0; maxRetries := 3; priority := high;
                status := pending |} l2)
  else
    (false, session,
     addTask {| id := "chat_" +:+ pretty now +:+ "_" +:+ userId; type := chat;
                data := data; retries := 0; maxRetries := 2; priority := medium;
                status := pending |} l2).

(** The rest of [handleChatMessage] for a chat message, once
    [generateChatResponse] has come back with [response]: the push on the
    session object the call holds. *)
Definition handleChatMessage_end (session : nat) (response : string) (l : Loop) : Loop :=
  set_heap (update session (push_turn assistant response) (heap l)) l.

(** [handleTaskError] up to its [await this.sleep(delay)]; the boolean
    tells whether it sleeps. Beyond the limit it does not, and runs to its
    end. *)
Definition handleTaskError_begin (i : nat) (l : Loop) : bool * Loop :=
  match taskQueue l !! i with
  | None => (false, l)
  | Some task0 =>
      let task := incr_retries task0 in
      if retries task <=? maxRetries task then
        let delay := retryDelay (retries task) in
        (true, sleep (default 0%Z delay) (set_taskQueue (<[i := task]> (taskQueue l)) l))
      else (false, handleTaskError i l)
  end.

(** ... and after the sleep: [task.status = 'pending']. *)
Definition handleTaskError_end (i : nat) (l : Loop) : Loop :=
  set_taskQueue (update i (set_status pending) (taskQueue l)) l.

(** Where the loop itself stands: between two rounds; awaiting
    [executeTask] for the task at position [i]; or awaiting the sleep of
    [handleTaskError] for it. [rest] lists the tasks selected for the round
    that are still to run. *)
Inductive Control :=
| Idle
| Executing (i : nat) (rest : list nat)
| Backoff (i : nat) (rest : list nat).

Record Sys := { loop : Loop; control : Control }.

Definition init : Sys := {| loop := empty; control := Idle |}.

(** The end of a round: [maintainActiveSessions()], [cleanupCompletedTasks()]. *)
Definition sweep (now : Z) (l : Loop) : Loop :=
  cleanupCompletedTasks (maintainActiveSessions now l).

(** The [for] loop of [processPendingTasks] takes the next selected task,
    [task.status = 'processing'], and calls [executeTask]; with none left
    the round ends. *)
Definition continue (now : Z) (rest : list nat) (l : Loop) : Sys :=
  match rest with
  | [] => {| loop := sweep now l; control := Idle |}
  | i :: rest' =>
      {| loop := set_taskQueue (update i (set_status processing) (taskQueue l)) l;
         control := Executing i rest' |}
  end.

(** The stretches. [Arrive] is a call of [handleChatMessage] up to its
    return or await and [Answer] its rest; [Wake] is the loop leaving
    [sleep(100)] and starting a round; [Settle] the awaited [executeTask]
    coming back, with what the world supplied; [Resume] the end of the
    sleep in [handleTaskError]. [now] is the clock for the sweep that ends
    the round, should the stretch reach it. A stretch of the loop that is
    not due where the loop stands does nothing. *)
Inductive Segment :=
| Arrive (now : Z) (userId message : string)
| Answer (session : nat) (response : string)
| Wake (now : Z)
| Settle (o : Oracle) (now : Z)
| Resume (now : Z).

Definition segment (sys : Sys) (e : Segment) : Sys :=
  match e with
  | Arrive now userId message =>
      {| loop := (handleChatMessage_begin now userId message (loop sys)).2;
         control := control sys |}
  | Answer session response =>
      {| loop := handleChatMessage_end session response (loop sys); control := control sys |}
  | Wake now =>
      match control sys with
      | Idle => continue now (take 3 (pendingTasks (loop sys))) (loop sys)
      | _ => sys
      end
  | Settle o now =>
      match control sys with
      | Executing i rest =>
          let (ok, l2) := executeTask o i (loop sys) in
          if ok then
            continue now rest (set_taskQueue (update i (set_status completed) (taskQueue l2)) l2)
          else
            let (sleeping, l3) := handleTaskError_begin i l2 in
            if sleeping then {| loop := l3; control := Backoff i rest |}
            else continue now rest l3
      | _ => sys
      end
  | Resume now =>
      match control sys with
      | Backoff i rest => continue now rest (handleTaskError_end i (loop sys))
      | _ => sys
      end
  end.

Definition run (es : list Segment) (sys : Sys) : Sys := fold_left segment es sys.

(** The stretches of the loop one after the other, nothing in between. *)
Fixpoint drive (o : nat → Oracle) (now : Z) (fuel : nat) (sys : Sys) : Sys :=
  match fuel with
  | O => sys
  | S fuel' =>
      match control sys with
      | Idle => sys
      | Executing i _ => drive o now fuel' (segment sys (Settle (o i) now))
      | Backoff _ _ => drive o now fuel' (segment sys (Resume now))
      end
  end.

(** Every message comes with a user id, as the chat endpoint sees to. *)
Definition routed (es : list Segment) : Prop :=
  Forall (λ e, match e with
               | Arrive _ userId _ => truthy userId = true
               | _ => True
               end) es.

(** **** The calls, when nothing runs during their awaits *)

Lemma handleChatMessage_uninterrupted now response userId message l :
  handleChatMessage now response userId message l =
    let '(app, session, l3) := handleChatMessage_begin now userId message l in
    if app then (AppGeneration, l3)
    else (Chat response, handleChatMessage_end session response l3).
Proof.
  unfold handleChatMessage, handleChatMessage_begin.
  destruct (activeSessions l !! userId); by destruct (isAppGenerationRequest message).
Qed.

Lemma handleTaskError_uninterrupted i l :
  handleTaskError i l =
    let (sleeping, l1) := handleTaskError_begin i l in
    if sleeping then handleTaskError_end i l1 else l1.
Proof.
  unfold handleTaskError_begin, handleTaskError_end.
  destruct (taskQueue l !! i) as [task|] eqn:Hi; [|unfold handleTaskError; by rewrite Hi].
  cbv zeta.
  destruct (retries (incr_retries task) <=? maxRetries (incr_retries task)) eqn:E; [|done].
  unfold handleTaskError. rewrite Hi. cbv zeta. rewrite E.
  cbn [taskQueue sleep set_taskQueue]. unfold update.
  rewrite list_lookup_insert_eq by (by eapply lookup_lt_Some). done.
Qed.

Lemma drive_idle o now fuel l : drive o now fuel {| loop := l; control := Idle |} = {| loop := l; control := Idle |}.
Proof. by destruct fuel. Qed.

Lemma drive_continue o now rest : ∀ fuel l,
  2 * length rest ≤ fuel →
  drive o now fuel (continue now rest l) =
    {| loop := sweep now (fold_left (λ l i, process_task (o i) i l) rest l);
       control := Idle |}.
Proof.
  induction rest as [|i rest IH]; intros fuel l Hfuel.
  - apply drive_idle.
  - cbn [length] in Hfuel. destruct fuel as [|[|fuel]]; [lia..|].
    cbn [continue fold_left]. unfold process_task. cbv zeta.
    set (l1 := set_taskQueue (update i (set_status processing) (taskQueue l)) l).
    change (drive o now (S (S fuel)) {| loop := l1; control := Executing i rest |})
      with (drive o now (S fuel) (segment {| loop := l1; control := Executing i rest |}
                                    (Settle (o i) now))).
    cbn [segment control loop].
    destruct (executeTask (o i) i l1) as [[|] l2].
    + apply IH. lia.
    + rewrite (handleTaskError_uninterrupted i l2).
      destruct (handleTaskError_begin i l2) as [[|] l3].
      * change (drive o now (S fuel) {| loop := l3; control := Backoff i rest |})
          with (drive o now fuel (segment {| loop := l3; control := Backoff i rest |}
                                    (Resume now))).
        cbn [segment control loop]. apply IH. lia.
      * apply IH. lia.
Qed.

(** A round in which nothing else runs is [processPendingTasks] followed
    by the sweep, the step of the loop taken above. *)
Lemma round_uninterrupted o now l :
  drive o now 6 (segment {| loop := l; control := Idle |} (Wake now)) =
    {| loop := step l (Tick o now); control := Idle |}.
Proof.
  cbn [segment control loop step]. rewrite drive_continue.
  - done.
  - rewrite length_take. lia.
Qed.

(** **** What holds between any two stretches *)

(** The task the loop is at is in [processing], and the tasks still to run
    are pending ones, each of them once. *)
Definition control_ok (sys : Sys) : Prop :=
  match control sys with
  | Idle => True
  | Executing i rest | Backoff i rest =>
      (status <$> taskQueue (loop sys) !! i) = Some processing ∧
      Forall (pending_at (loop sys)) rest ∧ NoDup (i :: rest)
  end.

(** Every task carries a user id. *)
Definition named (l : Loop) : Prop :=
  Forall (λ t, truthy (d_userId (data t)) = true) (taskQueue l).

Definition inv (sys : Sys) : Prop :=
  budget_ok (loop sys) ∧ control_ok sys ∧ owned_ok (loop sys) ∧ registry_ok (loop sys).

(** What a stretch of the loop at task [i] does to the queue: the task at
    [i] is replaced by one with the same data, and tasks spawned for its
    user are appended. *)
Definition rewrites (i : nat) (l l' : Loop) : Prop :=
  ∃ task task' extra,
    taskQueue l !! i = Some task ∧
    taskQueue l' = <[i := task']> (taskQueue l) ++ extra ∧
    data task' = data task ∧ maxRetries task' = maxRetries task ∧
    Forall (spawned_for (d_userId (data task))) extra.

Lemma rewrites_lookup i l l' j t :
  rewrites i l l' → j ≠ i → taskQueue l !! j = Some t → taskQueue l' !! j = Some t.
Proof.
  intros (task & task' & extra & Hi & Hq & _) Hne Hj. rewrite Hq.
  apply lookup_app_l_Some. by rewrite list_lookup_insert_ne.
Qed.

Lemma rewrites_at i l l' :
  rewrites i l l' →
  ∃ task task', taskQueue l !! i = Some task ∧ taskQueue l' !! i = Some task' ∧
                data task' = data task ∧ maxRetries task' = maxRetries task.
Proof.
  intros (task & task' & extra & Hi & Hq & Hd & Hm & _). exists task, task'.
  split; [done|]. split; [|done]. rewrite Hq.
  apply lookup_app_l_Some, list_lookup_insert_eq. by eapply lookup_lt_Some.
Qed.

Lemma rewrites_pending i l l' j :
  rewrites i l l' → j ≠ i → pending_at l j → pending_at l' j.
Proof.
  unfold pending_at. intros Hrw Hne Hj.
  destruct (taskQueue l !! j) as [t|] eqn:Ht; [|done].
  by rewrite (rewrites_lookup i l l' j t Hrw Hne Ht).
Qed.

Lemma rewrites_failed_kept i l l' :
  rewrites i l l' → (status <$> taskQueue l !! i) ≠ Some failed → failed_kept l l'.
Proof.
  intros Hrw Hi j t Hj Hf. apply (rewrites_lookup i l l'); [done| |done].
  intros ->. rewrite Hj in Hi. simpl in Hi. congruence.
Qed.

Lemma rewrites_budget i l l' :
  rewrites i l l' →
  (∀ task', taskQueue l' !! i = Some task' → within_budget task') →
  budget_ok l → budget_ok l'.
Proof.
  intros Hrw Hnew Hb. pose proof Hrw as (task & task' & extra & Hi & Hq & _ & _ & Hextra).
  unfold budget_ok in *. rewrite Hq. apply Forall_app. split.
  - apply Forall_insert; [done|]. apply Hnew. rewrite Hq.
    apply lookup_app_l_Some, list_lookup_insert_eq. by eapply lookup_lt_Some.
  - eapply Forall_impl; [done|]. intros t [Ht _]. by apply fresh_within_budget.
Qed.

Lemma rewrites_owned i l l' :
  rewrites i l l' → same_sessions l l' → owned_ok l → owned_ok l'.
Proof.
  intros (task & task' & extra & Hi & Hq & Hd & _ & Hextra) Hsame [Hlive Hown].
  split; [by eapply sessions_live_same|].
  assert (Htask : task_owned l task) by (rewrite Forall_lookup in Hown; by eapply Hown).
  assert (Ha : activeSessions l' = activeSessions l) by (by destruct Hsame).
  rewrite Hq. apply Forall_app. split.
  - apply Forall_insert.
    + eapply Forall_impl; [done|]. intros t. by apply task_owned_same.
    + apply (task_owned_same l); [done|]. destruct Htask as (r & Hr & Hs). exists r.
      by rewrite Hd.
  - eapply Forall_impl; [done|]. intros t (_ & Hu & Hs).
    apply (task_owned_same l); [done|].
    destruct Htask as (r & Hr & _). exists r. rewrite Hu, Hs. by split.
Qed.

Lemma rewrites_named i l l' : rewrites i l l' → named l → named l'.
Proof.
  intros (task & task' & extra & Hi & Hq & Hd & _ & Hextra) Hn.
  assert (Htask : truthy (d_userId (data task)) = true)
    by (unfold named in Hn; rewrite Forall_lookup in Hn; by eapply Hn).
  unfold named in *. rewrite Hq. apply Forall_app. split.
  - apply Forall_insert; [done|]. by rewrite Hd.
  - eapply Forall_impl; [done|]. intros t (_ & Hu & _). cbn beta. by rewrite Hu.
Qed.

Lemma rewrites_trans i l1 l2 l3 : rewrites i l1 l2 → rewrites i l2 l3 → rewrites i l1 l3.
Proof.
  intros (t1 & t1' & e1 & Hi1 & Hq1 & Hd1 & Hm1 & He1) (t2 & t2' & e2 & Hi2 & Hq2 & Hd2 & Hm2 & He2).
  assert (Hlt : i < length (taskQueue l1)) by (by eapply lookup_lt_Some).
  assert (t2 = t1') as ->.
  { rewrite Hq1 in Hi2. rewrite lookup_app_l in Hi2 by (by rewrite length_insert).
    rewrite list_lookup_insert_eq in Hi2 by done. congruence. }
  exists t1, t2', (e1 ++ e2). split; [done|]. split; [|split; [congruence|split; [congruence|]]].
  - rewrite Hq2, Hq1. rewrite insert_app_l by (by rewrite length_insert).
    by rewrite list_insert_insert_eq, <- app_assoc.
  - apply Forall_app. split; [done|]. by rewrite <- Hd1.
Qed.

(** The stretches of the loop as rewrites. *)
Lemma rewrites_mark i s l task :
  taskQueue l !! i = Some task →
  rewrites i l (set_taskQueue (update i (set_status s) (taskQueue l)) l).
Proof.
  intros Hi. exists task, (set_status s task), []. split; [done|].
  split; [|by repeat split]. cbn [taskQueue set_taskQueue].
  by rewrite (update_lookup _ _ _ _ Hi), app_nil_r.
Qed.

Lemma rewrites_executeTask o i l task :
  taskQueue l !! i = Some task → rewrites i l (executeTask o i l).2.
Proof.
  intros Hi. destruct (executeTask_queue o i l task Hi) as (extra & Hq & Hextra).
  exists task, task, extra. split; [done|]. split; [|by repeat split].
  by rewrite Hq, list_insert_id.
Qed.

Lemma rewrites_handleTaskError i l task :
  taskQueue l !! i = Some task → rewrites i l (handleTaskError i l).
Proof.
  intros Hi. eexists task, _, []. split; [done|].
  split; [by rewrite (handleTaskError_queue _ _ _ Hi), app_nil_r|by repeat split].
Qed.

Lemma handleTaskError_begin_sleeping i l task :
  taskQueue l !! i = Some task →
  (handleTaskError_begin i l).1 = (S (retries task) <=? maxRetries task) ∧
  ((handleTaskError_begin i l).1 = true →
     (handleTaskError_begin i l).2 =
       sleep (default 0%Z (retryDelay (S (retries task))))
         (set_taskQueue (<[i := incr_retries task]> (taskQueue l)) l)) ∧
  ((handleTaskError_begin i l).1 = false →
     (handleTaskError_begin i l).2 = handleTaskError i l).
Proof.
  intros Hi. unfold handleTaskError_begin. rewrite Hi. cbv zeta.
  change (retries (incr_retries task)) with (S (retries task)).
  change (maxRetries (incr_retries task)) with (maxRetries task).
  by destruct (S (retries task) <=? maxRetries task).
Qed.

Lemma rewrites_handleTaskError_begin i l task :
  taskQueue l !! i = Some task → rewrites i l (handleTaskError_begin i l).2.
Proof.
  intros Hi. destruct (handleTaskError_begin_sleeping i l task Hi) as (_ & Hsl & Hno).
  destruct (handleTaskError_begin i l).1 eqn:E.
  - rewrite (Hsl eq_refl). exists task, (incr_retries task), []. split; [done|].
    split; [by rewrite app_nil_r|by repeat split].
  - rewrite (Hno eq_refl). by apply (rewrites_handleTaskError i l task).
Qed.

Lemma handleTaskError_begin_sessions i l : same_sessions l (handleTaskError_begin i l).2.
Proof.
  unfold handleTaskError_begin. destruct (taskQueue l !! i) as [task|]; [|apply same_sessions_refl].
  cbv zeta. destruct (_ <=? _); [split; [done|apply keeps_turns_refl]|].
  apply handleTaskError_sessions.
Qed.

Lemma handleTaskError_begin_users i l : keeps_users (heap l) (heap (handleTaskError_begin i l).2).
Proof.
  unfold handleTaskError_begin. destruct (taskQueue l !! i) as [task|]; [|apply keeps_users_refl].
  cbv zeta. destruct (_ <=? _); [simpl; apply keeps_users_refl|]. apply handleTaskError_users.
Qed.

(** A failing [executeTask] has changed nothing. *)
Lemma executeTask_fails o i l : (executeTask o i l).1 = false → (executeTask o i l).2 = l.
Proof.
  unfold executeTask. destruct (taskQueue l !! i) as [task|] eqn:Hi; [|done]. simpl.
  destruct (type task); [| |done].
  - unfold executeChatTask. rewrite Hi. by destruct (d_session _).
  - unfold executeFileGeneration. rewrite Hi. cbv zeta.
    by destruct (success (o_result o)), (files (o_result o)), (d_session (data task)).
Qed.

(** Only a generation task can fail, when the service reports no success
    or no files. *)
Lemma executeTask_fails_iff o i l task :
  taskQueue l !! i = Some task →
  ((executeTask o i l).1 = false ↔
   (type task = file_generation ∧
    (success (o_result o) = false ∨ files (o_result o) = None ∨ d_session (data task) = None)) ∨
   (type task = chat ∧ d_session (data task) = None)).
Proof.
  intros Hi. unfold executeTask. rewrite Hi. simpl. destruct (type task).
  - unfold executeChatTask. rewrite Hi. destruct (d_session _); simpl; split; try done.
    + intros [[? _]|[_ ?]]; done.
    + intros _. by right.
  - unfold executeFileGeneration. rewrite Hi. cbv zeta.
    destruct (success (o_result o)), (files (o_result o)), (d_session (data task));
      simpl; split; try done; try (intros _; left; split; [done|]; auto; fail);
      intros [[_ [?|[?|?]]]|[? _]]; done.
  - simpl. split; [done|]. intros [[? _]|[? _]]; done.
Qed.

(** The sweep. *)
Lemma sweep_inv now l :
  owned_ok l →
  (budget_ok l → budget_ok (sweep now l)) ∧ owned_ok (sweep now l) ∧
  (registry_ok l → registry_ok (sweep now l)) ∧ (named l → named (sweep now l)) ∧
  failed_stay l (sweep now l) ∧ heap (sweep now l) = heap l ∧
  activeSessions (sweep now l) = activeSessions l.
Proof.
  intros Hown. unfold sweep.
  rewrite maintainActiveSessions_live by (by destruct Hown).
  destruct (cleanupCompletedTasks_ok l) as [Hb Hs].
  split; [done|]. split; [by apply cleanupCompletedTasks_owned|].
  split; [unfold cleanupCompletedTasks; by destruct (100 <? _)|].
  split; [|split; [exact Hs|unfold cleanupCompletedTasks; by destruct (100 <? _)]].
  unfold cleanupCompletedTasks. destruct (100 <? _); [|done].
  unfold named. cbn [taskQueue set_taskQueue]. rewrite !Forall_forall. intros H t Ht.
  apply H. apply list_elem_of_In, filter_In in Ht as [Ht _]. by apply list_elem_of_In.
Qed.

(** **** A message, up to its await *)

Definition new_session (userId : string) : ChatSession :=
  {| userId := userId; projectId := None; conversationHistory := [];
     activeFiles := ∅; isGenerating := false |}.

(** The session object a message is filed in, and the heap it is found in:
    the registered one, or a new one at the end of the heap. *)
Definition session_for (userId : string) (l : Loop) : nat * list ChatSession :=
  match activeSessions l !! userId with
  | Some r => (r, heap l)
  | None => (length (heap l), heap l ++ [new_session userId])
  end.

Lemma handleChatMessage_begin_spec now userId message l :
  let r := (session_for userId l).1 in
  ∃ t,
    handleChatMessage_begin now userId message l =
      (isAppGenerationRequest message, r,
       {| taskQueue := taskQueue l ++ [t];
          heap := update r (push_turn user message) (session_for userId l).2;
          activeSessions := <[userId := r]> (activeSessions l);
          slept := slept l |}) ∧
    fresh t ∧ id t = task_id now userId message ∧
    data t = {| d_userId := userId; d_message := message; d_session := Some r;
                d_projectId := None; d_previewUrl := None |} ∧
    type t = (if isAppGenerationRequest message then file_generation else chat) ∧
    maxRetries t = (if isAppGenerationRequest message then 3 else 2) ∧
    priority t = (if isAppGenerationRequest message then high else medium).
Proof.
  cbv zeta. unfold handleChatMessage_begin, session_for, task_id, new_session.
  destruct (activeSessions l !! userId) as [r|] eqn:Hu;
    destruct (isAppGenerationRequest message);
    cbn [fst snd]; eexists;
    (split;
     [unfold addTask, set_taskQueue, set_heap, set_activeSessions;
      cbn [taskQueue heap activeSessions slept];
      first [reflexivity | by rewrite (insert_id _ _ _ Hu)]
     |by repeat split]).
Qed.

Lemma session_for_lookup userId l :
  sessions_live l ∨ registry_ok l →
  ∃ s, (session_for userId l).2 !! (session_for userId l).1 = Some s ∧
       (∀ r0 s0, heap l !! r0 = Some s0 → (session_for userId l).2 !! r0 = Some s0) ∧
       match activeSessions l !! userId with
       | Some r => heap l !! r = Some s
       | None => s = new_session userId
       end.
Proof.
  intros Hl. unfold session_for. destruct (activeSessions l !! userId) as [r|] eqn:Hu.
  - cbn [fst snd].
    assert (∃ s, heap l !! r = Some s) as [s Hs].
    { destruct Hl as [Hlive|Hreg].
      - destruct (Hlive _ _ Hu) as (s & Hs & _). by exists s.
      - destruct (Hreg _ _ Hu) as (s & Hs & _). by exists s. }
    exists s. by repeat split.
  - cbn [fst snd]. exists (new_session userId). split; [by apply list_lookup_middle|].
    split; [|done]. intros r0 s0 H0. by apply lookup_app_l_Some.
Qed.

Lemma handleChatMessage_begin_owned now userId message l :
  owned_ok l → owned_ok (handleChatMessage_begin now userId message l).2.
Proof.
  intros [Hlive Hown].
  destruct (handleChatMessage_begin_spec now userId message l) as (t & -> & _ & _ & Hd & _).
  destruct (session_for_lookup userId l (or_introl Hlive)) as (s & Hs & Hkeep & Hwhich).
  set (r := (session_for userId l).1) in *. set (h := (session_for userId l).2) in *.
  cbn [snd]. split.
  - intros uid r0 Hr0. cbn [activeSessions heap] in *.
    destruct (decide (r0 = r)) as [->|Hne].
    + exists (push_turn user message s). split; [by apply update_Some|apply push_turn_nonempty].
    + destruct (decide (uid = userId)) as [->|Hneu].
      * rewrite lookup_insert_eq in Hr0. congruence.
      * rewrite lookup_insert_ne in Hr0 by done.
        destruct (Hlive _ _ Hr0) as (s0 & Hs0 & Hne0). exists s0.
        split; [|done]. rewrite update_ne by done. by apply Hkeep.
  - cbn [taskQueue]. apply Forall_app. split.
    + eapply Forall_impl; [exact Hown|]. intros t0 (r0 & Hr0 & Hd0). exists r0.
      split; [|done]. cbn [activeSessions].
      destruct (decide (d_userId (data t0) = userId)) as [Heq|Hneu].
      * rewrite Heq, lookup_insert_eq. rewrite Heq in Hr0.
        unfold r, session_for. by rewrite Hr0.
      * by rewrite lookup_insert_ne.
    + apply Forall_singleton. exists r. rewrite Hd. cbn [d_userId d_session activeSessions].
      rewrite lookup_insert_eq. split; [done|]. by intros r' [= <-].
Qed.

Lemma handleChatMessage_begin_registry now userId message l :
  registry_ok l → registry_ok (handleChatMessage_begin now userId message l).2.
Proof.
  intros Hreg.
  destruct (handleChatMessage_begin_spec now userId message l) as (t & -> & _).
  destruct (session_for_lookup userId l (or_intror Hreg)) as (s & Hs & Hkeep & Hwhich).
  set (r := (session_for userId l).1) in *. set (h := (session_for userId l).2) in *.
  cbn [snd]. intros uid r0 Hr0. cbn [activeSessions heap] in *.
  assert (Hs_user : AILoop.userId s = userId).
  { destruct (activeSessions l !! userId) as [r1|] eqn:Hu.
    - destruct (Hreg _ _ Hu) as (s1 & Hs1 & Hu1).
      assert (r = r1) as Hr by (unfold r, session_for; by rewrite Hu).
      rewrite Hr in Hs. rewrite Hwhich in Hs1. congruence.
    - by rewrite Hwhich. }
  destruct (decide (uid = userId)) as [->|Hneu].
  - rewrite lookup_insert_eq in Hr0. injection Hr0 as <-.
    exists (push_turn user message s). split; [by apply update_Some|done].
  - rewrite lookup_insert_ne in Hr0 by done.
    destruct (Hreg _ _ Hr0) as (s0 & Hs0 & Hu0). exists s0. split; [|done].
    rewrite update_ne; [by apply Hkeep|]. intros <-.
    destruct (activeSessions l !! userId) as [r1|] eqn:Hu.
    + assert (r = r1) as Hr by (unfold r, session_for; by rewrite Hu).
      rewrite Hr in Hs0. rewrite Hwhich in Hs0. congruence.
    + assert (r = length (heap l)) as Hr by (unfold r, session_for; by rewrite Hu).
      apply lookup_lt_Some in Hs0. lia.
Qed.

Lemma handleChatMessage_begin_queue now userId message l :
  ∃ t, taskQueue (handleChatMessage_begin now userId message l).2 = taskQueue l ++ [t] ∧
       fresh t ∧ d_userId (data t) = userId ∧ id t = task_id now userId message.
Proof.
  destruct (handleChatMessage_begin_spec now userId message l) as (t & -> & Hf & Hid & Hd & _).
  exists t. cbn [snd taskQueue]. rewrite Hd. by do 3 (split; [done|]).
Qed.

Lemma handleChatMessage_end_same session response l :
  same_sessions l (handleChatMessage_end session response l) ∧
  keeps_users (heap l) (heap (handleChatMessage_end session response l)) ∧
  taskQueue (handleChatMessage_end session response l) = taskQueue l.
Proof.
  unfold handleChatMessage_end. cbn [taskQueue heap set_heap]. split; [|split; [|done]].
  - split; [done|]. apply keeps_turns_push.
  - by apply keeps_users_update.
Qed.

(** **** Every stretch keeps the invariant *)

Lemma failed_stay_refl l : failed_stay l l.
Proof. by intros t. Qed.

Lemma failed_stay_trans l1 l2 l3 : failed_stay l1 l2 → failed_stay l2 l3 → failed_stay l1 l3.
Proof. intros H1 H2 t Ht Hf. apply H2; [|done]. by apply H1. Qed.

Lemma rewrites_inv i l l' rest :
  rewrites i l l' → same_sessions l l' → keeps_users (heap l) (heap l') →
  (∀ task', taskQueue l' !! i = Some task' → within_budget task') →
  (status <$> taskQueue l !! i) ≠ Some failed →
  budget_ok l → owned_ok l → registry_ok l → Forall (pending_at l) rest → i ∉ rest →
  budget_ok l' ∧ owned_ok l' ∧ registry_ok l' ∧ Forall (pending_at l') rest ∧
  failed_stay l l' ∧ (named l → named l').
Proof.
  intros Hrw Hsame Husers Hnew Hi Hb Hown Hreg Hrest Hni.
  split; [by eapply rewrites_budget|]. split; [by eapply rewrites_owned|].
  split; [apply (registry_ok_same l); [by destruct Hsame|done|done]|].
  split; [|split; [by apply failed_kept_stay, (rewrites_failed_kept i)|by apply (rewrites_named i)]].
  rewrite Forall_forall in Hrest |- *. intros j Hj.
  apply (rewrites_pending i l); [done| |by apply Hrest]. intros ->. done.
Qed.

Lemma mark_same i s l :
  let l' := set_taskQueue (update i (set_status s) (taskQueue l)) l in
  same_sessions l l' ∧ keeps_users (heap l) (heap l').
Proof. cbv zeta. split; [split; [done|apply keeps_turns_refl]|apply keeps_users_refl]. Qed.

Lemma mark_lookup i s l task :
  taskQueue l !! i = Some task →
  taskQueue (set_taskQueue (update i (set_status s) (taskQueue l)) l) !! i =
    Some (set_status s task).
Proof. intros Hi. cbn [taskQueue set_taskQueue]. by apply update_Some. Qed.

Lemma continue_inv now rest l :
  NoDup rest → Forall (pending_at l) rest →
  budget_ok l → owned_ok l → registry_ok l →
  inv (continue now rest l) ∧ failed_stay l (loop (continue now rest l)) ∧
  (named l → named (loop (continue now rest l))) ∧
  heap (loop (continue now rest l)) = heap l ∧
  activeSessions (loop (continue now rest l)) = activeSessions l.
Proof.
  intros Hnd Hp Hb Hown Hreg. destruct rest as [|i rest]; cbn [continue loop].
  - destruct (sweep_inv now l Hown) as (Hb' & Hown' & Hreg' & Hn' & Hs' & Hh & Ha).
    split; [split; [by apply Hb'|split; [done|split; [done|by apply Hreg']]]|].
    split; [done|split; [done|by split]].
  - apply NoDup_cons in Hnd as [Hni Hnd]. apply Forall_cons in Hp as [Hpi Hp].
    unfold pending_at in Hpi. destruct (taskQueue l !! i) as [task|] eqn:Hi; [|done].
    injection Hpi as Hpi.
    destruct (mark_same i processing l) as [Hsame Husers].
    set (l1 := set_taskQueue (update i (set_status processing) (taskQueue l)) l) in *.
    assert (Hnew : ∀ task', taskQueue l1 !! i = Some task' → within_budget task').
    { intros task'. unfold l1. rewrite (mark_lookup _ _ _ _ Hi). intros [= <-] _.
      cbn [retries maxRetries set_status].
      unfold budget_ok in Hb. rewrite Forall_lookup in Hb. apply (Hb _ _ Hi). by rewrite Hpi. }
    assert (Hnf : (status <$> taskQueue l !! i) ≠ Some failed)
      by (rewrite Hi; simpl; by rewrite Hpi).
    destruct (rewrites_inv i l l1 rest (rewrites_mark i processing l task Hi) Hsame Husers
                Hnew Hnf Hb Hown Hreg Hp Hni)
      as (Hb' & Hown' & Hreg' & Hp' & Hs' & Hn').
    split; [|split; [done|split; [done|by split]]]. split; [done|]. split; [|by split].
    unfold control_ok. cbn [control loop].
    split; [unfold l1; by rewrite (mark_lookup _ _ _ _ Hi)|].
    split; [done|]. by apply NoDup_cons.
Qed.

Lemma append_pending l l' t j :
  taskQueue l' = taskQueue l ++ [t] → pending_at l j → pending_at l' j.
Proof.
  unfold pending_at. intros Hq Hj. rewrite Hq.
  destruct (taskQueue l !! j) as [t0|] eqn:Ht; [|done]. by erewrite lookup_app_l_Some.
Qed.

(** Every stretch keeps the invariant and every failed task. *)
Lemma segment_inv sys e :
  inv sys →
  inv (segment sys e) ∧ failed_stay (loop sys) (loop (segment sys e)) ∧
  (named (loop sys) → routed [e] → named (loop (segment sys e))).
Proof.
  intros (Hb & Hc & Hown & Hreg).
  destruct e as [now userId message|session response|now|o now|now]; cbn [segment].
  - (* Arrive *)
    destruct (handleChatMessage_begin_queue now userId message (loop sys))
      as (t & Hq & Hfresh & Hu & _).
    split; [split; [|split; [|split]]|split].
    + cbn [loop]. unfold budget_ok. rewrite Hq. apply Forall_app. split; [done|].
      apply Forall_singleton. by apply fresh_within_budget.
    + unfold control_ok in *. cbn [control loop].
      destruct (control sys) as [|i rest|i rest]; [done| |];
        destruct Hc as (Hi & Hrest & Hnd);
        (split; [|split; [|done]]);
        [ rewrite Hq; destruct (taskQueue (loop sys) !! i) as [ti|] eqn:Hti; [|done];
          by erewrite lookup_app_l_Some
        | eapply Forall_impl; [exact Hrest|]; intros j; by apply (append_pending _ _ t)
        | rewrite Hq; destruct (taskQueue (loop sys) !! i) as [ti|] eqn:Hti; [|done];
          by erewrite lookup_app_l_Some
        | eapply Forall_impl; [exact Hrest|]; intros j; by apply (append_pending _ _ t) ].
    + by apply handleChatMessage_begin_owned.
    + by apply handleChatMessage_begin_registry.
    + cbn [loop]. intros t0 Ht0 _. rewrite Hq. apply elem_of_app. by left.
    + cbn [loop]. intros Hn Hr. unfold routed in Hr.
      apply (proj1 (Forall_singleton _ _)) in Hr. cbv beta iota in Hr.
      unfold named. rewrite Hq.
      apply Forall_app. split; [done|]. apply Forall_singleton. cbv beta. by rewrite Hu.
  - (* Answer *)
    destruct (handleChatMessage_end_same session response (loop sys)) as (Hsame & Husers & Hq).
    split; [split; [|split; [|split]]|split]; cbn [loop control].
    + unfold budget_ok. by rewrite Hq.
    + unfold control_ok, pending_at in *. cbn [control loop]. by rewrite Hq.
    + destruct Hown as [Hlive Ht]. split; [by eapply sessions_live_same|].
      rewrite Hq. eapply Forall_impl; [exact Ht|]. intros t. apply task_owned_same.
      by destruct Hsame.
    + apply (registry_ok_same (loop sys)); [by destruct Hsame|done|done].
    + intros t Ht _. by rewrite Hq.
    + intros Hn _. unfold named. by rewrite Hq.
  - (* Wake *)
    destruct (control sys) eqn:Ec;
      [|split; [done|split; [apply failed_stay_refl|done]]..].
    destruct (pendingTasks_pending (loop sys)) as [Hnd Hp].
    destruct (continue_inv now (take 3 (pendingTasks (loop sys))) (loop sys))
      as (Hinv & Hs & Hn & _); try done.
    + eapply sublist_NoDup; [done|]. apply sublist_take.
    + by apply Forall_take.
    + split; [done|]. split; [done|]. intros H _. by apply Hn.
  - (* Settle *)
    destruct (control sys) as [|i rest|i rest] eqn:Ec;
      [split; [done|split; [apply failed_stay_refl|done]]|
      |split; [done|split; [apply failed_stay_refl|done]]].
    unfold control_ok in Hc. rewrite Ec in Hc. destruct Hc as (Hi & Hrest & Hnd).
    apply NoDup_cons in Hnd as [Hni Hnd].
    destruct (taskQueue (loop sys) !! i) as [task|] eqn:Hti; [|done].
    injection Hi as Hi.
    pose proof (rewrites_executeTask o i (loop sys) task Hti) as Hrw1.
    pose proof (executeTask_sessions o i (loop sys)) as Hsame1.
    pose proof (executeTask_users o i (loop sys)) as Husers1.
    assert (Hti2 : taskQueue (executeTask o i (loop sys)).2 !! i = Some task).
    { destruct (executeTask_queue o i (loop sys) task Hti) as (extra & Hq & _).
      rewrite Hq. by apply lookup_app_l_Some. }
    assert (Hwithin : retries task ≤ maxRetries task).
    { unfold budget_ok in Hb. rewrite Forall_lookup in Hb. apply (Hb _ _ Hti). by rewrite Hi. }
    assert (Hnf : (status <$> taskQueue (loop sys) !! i) ≠ Some failed)
      by (rewrite Hti; simpl; by rewrite Hi).
    destruct (executeTask o i (loop sys)) as [ok l2] eqn:Eexec. cbn [fst snd] in *.
    destruct ok.
    + (* completed *)
      set (l3 := set_taskQueue (update i (set_status completed) (taskQueue l2)) l2).
      destruct (mark_same i completed l2) as [Hsame2 Husers2]. fold l3 in Hsame2, Husers2.
      assert (Hrw : rewrites i (loop sys) l3).
      { eapply rewrites_trans; [exact Hrw1|]. by apply (rewrites_mark i completed l2 task). }
      assert (Hsame : same_sessions (loop sys) l3) by (by eapply same_sessions_trans).
      assert (Husers : keeps_users (heap (loop sys)) (heap l3)) by (by eapply keeps_users_trans).
      assert (Hnew : ∀ task', taskQueue l3 !! i = Some task' → within_budget task').
      { intros task'. unfold l3. rewrite (mark_lookup _ _ _ _ Hti2). by intros [= <-] _. }
      destruct (rewrites_inv i (loop sys) l3 rest Hrw Hsame Husers Hnew Hnf Hb Hown Hreg Hrest Hni)
        as (Hb' & Hown' & Hreg' & Hp' & Hs' & Hn').
      destruct (continue_inv now rest l3 Hnd Hp' Hb' Hown' Hreg') as (Hinv & Hs & Hn & _).
      split; [done|]. split; [by eapply failed_stay_trans|]. intros H _. by apply Hn, Hn'.
    + (* failed attempt *)
      pose proof (rewrites_handleTaskError_begin i l2 task Hti2) as Hrw2.
      pose proof (handleTaskError_begin_sessions i l2) as Hsame2.
      pose proof (handleTaskError_begin_users i l2) as Husers2.
      destruct (handleTaskError_begin_sleeping i l2 task Hti2) as (Hsl & Hyes & Hno).
      assert (Hnew : ∀ task', taskQueue (handleTaskError_begin i l2).2 !! i = Some task' →
                within_budget task').
      { intros task' Ht'. destruct (handleTaskError_begin i l2).1 eqn:E.
        - rewrite (Hyes eq_refl) in Ht'. cbn [taskQueue sleep set_taskQueue] in Ht'.
          rewrite list_lookup_insert_eq in Ht' by (by eapply lookup_lt_Some).
          injection Ht' as <-. intros _. cbn [retries maxRetries incr_retries].
          symmetry in Hsl. by apply Nat.leb_le in Hsl.
        - rewrite (Hno eq_refl), (handleTaskError_queue _ _ _ Hti2), <- Hsl in Ht'.
          rewrite list_lookup_insert_eq in Ht' by (by eapply lookup_lt_Some).
          injection Ht' as <-. by intros H. }
      assert (Hrw : rewrites i (loop sys) (handleTaskError_begin i l2).2)
        by (by eapply rewrites_trans).
      assert (Hsame : same_sessions (loop sys) (handleTaskError_begin i l2).2)
        by (by eapply same_sessions_trans).
      assert (Husers : keeps_users (heap (loop sys)) (heap (handleTaskError_begin i l2).2))
        by (by eapply keeps_users_trans).
      destruct (rewrites_inv i (loop sys) _ rest Hrw Hsame Husers Hnew Hnf Hb Hown Hreg Hrest Hni)
        as (Hb' & Hown' & Hreg' & Hp' & Hs' & Hn').
      destruct (handleTaskError_begin i l2) as [sleeping l3] eqn:Ebegin. cbn [fst snd] in *.
      destruct sleeping.
      * split; [|split; [done|by intros H _; apply Hn']].
        split; [done|]. split; [|by split]. unfold control_ok. cbn [control loop].
        split; [|split; [done|by apply NoDup_cons]].
        rewrite (Hyes eq_refl). cbn [taskQueue sleep set_taskQueue].
        rewrite list_lookup_insert_eq by (by eapply lookup_lt_Some). simpl. by rewrite Hi.
      * destruct (continue_inv now rest l3 Hnd Hp' Hb' Hown' Hreg') as (Hinv & Hs & Hn & _).
        split; [done|]. split; [by eapply failed_stay_trans|]. intros H _. by apply Hn, Hn'.
  - (* Resume *)
    destruct (control sys) as [|i rest|i rest] eqn:Ec;
      [split; [done|split; [apply failed_stay_refl|done]]..|].
    unfold control_ok in Hc. rewrite Ec in Hc. destruct Hc as (Hi & Hrest & Hnd).
    apply NoDup_cons in Hnd as [Hni Hnd].
    destruct (taskQueue (loop sys) !! i) as [task|] eqn:Hti; [|done].
    injection Hi as Hi. unfold handleTaskError_end.
    set (l1 := set_taskQueue (update i (set_status pending) (taskQueue (loop sys))) (loop sys)).
    destruct (mark_same i pending (loop sys)) as [Hsame Husers]. fold l1 in Hsame, Husers.
    assert (Hnew : ∀ task', taskQueue l1 !! i = Some task' → within_budget task').
    { intros task'. unfold l1. rewrite (mark_lookup _ _ _ _ Hti). intros [= <-] _.
      cbn [retries maxRetries set_status].
      unfold budget_ok in Hb. rewrite Forall_lookup in Hb. apply (Hb _ _ Hti). by rewrite Hi. }
    assert (Hnf : (status <$> taskQueue (loop sys) !! i) ≠ Some failed)
      by (rewrite Hti; simpl; by rewrite Hi).
    destruct (rewrites_inv i (loop sys) l1 rest (rewrites_mark i pending _ task Hti) Hsame Husers
                Hnew Hnf Hb Hown Hreg Hrest Hni)
      as (Hb' & Hown' & Hreg' & Hp' & Hs' & Hn').
    destruct (continue_inv now rest l1 Hnd Hp' Hb' Hown' Hreg') as (Hinv & Hs & Hn & _).
    split; [done|]. split; [by eapply failed_stay_trans|]. intros H _. by apply Hn, Hn'.
Qed.

Lemma inv_init : inv init.
Proof.
  split; [constructor|]. split; [done|]. split; [apply owned_empty|].
  intros uid r H. cbn [init loop empty activeSessions] in H. by rewrite lookup_empty in H.
Qed.

Lemma run_snoc es e sys : run (es ++ [e]) sys = segment (run es sys) e.
Proof. unfold run. by rewrite fold_left_app. Qed.

Lemma run_inv es sys : inv sys → inv (run es sys).
Proof.
  revert sys. induction es as [|e es IH]; intros sys H; [done|].
  cbn [run fold_left]. apply IH. by apply segment_inv.
Qed.

Lemma run_failed_stay es sys : inv sys → failed_stay (loop sys) (loop (run es sys)).
Proof.
  revert sys. induction es as [|e es IH]; intros sys H; [apply failed_stay_refl|].
  cbn [run fold_left]. destruct (segment_inv sys e H) as (H' & Hs & _).
  eapply failed_stay_trans; [exact Hs|]. by apply IH.
Qed.

Lemma run_named es sys : inv sys → named (loop sys) → routed es → named (loop (run es sys)).
Proof.
  revert sys. induction es as [|e es IH]; intros sys H Hn Hr; [done|].
  apply Forall_cons in Hr as [He Hr].
  cbn [run fold_left]. destruct (segment_inv sys e H) as (H' & _ & Hn').
  apply IH; [done| |done]. apply Hn'; [done|]. by apply Forall_singleton.
Qed.

(** **** A failure beyond the limit *)

(** What [Settle] does when [executeTask] has failed. *)
Lemma settle_failed sys i rest task o now :
  inv sys → control sys = Executing i rest → taskQueue (loop sys) !! i = Some task →
  (executeTask o i (loop sys)).1 = false →
  let began := handleTaskError_begin i (loop sys) in
  segment sys (Settle o now) =
    (if began.1 then {| loop := began.2; control := Backoff i rest |}
     else continue now rest began.2) ∧
  status task = processing ∧ NoDup rest ∧ Forall (pending_at began.2) rest ∧
  budget_ok began.2 ∧ owned_ok began.2 ∧ registry_ok began.2.
Proof.
  intros (Hb & Hc & Hown & Hreg) Ec Hti Hfail. cbv zeta.
  unfold control_ok in Hc. rewrite Ec, Hti in Hc. destruct Hc as (Hi & Hrest & Hnd).
  injection Hi as Hi. apply NoDup_cons in Hnd as [Hni Hnd].
  split.
  { cbn [segment]. rewrite Ec. pose proof (executeTask_fails o i (loop sys) Hfail) as Hsame.
    destruct (executeTask o i (loop sys)) as [ok l2]. cbn [fst snd] in *. subst ok l2.
    by destruct (handleTaskError_begin i (loop sys)) as [[|] l3]. }
  split; [done|]. split; [done|].
  destruct (handleTaskError_begin_sleeping i (loop sys) task Hti) as (Hsl & Hyes & Hno).
  assert (Hnew : ∀ task', taskQueue (handleTaskError_begin i (loop sys)).2 !! i = Some task' →
            within_budget task').
  { intros task' Ht'. destruct (handleTaskError_begin i (loop sys)).1 eqn:E.
    - rewrite (Hyes eq_refl) in Ht'. cbn [taskQueue sleep set_taskQueue] in Ht'.
      rewrite list_lookup_insert_eq in Ht' by (by eapply lookup_lt_Some).
      injection Ht' as <-. intros _. cbn [retries maxRetries incr_retries].
      symmetry in Hsl. by apply Nat.leb_le in Hsl.
    - rewrite (Hno eq_refl), (handleTaskError_queue _ _ _ Hti), <- Hsl in Ht'.
      rewrite list_lookup_insert_eq in Ht' by (by eapply lookup_lt_Some).
      injection Ht' as <-. by intros H. }
  assert (Hnf : (status <$> taskQueue (loop sys) !! i) ≠ Some failed)
    by (rewrite Hti; simpl; by rewrite Hi).
  destruct (rewrites_inv i (loop sys) _ rest
              (rewrites_handleTaskError_begin i (loop sys) task Hti)
              (handleTaskError_begin_sessions i (loop sys))
              (handleTaskError_begin_users i (loop sys)) Hnew Hnf Hb Hown Hreg Hrest Hni)
    as (Hb' & Hown' & Hreg' & Hp' & _ & _).
  done.
Qed.

(** In a state the loop reaches on routed messages, a task has a session
    to report to: the one registered under its user id, which is the one
    it was created with and a session of that user. *)
Lemma owner_found sys t :
  inv sys → named (loop sys) → t ∈ taskQueue (loop sys) →
  ∃ r session,
    notified (loop sys) t = Some (r, session) ∧
    activeSessions (loop sys) !! d_userId (data t) = Some r ∧
    heap (loop sys) !! r = Some session ∧
    userId session = d_userId (data t) ∧
    (∀ r', d_session (data t) = Some r' → r' = r).
Proof.
  intros (_ & _ & [Hlive Hown] & Hreg) Hn Ht.
  unfold named in Hn. rewrite Forall_forall in Hn, Hown.
  destruct (Hown _ Ht) as (r & Hr & Hd). destruct (Hreg _ _ Hr) as (s & Hs & Hu).
  exists r, s. unfold notified. rewrite (Hn _ Ht), Hr. simpl. rewrite Hs. by repeat split.
Qed.

(** **** Where a failed task comes from *)

Lemma insert_member {A} (i : nat) (x t : A) (q : list A) :
  t ∈ <[i := x]> q → t ∈ q ∨ t = x.
Proof.
  intros Ht. apply list_elem_of_lookup in Ht as [j Hj].
  destruct (decide (i = j)) as [->|Hne].
  - destruct (decide (j < length q)) as [Hlt|Hge].
    + rewrite list_lookup_insert_eq in Hj by done. right. congruence.
    + rewrite list_insert_ge in Hj by lia. left. by eapply list_elem_of_lookup_2.
  - rewrite list_lookup_insert_ne in Hj by done. left. by eapply list_elem_of_lookup_2.
Qed.

Lemma update_member {A} (i : nat) (f : A → A) (t : A) (q : list A) :
  t ∈ update i f q → t ∈ q ∨ ∃ x, q !! i = Some x ∧ t = f x.
Proof.
  unfold update. destruct (q !! i) as [x|] eqn:Hi; [|by left].
  intros Ht. apply insert_member in Ht as [Ht| ->]; [by left|]. right. by exists x.
Qed.

Lemma sweep_members now l t : t ∈ taskQueue (sweep now l) → t ∈ taskQueue l.
Proof.
  unfold sweep, cleanupCompletedTasks. destruct (100 <? _); [|done].
  cbn [taskQueue set_taskQueue maintainActiveSessions set_activeSessions].
  intros Ht. apply list_elem_of_In, filter_In in Ht as [Ht _]. by apply list_elem_of_In.
Qed.

Lemma sweep_heap now l : heap (sweep now l) = heap l ∧ slept (sweep now l) = slept l.
Proof. unfold sweep, cleanupCompletedTasks. by destruct (100 <? _). Qed.

Lemma continue_heap now rest l :
  heap (loop (continue now rest l)) = heap l ∧ slept (loop (continue now rest l)) = slept l.
Proof. destruct rest; [apply sweep_heap|done]. Qed.

Lemma continue_members now rest l t :
  t ∈ taskQueue (loop (continue now rest l)) → status t = failed → t ∈ taskQueue l.
Proof.
  destruct rest as [|i rest]; cbn [continue loop].
  - intros Ht _. by eapply sweep_members.
  - cbn [taskQueue set_taskQueue]. intros Ht Hf.
    apply update_member in Ht as [Ht|(x & _ & ->)]; [done|]. done.
Qed.

(** A task is [failed] after a stretch only when it was before, or when
    the stretch is the return of a failed [executeTask] for a task whose
    retries are used up. *)
Lemma segment_failed_source sys e t :
  inv sys → t ∈ taskQueue (loop (segment sys e)) → status t = failed →
  t ∈ taskQueue (loop sys) ∨
  ∃ o now i rest task,
    e = Settle o now ∧ control sys = Executing i rest ∧
    taskQueue (loop sys) !! i = Some task ∧ (executeTask o i (loop sys)).1 = false ∧
    maxRetries task < S (retries task) ∧ t = set_status failed (incr_retries task).
Proof.
  intros Hinv Ht Hf. pose proof Hinv as (Hb & Hc & Hown & Hreg).
  destruct e as [now userId message|session response|now|o now|now].
  - cbn [segment loop] in Ht.
    destruct (handleChatMessage_begin_queue now userId message (loop sys))
      as (t0 & Hq & [Hs _] & _).
    rewrite Hq in Ht. apply elem_of_app in Ht as [Ht|Ht]; [by left|].
    apply list_elem_of_singleton in Ht as ->. congruence.
  - cbn [segment loop] in Ht. by left.
  - cbn [segment] in Ht. destruct (control sys); [|by left..].
    left. by eapply continue_members.
  - cbn [segment] in Ht. destruct (control sys) as [|i rest|i rest] eqn:Ec; [by left| |by left].
    unfold control_ok in Hc. rewrite Ec in Hc. destruct Hc as (Hi & _ & _).
    destruct (taskQueue (loop sys) !! i) as [task|] eqn:Hti; [|done]. injection Hi as Hi.
    destruct (executeTask_queue o i (loop sys) task Hti) as (extra & Hq & Hextra).
    pose proof (executeTask_fails o i (loop sys)) as Hsame.
    destruct (executeTask o i (loop sys)) as [[|] l2] eqn:Eex; cbn [fst snd] in *.
    + apply continue_members in Ht; [|done]. cbn [taskQueue set_taskQueue] in Ht.
      apply update_member in Ht as [Ht|(x & _ & ->)]; [|done].
      rewrite Hq in Ht. apply elem_of_app in Ht as [Ht|Ht]; [by left|].
      rewrite Forall_forall in Hextra. destruct (Hextra _ Ht) as [[Hs _] _]. congruence.
    + rewrite (Hsame eq_refl) in Ht.
      destruct (handleTaskError_begin_sleeping i (loop sys) task Hti) as (Hsl & Hyes & Hno).
      destruct (handleTaskError_begin i (loop sys)) as [[|] l3]; cbn [fst snd] in *.
      * rewrite (Hyes eq_refl) in Ht. cbn [loop taskQueue sleep set_taskQueue] in Ht.
        apply insert_member in Ht as [Ht| ->]; [by left|].
        cbn [status incr_retries] in Hf. congruence.
      * apply continue_members in Ht; [|done].
        rewrite (Hno eq_refl), (handleTaskError_queue _ _ _ Hti), <- Hsl in Ht.
        apply insert_member in Ht as [Ht| ->]; [by left|].
        right. exists o, now, i, rest, task. rewrite Eex. repeat split; try done.
        symmetry in Hsl. by apply Nat.leb_gt in Hsl.
  - cbn [segment] in Ht. destruct (control sys) as [|i rest|i rest]; [by left..|].
    apply continue_members in Ht; [|done].
    cbn [handleTaskError_end taskQueue set_taskQueue] in Ht.
    apply update_member in Ht as [Ht|(x & _ & ->)]; [by left|done].
Qed.

(** **** The retry limit and the notice *)

(** C2. The loop is followed stretch by stretch, with messages arriving
    and being answered between any two stretches, each message under a
    user id as the chat endpoint requires. In every state so reached: a
    task that is not failed has [retries ≤ maxRetries]; the tasks a round
    selects are pending ones, and the task being run is [processing]; a
    failed task stays in the queue as it is, whatever follows. When
    [executeTask] fails for the task being run, [retries] is incremented.
    Within the limit the loop sleeps, the queue and the sessions being
    otherwise as they were, and after the sleep the task is pending again.
    Beyond the limit the task is [failed] from this stretch on, the session
    registered under its user id exists, belongs to that user and is the
    session the task was created with, and the stretch appends the apology
    turn, an assistant turn with a fixed text, to the history of that
    session and does nothing else to any session. No task becomes [failed]
    in any other way. *)
Theorem failure_escalation_and_notice (es : list Segment) (Hes : routed es) :
  let sys := run es init in
  let l := loop sys in
  (∀ t, t ∈ taskQueue l → status t ≠ failed → retries t ≤ maxRetries t) ∧
  (∀ i, i ∈ pendingTasks l → (status <$> taskQueue l !! i) = Some pending) ∧
  (∀ i rest, control sys = Executing i rest ∨ control sys = Backoff i rest →
     (status <$> taskQueue l !! i) = Some processing ∧
     Forall (λ j, (status <$> taskQueue l !! j) = Some pending) rest) ∧
  (∀ es' t, t ∈ taskQueue l → status t = failed → t ∈ taskQueue (loop (run es' sys))) ∧
  (∀ i rest task o now,
     control sys = Executing i rest → taskQueue l !! i = Some task →
     (executeTask o i l).1 = false →
     let sys' := segment sys (Settle o now) in
     activeSessions (loop sys') = activeSessions l ∧
     if S (retries task) <=? maxRetries task then
       sys' = {| loop := sleep (default 0%Z (retryDelay (S (retries task))))
                           (set_taskQueue (<[i := incr_retries task]> (taskQueue l)) l);
                 control := Backoff i rest |} ∧
       ∀ now', segment sys' (Resume now') =
                 continue now' rest
                   (set_taskQueue (<[i := set_status pending (incr_retries task)]> (taskQueue l))
                      (loop sys'))
     else
       ∃ r session,
         activeSessions l !! d_userId (data task) = Some r ∧
         heap l !! r = Some session ∧
         userId session = d_userId (data task) ∧
         (∀ r', d_session (data task) = Some r' → r' = r) ∧
         set_status failed (incr_retries task) ∈ taskQueue (loop sys') ∧
         slept (loop sys') = slept l ∧
         heap (loop sys') = <[r := push_turn assistant apology session]> (heap l) ∧
         (conversationHistory <$> heap (loop sys') !! r) =
           Some (conversationHistory session ++ [(assistant, apology)])) ∧
  (∀ e t, t ∈ taskQueue (loop (segment sys e)) → status t = failed →
     t ∈ taskQueue l ∨
     ∃ o now i rest task,
       e = Settle o now ∧ control sys = Executing i rest ∧ taskQueue l !! i = Some task ∧
       (executeTask o i l).1 = false ∧ maxRetries task < S (retries task) ∧
       t = set_status failed (incr_retries task)) ∧
  apology = "I encountered an issue with your request. Let me try a different approach...".
Proof.
  cbv zeta.
  assert (Hinv : inv (run es init)) by apply run_inv, inv_init.
  assert (Hnamed : named (loop (run es init))).
  { apply run_named; [apply inv_init|constructor|done]. }
  pose proof Hinv as (Hb & Hc & Hown & Hreg).
  split; [|split; [|split; [|split; [|split; [|split; [|done]]]]]].
  - intros t Ht. unfold budget_ok in Hb. rewrite Forall_forall in Hb. by apply Hb.
  - intros i Hi. destruct (pendingTasks_pending (loop (run es init))) as [_ Hp].
    rewrite Forall_forall in Hp. by apply Hp.
  - intros i rest Hctl. unfold control_ok in Hc.
    destruct Hctl as [Ec|Ec]; rewrite Ec in Hc; by destruct Hc as (Hi & Hrest & _).
  - intros es' t. by apply run_failed_stay.
  - intros i rest task o now Ec Hti Hfail.
    destruct (settle_failed _ i rest task o now Hinv Ec Hti Hfail)
      as (Hseg & Hproc & Hnd & Hrest & Hb3 & Hown3 & Hreg3).
    destruct (handleTaskError_begin_sleeping i _ task Hti) as (Hsl & Hyes & Hno).
    rewrite Hseg. rewrite Hsl.
    destruct (S (retries task) <=? maxRetries task) eqn:E.
    + rewrite (Hyes Hsl). split; [done|]. split; [done|].
      intros now'. cbn [segment control loop]. f_equal.
      unfold handleTaskError_end, update. cbn [taskQueue sleep set_taskQueue].
      rewrite list_lookup_insert_eq by (by eapply lookup_lt_Some).
      by rewrite list_insert_insert_eq.
    + apply Nat.leb_gt in E.
      destruct (continue_inv now rest _ Hnd Hrest Hb3 Hown3 Hreg3)
        as (_ & Hstay & _ & Hheap & Hact).
      rewrite (Hno Hsl) in Hstay, Hheap, Hact |- *.
      assert (Hin : task ∈ taskQueue (loop (run es init))) by (by eapply list_elem_of_lookup_2).
      destruct (owner_found _ task Hinv Hnamed Hin) as (r & session & Hnot & Hr & Hs & Hu & Hd).
      pose proof (handleTaskError_fail _ _ _ Hti E) as Hfl. rewrite Hnot in Hfl.
      rewrite Hfl in Hstay, Hheap, Hact |- *.
      rewrite Hact, Hheap. rewrite (proj2 (continue_heap now rest _)).
      cbn [activeSessions heap slept set_heap set_taskQueue].
      split; [done|]. exists r, session. do 4 (split; [done|]).
      split.
      { apply Hstay; [|done]. cbn [taskQueue set_heap set_taskQueue].
        apply list_elem_of_lookup. exists i. apply list_lookup_insert_eq.
        by eapply lookup_lt_Some. }
      split; [done|]. split; [done|].
      rewrite list_lookup_insert_eq by (by eapply lookup_lt_Some). done.
  - intros e t. by apply segment_failed_source.
Qed.

(** A generation request that fails four times: the fourth failure is
    beyond the limit of three retries and is reported to the user's
    session. *)
Lemma failure_escalation_and_notice_witness :
  let es := [ Arrive 1 "u1" "build me a todo app";
              Wake 2; Settle (always_failing 2 0) 2; Resume 2;
              Wake 3; Settle (always_failing 3 0) 3; Resume 3;
              Wake 4; Settle (always_failing 4 0) 4; Resume 4;
              Wake 5 ] in
  let sys := run es init in
  let sys' := segment sys (Settle (always_failing 5 0) 5) in
  routed es ∧
  ∃ r session,
    activeSessions (loop sys) !! "u1" = Some r ∧ heap (loop sys) !! r = Some session ∧
    heap (loop sys') = <[r := push_turn assistant apology session]> (heap (loop sys)) ∧
    (conversationHistory <$> heap (loop sys') !! r) =
      Some (conversationHistory session ++ [(assistant, apology)]).
Proof.
  cbv zeta.
  set (es := [ Arrive 1 "u1" "build me a todo app";
               Wake 2; Settle (always_failing 2 0) 2; Resume 2;
               Wake 3; Settle (always_failing 3 0) 3; Resume 3;
               Wake 4; Settle (always_failing 4 0) 4; Resume 4;
               Wake 5 ]).
  assert (Hes : routed es) by (repeat constructor).
  split; [exact Hes|].
  set (task := {| id := "app_1_u1"; type := file_generation;
                  data := {| d_userId := "u1"; d_message := "build me a todo app";
                             d_session := Some 0; d_projectId := None;
                             d_previewUrl := None |};
                  retries := 3; maxRetries := 3; priority := high; status := processing |}).
  assert (E1 : control (run es init) = Executing 0 []) by (by vm_compute).
  assert (E2 : taskQueue (loop (run es init)) !! 0 = Some task) by (by vm_compute).
  assert (E3 : (executeTask (always_failing 5 0) 0 (loop (run es init))).1 = false)
    by (by vm_compute).
  destruct (proj1 (proj2 (proj2 (proj2 (proj2 (failure_escalation_and_notice es Hes)))))
              0 [] task (always_failing 5 0) 5%Z E1 E2 E3)
    as (_ & r & session & Hr & Hs & _ & _ & _ & _ & Hheap & Hhist).
  exists r, session. by repeat split.
Defined.

(** **** Sessions while messages and the loop interleave *)

(** Session objects stay where they are and their histories only grow. *)
Definition extends (h h' : list ChatSession) : Prop :=
  ∀ r s, h !! r = Some s →
    ∃ s', h' !! r = Some s' ∧ conversationHistory s `prefix_of` conversationHistory s'.

(** ... and registered sessions stay registered. *)
Definition grows (l l' : Loop) : Prop :=
  (∀ uid r, activeSessions l !! uid = Some r → activeSessions l' !! uid = Some r) ∧
  extends (heap l) (heap l').

Lemma extends_refl h : extends h h.
Proof. intros r s Hr. by exists s. Qed.

Lemma extends_trans h1 h2 h3 : extends h1 h2 → extends h2 h3 → extends h1 h3.
Proof.
  intros H12 H23 r s Hr. destruct (H12 _ _ Hr) as (s2 & Hr2 & Hs2).
  destruct (H23 _ _ Hr2) as (s3 & Hr3 & Hs3). exists s3. split; [done|].
  by etrans.
Qed.

Lemma extends_update r f h :
  (∀ s, conversationHistory s `prefix_of` conversationHistory (f s)) →
  extends h (update r f h).
Proof.
  intros Hf r0 s0 Hr0. destruct (decide (r = r0)) as [->|Hne].
  - exists (f s0). split; [by apply update_Some|by apply Hf].
  - exists s0. split; [by rewrite update_ne|done].
Qed.

Lemma extends_push r role text h : extends h (update r (push_turn role text) h).
Proof. apply extends_update. intros s. by apply prefix_app_r. Qed.

Lemma grows_refl l : grows l l.
Proof. split; [done|apply extends_refl]. Qed.

Lemma grows_trans l1 l2 l3 : grows l1 l2 → grows l2 l3 → grows l1 l3.
Proof.
  intros [Ha Hh] [Ha' Hh']. split; [|by eapply extends_trans].
  intros uid r Hr. by apply Ha', Ha.
Qed.

Lemma grows_same l l' :
  activeSessions l' = activeSessions l → extends (heap l) (heap l') → grows l l'.
Proof. intros Ha Hh. split; [|done]. intros uid r. by rewrite Ha. Qed.

Lemma executeTask_extends o i l : extends (heap l) (heap (executeTask o i l).2).
Proof.
  unfold executeTask. destruct (taskQueue l !! i) as [task|] eqn:Hi; simpl;
    [|apply extends_refl].
  destruct (type task); [| |apply extends_refl].
  - unfold executeChatTask. rewrite Hi. destruct (d_session _); [|apply extends_refl].
    simpl. apply extends_push.
  - unfold executeFileGeneration. rewrite Hi. cbv zeta.
    destruct (success (o_result o)), (files (o_result o)), (d_session (data task));
      try apply extends_refl.
    destruct (truthy_opt (r_projectId (o_result o)) && truthy_opt (r_previewUrl (o_result o)));
      simpl.
    + eapply extends_trans; [|apply extends_push].
      eapply extends_trans; by apply extends_update.
    + eapply extends_trans; [|apply extends_push]. by apply extends_update.
Qed.

Lemma handleTaskError_extends i l : extends (heap l) (heap (handleTaskError i l)).
Proof.
  unfold handleTaskError. destruct (taskQueue l !! i) as [task|]; [|apply extends_refl].
  destruct (_ <=? _); [apply extends_refl|].
  destruct (truthy _); [|apply extends_refl]. simpl.
  destruct (activeSessions l !! _); [|apply extends_refl].
  simpl. apply extends_push.
Qed.

Lemma handleTaskError_begin_extends i l :
  extends (heap l) (heap (handleTaskError_begin i l).2).
Proof.
  unfold handleTaskError_begin. destruct (taskQueue l !! i) as [task|]; [|apply extends_refl].
  cbv zeta. destruct (_ <=? _); [simpl; apply extends_refl|]. apply handleTaskError_extends.
Qed.

Lemma continue_sessions now rest l :
  sessions_live l → activeSessions (loop (continue now rest l)) = activeSessions l.
Proof.
  intros Hlive. destruct rest; [|done]. cbn [continue loop]. unfold sweep.
  rewrite maintainActiveSessions_live by done.
  unfold cleanupCompletedTasks. by destruct (100 <? _).
Qed.

Lemma continue_grows now rest l : sessions_live l → grows l (loop (continue now rest l)).
Proof.
  intros Hlive. apply grows_same; [by apply continue_sessions|].
  rewrite (proj1 (continue_heap now rest l)). apply extends_refl.
Qed.

(** The state in which [handleChatMessage] returns or awaits: the session
    of the user, made if there was none, holds the user's turn behind what
    it held, and nothing else has changed in any session. *)
Lemma handleChatMessage_begin_session now uid message l :
  registry_ok l →
  let began := handleChatMessage_begin now uid message l in
  let r := began.1.2 in
  let before := getSession uid l in
  began.1.1 = isAppGenerationRequest message ∧
  activeSessions began.2 !! uid = Some r ∧
  r = default (length (heap l)) (activeSessions l !! uid) ∧
  (∃ s, heap began.2 !! r = Some (push_turn user message s) ∧
        userId s = uid ∧
        conversationHistory s = default [] (conversationHistory <$> before) ∧
        activeFiles s = default ∅ (activeFiles <$> before) ∧
        projectId s = default None (projectId <$> before)) ∧
  (∀ uid', uid' ≠ uid → getSession uid' began.2 = getSession uid' l) ∧
  (∀ r' s', r' ≠ r → heap l !! r' = Some s' → heap began.2 !! r' = Some s') ∧
  grows l began.2.
Proof.
  intros Hreg. cbv zeta.
  destruct (handleChatMessage_begin_spec now uid message l) as (t & -> & _).
  cbn [fst snd activeSessions heap].
  destruct (session_for_lookup uid l (or_intror Hreg)) as (s & Hs & Hold & Hcase).
  set (r := (session_for uid l).1) in *.
  assert (Hr : r = default (length (heap l)) (activeSessions l !! uid)).
  { unfold r, session_for. by destruct (activeSessions l !! uid). }
  assert (Hfacts : userId s = uid ∧
            conversationHistory s = default [] (conversationHistory <$> getSession uid l) ∧
            activeFiles s = default ∅ (activeFiles <$> getSession uid l) ∧
            projectId s = default None (projectId <$> getSession uid l)).
  { unfold getSession. destruct (activeSessions l !! uid) as [r0|] eqn:Hu.
    - simpl. destruct (Hreg _ _ Hu) as (s0 & Hs0 & Hid). rewrite Hs0. simpl.
      assert (s = s0) by congruence. by subst s0.
    - simpl. by subst s. }
  assert (Hother : ∀ uid' r', uid' ≠ uid → activeSessions l !! uid' = Some r' → r' ≠ r).
  { intros uid' r' Hne Hu' ->. destruct (Hreg _ _ Hu') as (s' & Hs' & Hid').
    destruct (activeSessions l !! uid) as [r0|] eqn:Hu.
    - simpl in Hr. subst r0. destruct (Hreg _ _ Hu) as (s0 & Hs0 & Hid0). congruence.
    - simpl in Hr. apply lookup_lt_Some in Hs'. lia. }
  split; [done|]. split; [by rewrite lookup_insert_eq|]. split; [done|].
  split; [exists s; split; [by apply update_Some|done]|].
  split; [|split; [|split]].
  - intros uid' Hne. unfold getSession. cbn [activeSessions heap].
    rewrite lookup_insert_ne by done.
    destruct (activeSessions l !! uid') as [r'|] eqn:Hu'; [|done]. simpl.
    rewrite update_ne by (intros ->; by eapply Hother).
    destruct (Hreg _ _ Hu') as (s' & Hs' & _). rewrite Hs'. by apply Hold.
  - intros r' s' Hne Hs'. rewrite update_ne by done. by apply Hold.
  - intros uid' r' Hu'. cbn [activeSessions]. destruct (decide (uid' = uid)) as [->|Hne].
    + rewrite lookup_insert_eq. rewrite Hu' in Hr. simpl in Hr. congruence.
    + by rewrite lookup_insert_ne.
  - cbn [heap]. eapply extends_trans; [|apply extends_push].
    intros r' s' Hs'. exists s'. split; [by apply Hold|done].
Qed.

(** Under every stretch registered sessions stay registered and histories
    only grow. *)
Lemma segment_grows sys e : inv sys → grows (loop sys) (loop (segment sys e)).
Proof.
  intros (Hb & Hc & [Hlive Hown] & Hreg).
  destruct e as [now userId message|session response|now|o now|now].
  - cbn [segment loop]. by apply handleChatMessage_begin_session.
  - cbn [segment loop]. apply grows_same; [done|]. apply extends_push.
  - cbn [segment]. destruct (control sys); [|apply grows_refl..].
    by apply continue_grows.
  - cbn [segment]. destruct (control sys) as [|i rest|i rest]; [apply grows_refl| |apply grows_refl].
    pose proof (executeTask_sessions o i (loop sys)) as Hs2.
    pose proof (executeTask_extends o i (loop sys)) as He2.
    destruct (executeTask o i (loop sys)) as [ok l2]. cbn [snd] in Hs2, He2.
    assert (G2 : grows (loop sys) l2) by (destruct Hs2; by apply grows_same).
    assert (L2 : sessions_live l2) by (by eapply sessions_live_same).
    destruct ok.
    + eapply grows_trans; [exact G2|]. eapply grows_trans; [|by apply continue_grows].
      apply grows_same; [done|apply extends_refl].
    + pose proof (handleTaskError_begin_sessions i l2) as Hs3.
      pose proof (handleTaskError_begin_extends i l2) as He3.
      destruct (handleTaskError_begin i l2) as [sleeping l3]. cbn [snd] in Hs3, He3.
      assert (G3 : grows l2 l3) by (destruct Hs3; by apply grows_same).
      assert (L3 : sessions_live l3) by (by eapply sessions_live_same).
      eapply grows_trans; [exact G2|]. destruct sleeping; [done|].
      eapply grows_trans; [exact G3|]. by apply continue_grows.
  - cbn [segment]. destruct (control sys) as [|i rest|i rest]; [apply grows_refl..|].
    eapply grows_trans; [|by apply continue_grows].
    apply grows_same; [done|apply extends_refl].
Qed.

Lemma run_grows es : ∀ sys, inv sys → grows (loop sys) (loop (run es sys)).
Proof.
  induction es as [|e es IH]; intros sys Hinv; [apply grows_refl|].
  change (run (e :: es) sys) with (run es (segment sys e)).
  eapply grows_trans; [by apply segment_grows|]. apply IH. by apply segment_inv.
Qed.

(** X14. A message is filed under its user only. When [handleChatMessage]
    returns (a generation request) or awaits its reply (any other message),
    the session of the user, created on the first message and reused
    afterwards, holds the user's turn behind what it held, with its files
    and project id unchanged, and the sessions of all other users are
    exactly as before. While the reply is awaited the loop may run and
    other messages may arrive and be answered: the session stays registered
    under the user and its history only grows. The reply is then appended
    as the last turn of that session and nothing else changes. With nothing
    in between, this is the whole call. *)
Theorem message_updates_own_session (es mid : list Segment) (now : Z)
    (response uid message : string) :
  let sys := run es init in
  let l := loop sys in
  let began := handleChatMessage_begin now uid message l in
  let r := began.1.2 in
  let arrived := segment sys (Arrive now uid message) in
  let before := getSession uid l in
  let turns := default [] (conversationHistory <$> before) ++ [(user, message)] in
  began.1.1 = isAppGenerationRequest message ∧
  loop arrived = began.2 ∧ control arrived = control sys ∧
  r = default (length (heap l)) (activeSessions l !! uid) ∧
  activeSessions (loop arrived) !! uid = Some r ∧
  (conversationHistory <$> getSession uid (loop arrived)) = Some turns ∧
  (activeFiles <$> getSession uid (loop arrived)) = Some (default ∅ (activeFiles <$> before)) ∧
  (projectId <$> getSession uid (loop arrived)) = Some (default None (projectId <$> before)) ∧
  (∀ uid', uid' ≠ uid → getSession uid' (loop arrived) = getSession uid' l) ∧
  (let later := run mid arrived in
   let answered := segment later (Answer r response) in
   ∃ s, activeSessions (loop later) !! uid = Some r ∧
        heap (loop later) !! r = Some s ∧
        turns `prefix_of` conversationHistory s ∧
        heap (loop answered) = <[r := push_turn assistant response s]> (heap (loop later)) ∧
        getSession uid (loop answered) = Some (push_turn assistant response s) ∧
        conversationHistory (push_turn assistant response s) =
          conversationHistory s ++ [(assistant, response)] ∧
        taskQueue (loop answered) = taskQueue (loop later) ∧
        activeSessions (loop answered) = activeSessions (loop later) ∧
        control answered = control later) ∧
  handleChatMessage now response uid message l =
    if isAppGenerationRequest message then (AppGeneration, loop arrived)
    else (Chat response, loop (segment arrived (Answer r response))).
Proof.
  cbv zeta.
  assert (Hinv : inv (run es init)) by apply run_inv, inv_init.
  pose proof Hinv as (_ & _ & _ & Hreg).
  destruct (handleChatMessage_begin_session now uid message _ Hreg)
    as (Happ & Hact & Hr & (s & Hs & Hid & Hhist & Hfiles & Hproj) & Hother & _ & _).
  set (l := loop (run es init)) in *.
  set (began := handleChatMessage_begin now uid message l) in *.
  set (arrived := segment (run es init) (Arrive now uid message)).
  assert (Hl : loop arrived = began.2) by done.
  assert (Hget : getSession uid began.2 = Some (push_turn user message s)).
  { unfold getSession. rewrite Hact. simpl. exact Hs. }
  split; [done|]. split; [done|]. split; [done|]. split; [done|].
  rewrite Hl. split; [done|]. rewrite Hget. cbn [fmap option_fmap option_map].
  split; [cbn [conversationHistory push_turn]; by rewrite Hhist|].
  split; [cbn [activeFiles push_turn]; by rewrite Hfiles|].
  split; [cbn [projectId push_turn]; by rewrite Hproj|].
  split; [done|]. split.
  - assert (Hinv' : inv arrived) by (by apply segment_inv).
    destruct (run_grows mid arrived Hinv') as [Hkeep Hext].
    rewrite Hl in Hkeep, Hext.
    destruct (Hext _ _ Hs) as (s' & Hs' & Hpre).
    exists s'. split; [by apply Hkeep|]. split; [done|].
    split; [cbn [conversationHistory push_turn] in Hpre; by rewrite Hhist in Hpre|].
    cbn [segment loop control]. unfold handleChatMessage_end.
    cbn [heap set_heap taskQueue activeSessions].
    rewrite (update_lookup _ _ _ _ Hs').
    split; [done|]. split; [|done].
    unfold getSession. cbn [activeSessions heap set_heap]. rewrite (Hkeep _ _ Hact). simpl.
    apply list_lookup_insert_eq. by eapply lookup_lt_Some.
  - rewrite handleChatMessage_uninterrupted. fold began. rewrite <- Happ.
    cbn [segment loop]. rewrite Hl.
    by destruct began as [[[|] session] l3].
Qed.

(** X15. Asking for the status of a task by id finds the first task with
    that id. Once [handleChatMessage] has queued its task, where it returns
    for a generation request and awaits the reply for any other message,
    the new task answers [pending] under its id when no queued task had
    that id; when one had, the new task is hidden behind it and the answer
    is the old task's status. Every other id answers as before, and an id
    no task carries answers nothing. The reply, when it comes, changes no
    answer. *)
Theorem task_status_after_message (now : Z) (uid message : string) (l : Loop) :
  let l' := (handleChatMessage_begin now uid message l).2 in
  let tid := task_id now uid message in
  getTaskStatus tid l' = Some (default pending (getTaskStatus tid l)) ∧
  (∀ other, other ≠ tid → getTaskStatus other l' = getTaskStatus other l) ∧
  (∀ other l0, (∀ t, t ∈ taskQueue l0 → id t ≠ other) → getTaskStatus other l0 = None) ∧
  (∀ other session response l0,
     getTaskStatus other (handleChatMessage_end session response l0) = getTaskStatus other l0).
Proof.
  cbv zeta.
  destruct (handleChatMessage_begin_queue now uid message l) as (t & Hq & [Hs _] & _ & Hid).
  unfold getTaskStatus. rewrite Hq. split; [|split; [|split]].
  - rewrite find_snoc. destruct (List.find _ (taskQueue l)); [done|].
    rewrite Hid, String.eqb_refl. simpl. by rewrite Hs.
  - intros other Hne. rewrite find_snoc. destruct (List.find _ (taskQueue l)); [done|].
    rewrite Hid. by rewrite (proj2 (String.eqb_neq _ _)).
  - intros other l0 Hall. destruct (List.find _ (taskQueue l0)) as [t0|] eqn:E; [|done].
    apply find_some in E as [Hin Heq]. apply String.eqb_eq in Heq.
    apply list_elem_of_In in Hin. by destruct (Hall _ Hin).
  - done.
Qed.

End AILoop.

(* ===================================================================== *)
(** ** The preview registry of server/comprehensive-ai-service.ts *)
(* ===================================================================== *)

Module Lang.

(** An entry of [languageConfigs]. *)
Record Config := {
  ext : string;
  buildCmd : option string;
  runCmd : option string;
  port : bool }.

Definition config (ext : string) (buildCmd runCmd : option string) (port : bool) : Config :=
  {| ext := ext; buildCmd := buildCmd; runCmd := runCmd; port := port |}.

End Lang.

Module Preview.
Import JsString.

Definition languageConfigs : gmap string Lang.Config :=
  list_to_map
    [ ("html", Lang.config ".html" None (Some "serve") true);
      ("css", Lang.config ".css" None None false);
      ("javascript", Lang.config ".js" (Some "npm run build") (Some "npm run dev") true);
      ("typescript", Lang.config ".ts" (Some "npm run build") (Some "npm run dev") true);
      ("react", Lang.config ".tsx" (Some "npm run build") (Some "npm run dev") true);
      ("vue", Lang.config ".vue" (Some "npm run build") (Some "npm run dev") true);
      ("angular", Lang.config ".ts" (Some "ng build") (Some "ng serve") true);
      ("node", Lang.config ".js" (Some "npm run build") (Some "npm start") true);
      ("python", Lang.config ".py" None (Some "python main.py") true);
      ("java", Lang.config ".java" (Some "mvn compile") (Some "mvn exec:java") true);
      ("csharp", Lang.config ".cs" (Some "dotnet build") (Some "dotnet run") true);
      ("cpp", Lang.config ".cpp" (Some "g++ -o main main.cpp") (Some "./main") false);
      ("go", Lang.config ".go" (Some "go build") (Some "go run main.go") true);
      ("ruby", Lang.config ".rb" None (Some "ruby main.rb") true);
      ("php", Lang.config ".php" None (Some "php -S localhost:8000") true);
      ("rust", Lang.config ".rs" (Some "cargo build") (Some "cargo run") true);
      ("swift", Lang.config ".swift" (Some "swift build") (Some "swift run") false);
      ("kotlin", Lang.config ".kt" (Some "kotlinc") (Some "kotlin") false);
      ("dart", Lang.config ".dart" (Some "flutter build") (Some "flutter run") true);
      ("flutter", Lang.config ".dart" (Some "flutter build web")
                    (Some "flutter run -d web-server") true);
      ("unity", Lang.config ".cs" None None false);
      ("unreal", Lang.config ".cpp" None None false);
      ("godot", Lang.config ".gd" None None false);
      ("r", Lang.config ".R" None (Some "Rscript main.R") false);
      ("sql", Lang.config ".sql" None None false);
      ("json", Lang.config ".json" None None false);
      ("yaml", Lang.config ".yaml" None None false);
      ("xml", Lang.config ".xml" None None false);
      ("markdown", Lang.config ".md" None None false);
      ("text", Lang.config ".txt" None None false) ].

(** The process behind a preview: [spawn('bash', ['-c', runCommand],
    { cwd })]. *)
Record ChildProcess := {
  command : string;
  cwd : string;
  killed : bool }.

(** [interface PreviewServer]; [process] is the handle, a position in the
    list of processes spawned so far. *)
Record PreviewServer := {
  id : string;
  port : Z;
  process : nat;
  projectPath : string;
  language : string }.

Record Service := {
  previewServers : gmap string PreviewServer;
  processes : list ChildProcess }.

Definition basePort : Z := 3001.

Definition init : Service := {| previewServers := ∅; processes := [] |}.

(** The string left after the first [n] characters. *)
Fixpoint skip (n : nat) (s : string) : string :=
  match n, s with
  | O, _ => s
  | S n', String _ s' => skip n' s'
  | S _, EmptyString => EmptyString
  end.

(** [s.replace(pattern, replacement)] for a string pattern: the first
    occurrence is replaced. *)
Fixpoint replace (pattern replacement s : string) : string :=
  if startsWith pattern s then replacement +:+ skip (String.length pattern) s
  else match s with
       | EmptyString => EmptyString
       | String c s' => String c (replace pattern replacement s')
       end.

Definition previewUrl (port : Z) : string := "http://localhost:" +:+ pretty port.

(** [startPreviewServer(projectId, projectPath, language)]; the result is
    what the promise resolves with, [None] for [undefined]. A language
    that is no key of [languageConfigs] has no [runCmd] either way, whether
    the lookup gives [undefined] or a member of [Object.prototype]. *)
Definition startPreviewServer (projectId projectPath language : string) (svc : Service)
  : option string * Service :=
  let langConfig := languageConfigs !! language in
  if negb (truthy_opt (langConfig ≫= Lang.runCmd)) ||
     negb (from_option Lang.port false langConfig)
  then (None, svc)
  else
    let port := (basePort + Z.of_nat (size (previewServers svc)))%Z in
    let runCommand := replace "3000" (pretty port) (default "" (langConfig ≫= Lang.runCmd)) in
    let process := length (processes svc) in
    let server :=
      {| id := projectId; port := port; process := process;
         projectPath := projectPath; language := language |} in
    (Some (previewUrl port),
     {| previewServers := <[projectId := server]> (previewServers svc);
        processes := processes svc ++
          [ {| command := runCommand; cwd := projectPath; killed := false |} ] |}).

Definition kill (p : ChildProcess) : ChildProcess :=
  {| command := command p; cwd := cwd p; killed := true |}.

(** [stopPreviewServer(projectId)] *)
Definition stopPreviewServer (projectId : string) (svc : Service) : Service :=
  match previewServers svc !! projectId with
  | Some server =>
      {| previewServers := delete projectId (previewServers svc);
         processes := alter kill (process server) (processes svc) |}
  | None => svc
  end.

(** [getActiveServers()]: [{ id, port, url, language }] of every
    registered server (the order of the [Map] is not modelled). *)
Definition getActiveServers (svc : Service) : list (string * Z * string * string) :=
  (λ server, (id server, port server, previewUrl (port server), language server))
    <$> (map_to_list (previewServers svc)).*2.

Inductive Event :=
| Launch (projectId projectPath language : string)
| Stop (projectId : string).

Definition step (svc : Service) (e : Event) : Service :=
  match e with
  | Launch projectId projectPath language =>
      snd (startPreviewServer projectId projectPath language svc)
  | Stop projectId => stopPreviewServer projectId svc
  end.

Definition run_events (es : list Event) (svc : Service) : Service := fold_left step es svc.

(** Two registered previews hold the same port. *)
Definition port_clash (svc : Service) : Prop :=
  ∃ id1 id2 s1 s2, id1 ≠ id2 ∧
    previewServers svc !! id1 = Some s1 ∧ previewServers svc !! id2 = Some s2 ∧
    port s1 = port s2.

(** *** Port allocation *)

(** Every registered port lies in [[basePort, basePort + size)]. *)
Definition ports_below (svc : Service) : Prop :=
  ∀ projectId s, previewServers svc !! projectId = Some s →
    (basePort ≤ port s < basePort + Z.of_nat (size (previewServers svc)))%Z.

Definition unique_ports (svc : Service) : Prop :=
  ∀ id1 id2 s1 s2, id1 ≠ id2 →
    previewServers svc !! id1 = Some s1 → previewServers svc !! id2 = Some s2 →
    port s1 ≠ port s2.

Lemma startPreviewServer_launched projectId projectPath language svc :
  truthy_opt (languageConfigs !! language ≫= Lang.runCmd) = true →
  from_option Lang.port false (languageConfigs !! language) = true →
  ∃ proc,
    startPreviewServer projectId projectPath language svc =
      (Some (previewUrl (basePort + Z.of_nat (size (previewServers svc)))),
       {| previewServers :=
            <[projectId := {| id := projectId;
                              port := basePort + Z.of_nat (size (previewServers svc));
                              process := length (processes svc);
                              projectPath := projectPath; language := language |}]>
              (previewServers svc);
          processes := processes svc ++ [proc] |}).
Proof.
  intros Hrun Hport. unfold startPreviewServer. cbv zeta. rewrite Hrun, Hport.
  cbn [negb orb]. by eexists.
Qed.

Lemma startPreviewServer_refused projectId projectPath language svc :
  truthy_opt (languageConfigs !! language ≫= Lang.runCmd) = false ∨
  from_option Lang.port false (languageConfigs !! language) = false →
  startPreviewServer projectId projectPath language svc = (None, svc).
Proof.
  intros H. unfold startPreviewServer. cbv zeta.
  destruct H as [-> | ->]; [done|]. by rewrite orb_true_r.
Qed.

(** As long as previews are only launched, each under a project id that
    is not registered yet, registered ports stay pairwise distinct. *)
Lemma launch_fresh_unique projectId projectPath language svc :
  previewServers svc !! projectId = None →
  ports_below svc → unique_ports svc →
  let svc' := snd (startPreviewServer projectId projectPath language svc) in
  ports_below svc' ∧ unique_ports svc'.
Proof.
  intros Hfresh Hbelow Huniq. cbv zeta.
  destruct (truthy_opt (languageConfigs !! language ≫= Lang.runCmd)) eqn:Hrun;
    [|by rewrite startPreviewServer_refused by (by left)].
  destruct (from_option Lang.port false (languageConfigs !! language)) eqn:Hport;
    [|by rewrite startPreviewServer_refused by (by right)].
  destruct (startPreviewServer_launched projectId projectPath language svc Hrun Hport)
    as [proc ->]. cbn [snd previewServers]. split.
  - intros pid s Hs. cbn [previewServers] in *. rewrite map_size_insert_None by done.
    destruct (decide (pid = projectId)) as [->|Hne].
    + rewrite lookup_insert_eq in Hs. injection Hs as <-. simpl. lia.
    + rewrite lookup_insert_ne in Hs by done. specialize (Hbelow _ _ Hs). lia.
  - intros id1 id2 s1 s2 Hne H1 H2. cbn [previewServers] in *.
    destruct (decide (id1 = projectId)) as [->|Hne1];
      destruct (decide (id2 = projectId)) as [->|Hne2]; try done.
    + rewrite lookup_insert_eq in H1. rewrite lookup_insert_ne in H2 by done.
      injection H1 as <-. simpl. specialize (Hbelow _ _ H2). lia.
    + rewrite lookup_insert_eq in H2. rewrite lookup_insert_ne in H1 by done.
      injection H2 as <-. simpl. specialize (Hbelow _ _ H1). lia.
    + rewrite lookup_insert_ne in H1, H2 by done. exact (Huniq _ _ _ _ Hne H1 H2).
Qed.

(** C1. Port allocation hands out a port that is still held: launch two
    previews, stop the first, launch a third. The registry then has size 1
    again, so the third launch is given [basePort + 1], the port the second
    preview still holds: two registered previews, both with a running
    process, share port 3002. *)
Theorem port_reused_after_stop :
  let svc :=
    run_events [ Launch "a" "/workspace/a" "node"; Launch "b" "/workspace/b" "node";
                 Stop "a"; Launch "c" "/workspace/c" "node" ] init in
  (port <$> previewServers svc !! "b") = Some 3002%Z ∧
  (port <$> previewServers svc !! "c") = Some 3002%Z ∧
  (killed <$> processes svc) = [true; false; false] ∧
  port_clash svc.
Proof.
  cbv zeta. split; [by vm_compute|]. split; [by vm_compute|]. split; [by vm_compute|].
  eexists "b", "c", _, _. split; [done|]. split; [by vm_compute|].
  split; [by vm_compute|]. reflexivity.
Qed.

(** C4 (as amended). A launch for a language whose configuration has no
    run command or no port requirement returns no address and leaves the
    registry and the processes as they were, so the listing of active
    previews is unchanged. That is not the case of ['html']: its
    configuration has the run command ['serve'] and requires a port, and a
    launch for it returns the address of the allocated port and registers
    the project id. *)
Theorem launch_without_run_command (projectId projectPath language : string) (svc : Service)
  (Hcfg : truthy_opt (languageConfigs !! language ≫= Lang.runCmd) = false ∨
          from_option Lang.port false (languageConfigs !! language) = false) :
  startPreviewServer projectId projectPath language svc = (None, svc) ∧
  getActiveServers (snd (startPreviewServer projectId projectPath language svc)) =
    getActiveServers svc ∧
  (languageConfigs !! "html" = Some (Lang.config ".html" None (Some "serve") true)) ∧
  (∀ svc0,
     let port := (basePort + Z.of_nat (size (previewServers svc0)))%Z in
     let svc' := snd (startPreviewServer projectId projectPath "html" svc0) in
     fst (startPreviewServer projectId projectPath "html" svc0) = Some (previewUrl port) ∧
     previewServers svc' !! projectId =
       Some {| id := projectId; port := port; process := length (processes svc0);
               projectPath := projectPath; language := "html" |}).
Proof.
  rewrite (startPreviewServer_refused _ _ _ _ Hcfg). cbn [snd].
  split; [done|]. split; [done|]. split; [by vm_compute|].
  intros svc0. cbv zeta.
  destruct (startPreviewServer_launched projectId projectPath "html" svc0) as [proc ->];
    [by vm_compute..|].
  cbn [fst snd previewServers]. split; [done|]. by rewrite lookup_insert_eq.
Qed.

(** The theorem at ['css'], whose configuration has no run command. *)
Lemma launch_without_run_command_witness :
  startPreviewServer "p1" "/workspace/p1" "css" init = (None, init).
Proof.
  refine (proj1 (launch_without_run_command "p1" "/workspace/p1" "css" init _)).
  left. by vm_compute.
Defined.

(** C4, as stated, fails: on the empty registry the launch of ["p1"] for
    ['html'] returns an address and the listing holds ["p1"]. *)
Lemma html_preview_is_launched :
  let r := startPreviewServer "p1" "/workspace/p1" "html" init in
  fst r = Some "http://localhost:3001" ∧
  getActiveServers (snd r) = [("p1", 3001%Z, "http://localhost:3001", "html")].
Proof. cbv zeta. split; by vm_compute. Qed.


(** *** Stopping previews *)

Lemma stopPreviewServer_absent projectId svc :
  previewServers svc !! projectId = None → stopPreviewServer projectId svc = svc.
Proof. intros H. unfold stopPreviewServer. by rewrite H. Qed.

Lemma stopPreviewServer_registry projectId svc :
  previewServers (stopPreviewServer projectId svc) = delete projectId (previewServers svc).
Proof.
  unfold stopPreviewServer. destruct (previewServers svc !! projectId) eqn:E; [done|].
  by rewrite delete_id.
Qed.

(** X17. Stopping a preview removes exactly that project id from the
    registry and marks its process killed; stopping an id that is not
    registered changes nothing, so a second stop is a no-op. Launching a
    preview under an id that is not registered and stopping it again puts
    the registry back as it was. *)
Theorem stop_contract (projectId : string) (svc : Service) :
  previewServers (stopPreviewServer projectId svc) = delete projectId (previewServers svc) ∧
  (∀ server, previewServers svc !! projectId = Some server →
     processes (stopPreviewServer projectId svc) = alter kill (process server) (processes svc)) ∧
  (previewServers svc !! projectId = None → stopPreviewServer projectId svc = svc) ∧
  stopPreviewServer projectId (stopPreviewServer projectId svc) =
    stopPreviewServer projectId svc ∧
  (∀ projectPath language,
     previewServers svc !! projectId = None →
     previewServers
       (stopPreviewServer projectId (startPreviewServer projectId projectPath language svc).2)
     = previewServers svc).
Proof.
  split; [apply stopPreviewServer_registry|]. split; [|split; [|split]].
  - intros server H. unfold stopPreviewServer. by rewrite H.
  - apply stopPreviewServer_absent.
  - apply stopPreviewServer_absent. rewrite stopPreviewServer_registry. apply lookup_delete_eq.
  - intros projectPath language Hnone. rewrite stopPreviewServer_registry.
    unfold startPreviewServer. cbv zeta.
    destruct (negb _ || negb _); cbn [snd previewServers].
    + by apply delete_id.
    + by rewrite delete_insert_eq, delete_id.
Qed.

(** *** Ports of previews that are only launched *)

Definition launch_ids (es : list Event) : list string :=
  omap (λ e, match e with Launch projectId _ _ => Some projectId | Stop _ => None end) es.

Definition only_launches (es : list Event) : Prop :=
  Forall (λ e, match e with Launch _ _ _ => True | Stop _ => False end) es.

Lemma launches_unique es svc :
  only_launches es → NoDup (launch_ids es) →
  (∀ projectId, projectId ∈ launch_ids es → previewServers svc !! projectId = None) →
  ports_below svc → unique_ports svc →
  ports_below (run_events es svc) ∧ unique_ports (run_events es svc).
Proof.
  revert svc. induction es as [|e es IH]; intros svc Hall Hnd Hfresh Hb Hu; [done|].
  apply Forall_cons in Hall as [He Hall]. destruct e as [pid path lang|]; [|done].
  cbn [launch_ids omap list_omap] in Hnd, Hfresh. apply NoDup_cons in Hnd as [Hni Hnd].
  change (run_events (Launch pid path lang :: es) svc)
    with (run_events es (startPreviewServer pid path lang svc).2).
  destruct (launch_fresh_unique pid path lang svc) as [Hb' Hu']; [|done|done|].
  { apply Hfresh, list_elem_of_here. }
  apply IH; [done|done| |done|done].
  intros pid' Hin. unfold startPreviewServer. cbv zeta.
  destruct (negb _ || negb _); cbn [snd previewServers].
  - by apply Hfresh, list_elem_of_further.
  - rewrite lookup_insert_ne; [by apply Hfresh, list_elem_of_further|]. by intros ->.
Qed.

(** X18. As long as previews are only launched, each under a project id
    of its own, and none is stopped, no two registered previews hold the
    same port, and every port lies between the base port and the base port
    plus the number of registered previews. *)
Theorem ports_distinct_without_stop (es : list Event)
  (Hall : only_launches es) (Hnd : NoDup (launch_ids es)) :
  unique_ports (run_events es init) ∧ ¬ port_clash (run_events es init) ∧
  ports_below (run_events es init).
Proof.
  destruct (launches_unique es init Hall Hnd) as [Hb Hu].
  - intros pid _. apply lookup_empty.
  - intros pid s H. simpl in H. by rewrite lookup_empty in H.
  - intros id1 id2 s1 s2 _ H. simpl in H. by rewrite lookup_empty in H.
  - split; [done|]. split; [|done].
    intros (id1 & id2 & s1 & s2 & Hne & H1 & H2 & Hp). by apply (Hu id1 id2 s1 s2).
Qed.

(** The theorem at three launches. *)
Lemma ports_distinct_without_stop_witness :
  NoDup (launch_ids [ Launch "a" "/workspace/a" "node"; Launch "b" "/workspace/b" "html";
                      Launch "c" "/workspace/c" "react" ]) ∧
  ¬ port_clash (run_events [ Launch "a" "/workspace/a" "node"; Launch "b" "/workspace/b" "html";
                             Launch "c" "/workspace/c" "react" ] init).
Proof.
  assert (Hnd : NoDup (launch_ids [ Launch "a" "/workspace/a" "node";
                                    Launch "b" "/workspace/b" "html";
                                    Launch "c" "/workspace/c" "react" ])).
  { apply (bool_decide_unpack _). vm_compute. exact I. }
  split; [exact Hnd|].
  refine (proj1 (proj2 (ports_distinct_without_stop
    [ Launch "a" "/workspace/a" "node"; Launch "b" "/workspace/b" "html";
      Launch "c" "/workspace/c" "react" ] _ Hnd))).
  repeat constructor.
Defined.

(** *** The command of a preview *)

Lemma startsWith_includes pattern s : startsWith pattern s = true → includes pattern s = true.
Proof. destruct s; simpl; [done|]. by intros ->. Qed.

Lemma replace_absent pattern replacement s :
  includes pattern s = false → replace pattern replacement s = s.
Proof.
  induction s as [|c s IH]; simpl.
  - by intros ->.
  - intros H. apply orb_false_iff in H as [H1 H2]. rewrite H1. by rewrite IH.
Qed.

Lemma skip_append s t : skip (String.length s) (s +:+ t) = t.
Proof. induction s as [|c s IH]; [done|]. exact IH. Qed.

Lemma replace_here pattern replacement post :
  replace pattern replacement (pattern +:+ post) = replacement +:+ post.
Proof.
  assert (H : startsWith pattern (pattern +:+ post) = true)
    by (apply startsWith_spec; by exists post).
  destruct (pattern +:+ post) as [|c s] eqn:E; simpl; rewrite H; rewrite <- E;
    by rewrite skip_append.
Qed.

(** [replace] rewrites the first occurrence of the pattern and only
    that one: a text without the pattern is returned as it is, and a text
    with the pattern becomes the text before the first occurrence, the
    replacement, and the text after it, later occurrences included. *)
Lemma replace_first_occurrence (pattern replacement : string) :
  (∀ s, includes pattern s = false → replace pattern replacement s = s) ∧
  (∀ pre post,
     (∀ p1 p2, pre = p1 +:+ p2 → truthy p2 = true →
               startsWith pattern (p2 +:+ pattern +:+ post) = false) →
     replace pattern replacement (pre +:+ pattern +:+ post) = pre +:+ replacement +:+ post) ∧
  (∀ s, includes pattern s = true →
        ∃ pre post, s = pre +:+ pattern +:+ post ∧
                    replace pattern replacement s = pre +:+ replacement +:+ post).
Proof.
  split; [apply replace_absent|]. split.
  - intros pre post. induction pre as [|c pre IH]; intros Hfirst.
    + exact (replace_here pattern replacement post).
    + pose proof (Hfirst "" (String c pre) eq_refl eq_refl) as Hs.
      change (String c pre +:+ pattern +:+ post)
        with (String c (pre +:+ pattern +:+ post)) in Hs |- *.
      cbn [replace]. rewrite Hs.
      change (String c pre +:+ replacement +:+ post)
        with (String c (pre +:+ replacement +:+ post)).
      f_equal. apply IH. intros p1 p2 -> Hp2. by apply (Hfirst (String c p1) p2).
  - intros s. induction s as [|c s IH].
    + intros H. exists "", "". apply startsWith_spec in H as [post H].
      destruct pattern; [|done]. done.
    + cbn [includes]. destruct (startsWith pattern (String c s)) eqn:E.
      * intros _. apply startsWith_spec in E as [post E]. exists "", post.
        split; [done|]. rewrite E. exact (replace_here pattern replacement post).
      * cbn [orb]. intros H. destruct (IH H) as (pre & post & Hs & Hr).
        exists (String c pre), post. split; [by rewrite Hs|].
        cbn [replace]. rewrite E, Hr. done.
Qed.

Lemma runCmds_have_no_3000 :
  map_Forall (λ _ cfg, from_option (includes "3000") false (Lang.runCmd cfg) = false)
    languageConfigs.
Proof.
  apply map_Forall_to_list, Forall_forall. intros [k cfg] H.
  assert (Hall : forallb (λ kv, negb (from_option (includes "3000") false (Lang.runCmd kv.2)))
                   (map_to_list languageConfigs) = true) by (by vm_compute).
  rewrite forallb_forall in Hall. apply list_elem_of_In in H. specialize (Hall _ H).
  by apply negb_true_iff in Hall.
Qed.

(** X19. No configured run command mentions [3000], so the substitution
    of the allocated port changes nothing: for every language and
    registry, the process of a launched preview is started with the
    configured run command as written, in the project directory, and the
    port of the returned address is not passed to it. *)
Theorem preview_command_ignores_port (projectId projectPath language : string) (svc : Service) :
  let r := startPreviewServer projectId projectPath language svc in
  (r.1 = None ∧ r.2 = svc) ∨
  (∃ cfg runCmd,
     languageConfigs !! language = Some cfg ∧ Lang.runCmd cfg = Some runCmd ∧
     r.1 = Some (previewUrl (basePort + Z.of_nat (size (previewServers svc)))) ∧
     processes r.2 =
       processes svc ++ [ {| command := runCmd; cwd := projectPath; killed := false |} ]).
Proof.
  cbv zeta. unfold startPreviewServer. cbv zeta.
  destruct (languageConfigs !! language) as [cfg|] eqn:Hcfg; [|by left].
  destruct (Lang.runCmd cfg) as [runCmd|] eqn:Hrun;
    cbn [mbind option_bind truthy_opt from_option]; [|rewrite Hrun; by left].
  rewrite Hrun. cbn [truthy_opt].
  destruct (negb (truthy runCmd) || negb (Lang.port cfg)); [by left|]. right.
  exists cfg, runCmd. split; [done|]. split; [done|]. cbn [fst snd processes]. split; [done|].
  pose proof (runCmds_have_no_3000 language cfg Hcfg) as H3000. cbv beta in H3000. rewrite Hrun in H3000.
  cbn [from_option] in H3000. change (default "" (Some runCmd)) with runCmd.
  by rewrite (replace_absent _ _ _ H3000).
Qed.

(** *** Processes that no server refers to *)

(** In every state the service reaches, a registered server refers to a
    process of its own that has not been signalled. *)
Definition refs_ok (svc : Service) : Prop :=
  (∀ projectId s, previewServers svc !! projectId = Some s →
     ∃ p, processes svc !! process s = Some p ∧ killed p = false) ∧
  (∀ id1 id2 s1 s2, id1 ≠ id2 →
     previewServers svc !! id1 = Some s1 → previewServers svc !! id2 = Some s2 →
     process s1 ≠ process s2).

(** No server refers to the process [i]. *)
Definition orphan (i : nat) (svc : Service) : Prop :=
  i < length (processes svc) ∧
  ∀ projectId s, previewServers svc !! projectId = Some s → process s ≠ i.

Lemma startPreviewServer_cases projectId projectPath language svc :
  startPreviewServer projectId projectPath language svc = (None, svc) ∨
  ∃ url port runCommand,
    startPreviewServer projectId projectPath language svc =
      (Some url,
       {| previewServers :=
            <[projectId := {| id := projectId; port := port;
                              process := length (processes svc);
                              projectPath := projectPath; language := language |}]>
              (previewServers svc);
          processes := processes svc ++
            [ {| command := runCommand; cwd := projectPath; killed := false |} ] |}).
Proof.
  unfold startPreviewServer. cbv zeta. destruct (negb _ || negb _); [by left|].
  right. by eexists _, _, _.
Qed.

Lemma refs_ok_init : refs_ok init.
Proof.
  split.
  - intros pid s H. cbn [init previewServers] in H. by rewrite lookup_empty in H.
  - intros id1 id2 s1 s2 _ H. cbn [init previewServers] in H. by rewrite lookup_empty in H.
Qed.

Lemma refs_ok_step svc e : refs_ok svc → refs_ok (step svc e).
Proof.
  intros [Hlive Hinj]. destruct e as [pid path lang|pid]; cbn [step].
  - destruct (startPreviewServer_cases pid path lang svc) as [->|(url & port & cmd & ->)];
      [done|]. cbn [snd]. split.
    + intros pid' s. cbn [previewServers processes]. intros H.
      apply lookup_insert_Some in H as [[_ <-]|[_ H]]; cbn [process].
      * eexists. split.
        { rewrite lookup_app_r by done. by rewrite Nat.sub_diag. }
        done.
      * destruct (Hlive _ _ H) as (p & Hp & Hk). exists p. split; [|done].
        by apply lookup_app_l_Some.
    + intros id1 id2 s1 s2 Hne. cbn [previewServers]. intros H1 H2.
      apply lookup_insert_Some in H1 as [[E1 <-]|[_ H1]];
        apply lookup_insert_Some in H2 as [[E2 <-]|[_ H2]]; cbn [process].
      * congruence.
      * destruct (Hlive _ _ H2) as (p & Hp & _). apply lookup_lt_Some in Hp. lia.
      * destruct (Hlive _ _ H1) as (p & Hp & _). apply lookup_lt_Some in Hp. lia.
      * by apply (Hinj id1 id2).
  - unfold stopPreviewServer. destruct (previewServers svc !! pid) as [server|] eqn:Hs; [|done].
    split.
    + intros pid' s. cbn [previewServers processes]. intros H.
      apply lookup_delete_Some in H as [Hne H].
      destruct (Hlive _ _ H) as (p & Hp & Hk). exists p. split; [|done].
      rewrite list_lookup_alter_ne; [done|]. by apply (Hinj pid pid').
    + intros id1 id2 s1 s2 Hne. cbn [previewServers]. intros H1 H2.
      apply lookup_delete_Some in H1 as [_ H1]. apply lookup_delete_Some in H2 as [_ H2].
      by apply (Hinj id1 id2).
Qed.

Lemma refs_ok_run es svc : refs_ok svc → refs_ok (run_events es svc).
Proof.
  revert svc. induction es as [|e es IH]; intros svc H; [done|].
  apply IH. by apply refs_ok_step.
Qed.

Lemma orphan_step i svc e :
  orphan i svc →
  orphan i (step svc e) ∧ processes (step svc e) !! i = processes svc !! i.
Proof.
  intros [Hlt Hfree]. destruct e as [pid path lang|pid]; cbn [step].
  - destruct (startPreviewServer_cases pid path lang svc) as [->|(url & port & cmd & ->)];
      [done|]. cbn [snd]. split; [split|].
    + cbn [processes]. rewrite length_app. lia.
    + intros pid' s. cbn [previewServers]. intros H.
      apply lookup_insert_Some in H as [[_ <-]|[_ H]]; cbn [process]; [lia|].
      by apply (Hfree pid').
    + cbn [processes]. by rewrite lookup_app_l.
  - unfold stopPreviewServer. destruct (previewServers svc !! pid) as [server|] eqn:Hs; [|done].
    split; [split|].
    + cbn [processes]. by rewrite length_alter.
    + intros pid' s. cbn [previewServers]. intros H.
      apply lookup_delete_Some in H as [_ H]. by apply (Hfree pid').
    + cbn [processes]. rewrite list_lookup_alter_ne; [done|]. by apply (Hfree pid).
Qed.

Lemma orphan_run i es svc :
  orphan i svc →
  orphan i (run_events es svc) ∧ processes (run_events es svc) !! i = processes svc !! i.
Proof.
  revert svc. induction es as [|e es IH]; intros svc H; [done|].
  destruct (orphan_step i svc e H) as [H' Heq].
  destruct (IH _ H') as [H'' Heq']. split; [done|].
  change (run_events (e :: es) svc) with (run_events es (step svc e)). by rewrite Heq'.
Qed.

(** X20. Launching a preview under a project id that is already
    registered leaves the process of the replaced server running with no
    server referring to it: whatever is launched or stopped afterwards, no
    registered server refers to that process and it is never signalled. *)
Theorem relaunch_orphans_process (es0 es : list Event)
    (projectId projectPath language : string) (old : PreviewServer)
    (Hold : previewServers (run_events es0 init) !! projectId = Some old)
    (Hlaunch : (startPreviewServer projectId projectPath language (run_events es0 init)).1
               ≠ None) :
  let svc' :=
    run_events es (startPreviewServer projectId projectPath language (run_events es0 init)).2 in
  (∃ p, processes svc' !! process old = Some p ∧ killed p = false) ∧
  (∀ id' s, previewServers svc' !! id' = Some s → process s ≠ process old).
Proof.
  cbv zeta. set (svc := run_events es0 init) in *.
  assert (Hok : refs_ok svc) by apply refs_ok_run, refs_ok_init.
  destruct Hok as [Hlive Hinj]. destruct (Hlive _ _ Hold) as (p & Hp & Hk).
  assert (Horphan : orphan (process old)
                      (startPreviewServer projectId projectPath language svc).2).
  { destruct (startPreviewServer_cases projectId projectPath language svc)
      as [E|(url & port & cmd & E)]; [by rewrite E in Hlaunch|]. rewrite E. cbn [snd].
    pose proof (lookup_lt_Some _ _ _ Hp) as Hlt. split.
    - cbn [processes]. rewrite length_app. lia.
    - intros id' s. cbn [previewServers]. intros H.
      apply lookup_insert_Some in H as [[_ <-]|[Hne H]]; cbn [process]; [lia|].
      by apply (Hinj id' projectId). }
  destruct (orphan_run _ es _ Horphan) as [[_ Hfree] Heq]. split; [|exact Hfree].
  exists p. split; [|done]. rewrite Heq.
  destruct (startPreviewServer_cases projectId projectPath language svc)
    as [E|(url & port & cmd & E)]; [by rewrite E in Hlaunch|]. rewrite E. cbn [snd processes].
  by apply lookup_app_l_Some.
Qed.

(** The theorem on a node preview launched twice under one id: stopping
    that id afterwards signals the second process only. *)
Lemma relaunch_orphans_process_witness :
  ∃ p, processes (run_events [ Launch "a" "/workspace/a" "node";
                               Launch "a" "/workspace/a" "node"; Stop "a" ] init) !! 0
       = Some p ∧ killed p = false.
Proof.
  refine (proj1 (relaunch_orphans_process [ Launch "a" "/workspace/a" "node" ] [ Stop "a" ]
    "a" "/workspace/a" "node"
    {| id := "a"; port := 3001; process := 0; projectPath := "/workspace/a";
       language := "node" |} _ _)).
  - by vm_compute.
  - by vm_compute.
Defined.

End Preview.

(* ===================================================================== *)
(** ** Commands run to completion: [runCommandAsync] and [executeCommand] *)
(* ===================================================================== *)

Module Timing.
Import JsString.

(** A promise settles once; later calls of [resolve] and [reject] do
    nothing. *)
Inductive Promise (A : Type) :=
| Pending
| Fulfilled (value : A)
| Rejected (reason : string).
Arguments Pending {A}.
Arguments Fulfilled {A} value.
Arguments Rejected {A} reason.

Definition resolve {A} (value : A) (p : Promise A) : Promise A :=
  match p with
  | Pending => Fulfilled value
  | _ => p
  end.

Definition reject {A} (reason : string) (p : Promise A) : Promise A :=
  match p with
  | Pending => Rejected reason
  | _ => p
  end.

(** The error [exec] hands to its callback; [e_code] is [None] when the
    process was ended by a signal. *)
Record ExecError := { e_code : option Z; e_message : string }.

(** What Node reports about a process started with [exec]: chunks on its
    pipes and, when the process has ended, one call of the callback. *)
Inductive ProcessEvent :=
| StdoutData (data : string)
| StderrData (data : string)
| Callback (error : option ExecError) (stdoutData stderrData : string).

(** A run of the process: its events in order, each with the time in
    milliseconds since the call. A process that never ends has no
    [Callback]. *)
Definition upto (T : Z) (run : list (Z * ProcessEvent)) : list ProcessEvent :=
  (List.filter (λ e, (e.1 <=? T)%Z) run).*2.

(** *** [TerminalRunner.runCommandAsync] *)

(** The promise resolves with a [Terminal.ExecResult],
    [{ stdout, stderr, code }]. *)
Definition result (stdout stderr : string) (code : Z) : Terminal.ExecResult :=
  {| Terminal.r_stdout := stdout; Terminal.r_stderr := stderr; Terminal.r_code := code |}.

(** The two accumulators of the method and its promise. *)
Record Async := {
  acc_stdout : string;
  acc_stderr : string;
  promise : Promise Terminal.ExecResult }.

Definition async_start : Async :=
  {| acc_stdout := ""; acc_stderr := ""; promise := Pending |}.

(** [error ? error.code || 1 : 0] *)
Definition exit_code (error : option ExecError) : Z :=
  match error with
  | Some e =>
      match e_code e with
      | Some c => if (c =? 0)%Z then 1%Z else c
      | None => 1%Z
      end
  | None => 0%Z
  end.

(** The listeners of [runCommandAsync]: nothing but [exec]'s callback
    settles the promise, and no timer is set. *)
Definition async_on (st : Async) (ev : ProcessEvent) : Async :=
  match ev with
  | StdoutData data =>
      {| acc_stdout := acc_stdout st +:+ data; acc_stderr := acc_stderr st;
         promise := promise st |}
  | StderrData data =>
      {| acc_stdout := acc_stdout st; acc_stderr := acc_stderr st +:+ data;
         promise := promise st |}
  | Callback error stdoutData stderrData =>
      {| acc_stdout := acc_stdout st; acc_stderr := acc_stderr st;
         promise :=
           resolve (result stdoutData stderrData (exit_code error)) (promise st) |}
  end.

(** The call at time [T] of a run. *)
Definition runCommandAsync_at (T : Z) (run : list (Z * ProcessEvent)) : Async :=
  fold_left async_on (upto T run) async_start.

(** *** [ComprehensiveAIService.executeCommand] *)

Definition timeout : Z := 60000.

Record Exec := { output : list string; settled : Promise unit; killed : bool }.

(** [output.push(`$ ${command}`)], then [exec] and [setTimeout]. *)
Definition exec_start (command : string) (output : list string) : Exec :=
  {| output := output ++ ["$ " +:+ command]; settled := Pending; killed := false |}.

(** [exec]'s callback. *)
Definition exec_on_callback (error : option ExecError) (stdout stderr : string)
    (st : Exec) : Exec :=
  let out1 := if truthy stdout then output st ++ [stdout] else output st in
  let out2 := if truthy stderr then out1 ++ [stderr] else out1 in
  match error with
  | Some e =>
      {| output := out2 ++ ["Error: " +:+ e_message e];
         settled := reject (e_message e) (settled st); killed := killed st |}
  | None => {| output := out2; settled := resolve () (settled st); killed := killed st |}
  end.

(** The function given to [setTimeout(..., 60000)]. *)
Definition exec_on_timeout (st : Exec) : Exec :=
  {| output := output st ++ ["Command timed out after 60 seconds"];
     settled := resolve () (settled st); killed := true |}.

(** [executeCommand] registers no listener on the pipes. *)
Definition exec_on (st : Exec) (ev : ProcessEvent) : Exec :=
  match ev with
  | Callback error stdout stderr => exec_on_callback error stdout stderr st
  | _ => st
  end.

(** The call at time [T] of a run, up to its timer: what the process
    reported before the timer is handled first and, from 60000 ms on, the
    timer has fired. What the process reports after the timer is handled
    by [executeCommand_by] below. *)
Definition executeCommand_at (T : Z) (command : string) (output : list string)
    (run : list (Z * ProcessEvent)) : Exec :=
  let st := fold_left exec_on (upto (Z.min T (timeout - 1)) run) (exec_start command output) in
  if (timeout <=? T)%Z then exec_on_timeout st else st.

(** The result of the first callback among the events. *)
Fixpoint first_callback (evs : list ProcessEvent) : option Terminal.ExecResult :=
  match evs with
  | [] => None
  | Callback error stdoutData stderrData :: _ =>
      Some (result stdoutData stderrData (exit_code error))
  | _ :: evs' => first_callback evs'
  end.

Lemma async_fold evs st :
  promise (fold_left async_on evs st) =
    match promise st with
    | Pending => from_option Fulfilled Pending (first_callback evs)
    | p => p
    end.
Proof.
  revert st. induction evs as [|ev evs IH]; intros st; simpl.
  - by destruct (promise st).
  - rewrite IH. destruct ev; simpl; try done. by destruct (promise st).
Qed.

Lemma exec_fold_no_callback evs st :
  first_callback evs = None → fold_left exec_on evs st = st.
Proof.
  revert st. induction evs as [|ev evs IH]; intros st H; simpl; [done|].
  destruct ev; simpl in *; try done; by apply IH.
Qed.

Lemma exec_on_timeout_settled st : settled (exec_on_timeout st) ≠ Pending.
Proof. simpl. by destruct (settled st). Qed.

(** C5 (as amended). [executeCommand], which runs the setup steps, is
    settled by 60000 ms in every run of the process: the timer kills the
    process and resolves; when the process has reported no end before, the
    call resolves at the timer with the time-out line appended to the
    output. [runCommandAsync], which resolves with [{stdout, stderr,
    code}], has no timer: at any time it is fulfilled exactly with the
    result of the first callback received so far, and it is pending as long
    as the process has not ended. *)
Theorem completion_ceiling :
  (∀ command output0 run,
     settled (executeCommand_at timeout command output0 run) ≠ Pending ∧
     killed (executeCommand_at timeout command output0 run) = true) ∧
  (∀ command output0 run,
     first_callback (upto (timeout - 1) run) = None →
     executeCommand_at timeout command output0 run =
       {| output := output0 ++ ["$ " +:+ command; "Command timed out after 60 seconds"];
          settled := Fulfilled (); killed := true |}) ∧
  (∀ T run,
     promise (runCommandAsync_at T run) =
       from_option Fulfilled Pending (first_callback (upto T run))) ∧
  (∀ T run, first_callback run.*2 = None → promise (runCommandAsync_at T run) = Pending).
Proof.
  split; [|split; [|split]].
  - intros command output0 run. unfold executeCommand_at.
    replace (timeout <=? timeout)%Z with true by (symmetry; apply Z.leb_refl).
    split; [apply exec_on_timeout_settled|done].
  - intros command output0 run Hnone. unfold executeCommand_at.
    replace (timeout <=? timeout)%Z with true by (symmetry; apply Z.leb_refl).
    replace (Z.min timeout (timeout - 1)) with (timeout - 1)%Z by (unfold timeout; lia).
    rewrite exec_fold_no_callback by done.
    unfold exec_on_timeout, exec_start; simpl. by rewrite <- app_assoc.
  - intros T run. unfold runCommandAsync_at. by rewrite async_fold.
  - intros T run Hnone. unfold runCommandAsync_at. rewrite async_fold. simpl.
    assert (first_callback (upto T run) = None) as ->; [|done].
    unfold upto. induction run as [|[t ev] run IH]; [done|].
    simpl in *. destruct (t <=? T)%Z; simpl.
    + destruct ev; try done; by apply IH.
    + apply IH. by destruct ev.
Qed.

(** C5, as stated, fails for [runCommandAsync]: for a command that prints
    a line and never exits, the call is still pending after 60 seconds, and
    after an hour; [executeCommand] on the same run has resolved. *)
Lemma runCommandAsync_has_no_ceiling :
  let run := [(40%Z, StdoutData "installing dependencies")] in
  promise (runCommandAsync_at 60000 run) = Pending ∧
  promise (runCommandAsync_at 3600000 run) = Pending ∧
  settled (executeCommand_at 60000 "npm install" [] run) = Fulfilled ().
Proof. cbv zeta. by vm_compute. Qed.


(** *** The timer of [executeCommand] *)

Lemma exec_fold_killed evs st : killed (fold_left exec_on evs st) = killed st.
Proof.
  revert st. induction evs as [|ev evs IH]; intros st; [done|].
  cbn [fold_left]. rewrite IH. destruct ev as [| |[e|] so se]; done.
Qed.

(** The process events stamped from [a] to [b]. *)
Definition between (a b : Z) (run : list (Z * ProcessEvent)) : list ProcessEvent :=
  (List.filter (λ e, (a <=? e.1)%Z && (e.1 <=? b)%Z) run).*2.

(** The call at time [T] with everything handled that was due by then:
    the call up to its timer and, after the timer, the callback of [exec]
    for what the process reports from 60000 ms on. The timer has killed the
    process, so [exec] still calls back, with the error of a killed
    process; the callback pushes its lines and calls [reject], which finds
    the promise settled. *)
Definition executeCommand_by (T : Z) (command : string) (output : list string)
    (run : list (Z * ProcessEvent)) : Exec :=
  fold_left exec_on (between timeout T run) (executeCommand_at T command output run).

(** The lines the callback of [exec] pushes. *)
Definition callback_lines (ev : ProcessEvent) : list string :=
  match ev with
  | Callback error stdout stderr =>
      (if truthy stdout then [stdout] else []) ++
      (if truthy stderr then [stderr] else []) ++
      match error with
      | Some e => ["Error: " +:+ e_message e]
      | None => []
      end
  | _ => []
  end.

Lemma exec_on_output st ev : output (exec_on st ev) = output st ++ callback_lines ev.
Proof.
  destruct ev as [data|data|[e|] so se]; cbn [exec_on callback_lines];
    [by rewrite app_nil_r..| |];
    unfold exec_on_callback; cbv zeta; cbn [output];
    destruct (truthy so), (truthy se); cbn [app]; by rewrite <- ?app_assoc, ?app_nil_r.
Qed.

Lemma exec_fold_output evs st :
  output (fold_left exec_on evs st) = output st ++ (evs ≫= callback_lines).
Proof.
  revert st. induction evs as [|ev evs IH]; intros st; [by rewrite app_nil_r|].
  cbn [fold_left]. by rewrite IH, exec_on_output, bind_cons, app_assoc.
Qed.

Lemma exec_fold_settled evs st :
  settled st ≠ Pending → settled (fold_left exec_on evs st) = settled st.
Proof.
  revert st. induction evs as [|ev evs IH]; intros st H; [done|].
  cbn [fold_left].
  assert (Hev : settled (exec_on st ev) = settled st).
  { destruct ev as [data|data|[e|] so se]; cbn [exec_on]; [done..| |];
      unfold exec_on_callback; cbv zeta; cbn [settled]; by destruct (settled st). }
  rewrite IH; [done|]. by rewrite Hev.
Qed.

Lemma between_empty a b run : (b < a)%Z → between a b run = [].
Proof.
  intros Hlt. unfold between. induction run as [|[t ev] run IH]; [done|].
  cbn [List.filter fst].
  replace ((a <=? t)%Z && (t <=? b)%Z) with false; [exact IH|].
  symmetry. apply andb_false_iff.
  destruct (decide (a ≤ t)%Z); [right; apply Z.leb_gt; lia|left; apply Z.leb_gt; lia].
Qed.

(** X7. The timer of [executeCommand] is never cleared. Until it fires
    the process is not killed by the call; from 60000 ms on, whatever the
    process reported before, the call has killed the process and pushed the
    time-out line to the output array, right after the lines pushed before
    the timer, also when the command had already succeeded or failed. What
    [exec] reports after that, the error of the killed process, is pushed
    behind the time-out line and cannot change the outcome: a call that was
    settled before the timer keeps its outcome, a pending one is resolved
    by the timer, and a later error rejects nothing. *)
Theorem timer_is_never_cleared (command : string) (output0 : list string)
    (run : list (Z * ProcessEvent)) (d : nat) :
  let before := executeCommand_by (timeout - 1 - Z.of_nat d) command output0 run in
  let at_timer := executeCommand_by (timeout - 1) command output0 run in
  let after := executeCommand_by (timeout + Z.of_nat d) command output0 run in
  killed before = false ∧
  output after =
    output at_timer ++ ["Command timed out after 60 seconds"] ++
    (between timeout (timeout + Z.of_nat d) run ≫= callback_lines) ∧
  killed after = true ∧
  settled after = resolve () (settled at_timer) ∧
  (settled at_timer ≠ Pending → settled after = settled at_timer).
Proof.
  cbv zeta. unfold executeCommand_by.
  rewrite (between_empty timeout (timeout - 1 - Z.of_nat d)) by lia.
  rewrite (between_empty timeout (timeout - 1)) by lia. cbn [fold_left].
  unfold executeCommand_at.
  replace (timeout <=? timeout - 1 - Z.of_nat d)%Z with false
    by (symmetry; apply Z.leb_gt; lia).
  replace (timeout <=? timeout - 1)%Z with false by (symmetry; apply Z.leb_gt; lia).
  replace (timeout <=? timeout + Z.of_nat d)%Z with true by (symmetry; apply Z.leb_le; lia).
  replace (Z.min (timeout + Z.of_nat d) (timeout - 1)) with (timeout - 1)%Z by lia.
  replace (Z.min (timeout - 1) (timeout - 1)) with (timeout - 1)%Z by lia.
  cbv beta iota zeta.
  set (st := fold_left exec_on (upto (timeout - 1) run) (exec_start command output0)).
  split; [by rewrite exec_fold_killed|].
  split; [rewrite exec_fold_output; cbn [exec_on_timeout output]; by rewrite <- app_assoc|].
  split; [by rewrite exec_fold_killed|].
  assert (Hs : settled (fold_left exec_on (between timeout (timeout + Z.of_nat d) run)
                          (exec_on_timeout st)) = resolve () (settled st)).
  { rewrite exec_fold_settled; [done|]. apply exec_on_timeout_settled. }
  split; [exact Hs|]. intros Hne. rewrite Hs. by destruct (settled st).
Qed.

(** A command that succeeds after two seconds is reported as timed out a
    minute after the call, and its process is signalled. *)
Example finished_command_times_out :
  let run := [(2000%Z, Callback None "added 12 packages" "")] in
  executeCommand_by 2000 "npm install" [] run =
    {| output := ["$ npm install"; "added 12 packages"];
       settled := Fulfilled (); killed := false |} ∧
  executeCommand_by 60000 "npm install" [] run =
    {| output := ["$ npm install"; "added 12 packages";
                  "Command timed out after 60 seconds"];
       settled := Fulfilled (); killed := true |}.
Proof. cbv zeta. by vm_compute. Qed.

(** A command that is still at work after a minute is killed by the
    timer, which resolves the call; when the killed process is gone [exec]
    calls back with what it printed and the error, and both lines land in
    the output behind the time-out line, the call staying resolved. *)
Example killed_command_reports_late :
  let error := {| e_code := None; e_message := "Command failed: npm install" |} in
  let run := [(66500%Z, Callback (Some error) "fetching packages" "")] in
  executeCommand_by 60000 "npm install" [] run =
    {| output := ["$ npm install"; "Command timed out after 60 seconds"];
       settled := Fulfilled (); killed := true |} ∧
  executeCommand_by 66500 "npm install" [] run =
    {| output := ["$ npm install"; "Command timed out after 60 seconds";
                  "fetching packages"; "Error: Command failed: npm install"];
       settled := Fulfilled (); killed := true |}.
Proof. cbv zeta. by vm_compute. Qed.

(** *** The result of [runCommandAsync] *)

(** The events of a run come in the order of their times. *)
Definition in_order (run : list (Z * ProcessEvent)) : Prop :=
  StronglySorted (λ a b, (a.1 ≤ b.1)%Z) run.

Lemma upto_later T run :
  Forall (λ e, (T < e.1)%Z) run → upto T run = [].
Proof.
  unfold upto. induction 1 as [|[t ev] run Ht _ IH]; [done|].
  cbn [List.filter fst]. cbn [fst] in Ht.
  replace (t <=? T)%Z with false by (symmetry; apply Z.leb_gt; lia). exact IH.
Qed.

Lemma upto_prefix T T' run :
  in_order run → (T ≤ T')%Z → ∃ rest, upto T' run = upto T run ++ rest.
Proof.
  intros Hrun HT. induction Hrun as [|[t ev] run _ IH Hall].
  - by exists [].
  - destruct (decide (t ≤ T)%Z) as [Hle|Hgt].
    + destruct IH as [rest IH]. exists rest. unfold upto in *. cbn [List.filter fst].
      replace (t <=? T)%Z with true by (symmetry; apply Z.leb_le; lia).
      replace (t <=? T')%Z with true by (symmetry; apply Z.leb_le; lia).
      rewrite !fmap_cons, IH. done.
    + exists (upto T' ((t, ev) :: run)). rewrite (upto_later T); [done|].
      constructor; [cbn [fst]; lia|].
      eapply Forall_impl; [exact Hall|]. intros [t' ev'] Ht'. cbn [fst] in *. lia.
Qed.

Lemma first_callback_app evs rest r :
  first_callback evs = Some r → first_callback (evs ++ rest) = Some r.
Proof.
  induction evs as [|ev evs IH]; [done|]. destruct ev; cbn [first_callback app]; auto.
Qed.

Lemma first_callback_upto T run r :
  first_callback (upto T run) = Some r →
  ∃ error stdoutData stderrData t,
    (t, Callback error stdoutData stderrData) ∈ run ∧ (t ≤ T)%Z ∧
    r = result stdoutData stderrData (exit_code error).
Proof.
  unfold upto. induction run as [|[t ev] run IH]; [done|].
  cbn [List.filter fst]. destruct (t <=? T)%Z eqn:Ht.
  - cbn [fmap list_fmap snd]. destruct ev as [data|data|error so se].
    + intros H. destruct (IH H) as (e & a & b & t' & Hin & Hle & Hr).
      exists e, a, b, t'. split; [by apply list_elem_of_further|done].
    + intros H. destruct (IH H) as (e & a & b & t' & Hin & Hle & Hr).
      exists e, a, b, t'. split; [by apply list_elem_of_further|done].
    + intros [= <-]. exists error, so, se, t.
      split; [apply list_elem_of_here|]. split; [by apply Z.leb_le|done].
  - intros H. destruct (IH H) as (e & a & b & t' & Hin & Hle & Hr).
    exists e, a, b, t'. split; [by apply list_elem_of_further|done].
Qed.

Lemma exit_code_zero error : exit_code error = 0%Z ↔ error = None.
Proof.
  destruct error as [[[c|] m]|]; cbn [exit_code e_code]; [|done|done].
  destruct (c =? 0)%Z eqn:E; [done|]. apply Z.eqb_neq in E. split; [lia|done].
Qed.

(** X8. Once [runCommandAsync] has resolved, its result is final: at no
    later time does the promise hold another value. The result is the one
    of a callback of [exec] that arrived by then; it carries the strings
    [exec] buffered, and its code is 0 exactly when [exec] reported no
    error (an error without an exit code, or with code 0, gives 1). *)
Theorem async_result_is_final (T T' : Z) (run : list (Z * ProcessEvent))
    (r : Terminal.ExecResult)
    (Hrun : in_order run) (HT : (T ≤ T')%Z)
    (Hr : promise (runCommandAsync_at T run) = Fulfilled r) :
  promise (runCommandAsync_at T' run) = Fulfilled r ∧
  ∃ error stdoutData stderrData t,
    (t, Callback error stdoutData stderrData) ∈ run ∧ (t ≤ T)%Z ∧
    r = result stdoutData stderrData (exit_code error) ∧
    (Terminal.r_code r = 0%Z ↔ error = None).
Proof.
  unfold runCommandAsync_at in *. rewrite async_fold in *. cbn [promise async_start] in *.
  destruct (first_callback (upto T run)) as [r'|] eqn:Hfirst; [|done].
  cbn [from_option] in Hr. injection Hr as ->.
  split.
  - destruct (upto_prefix T T' run Hrun HT) as [rest ->].
    by rewrite (first_callback_app _ rest r Hfirst).
  - destruct (first_callback_upto T run r Hfirst) as (e & a & b & t & Hin & Hle & ->).
    exists e, a, b, t. split; [done|]. split; [done|]. split; [done|].
    cbn [Terminal.r_code result]. apply exit_code_zero.
Qed.

(** The theorem on a command that fails with no exit code after a line of
    output. *)
Lemma async_result_is_final_witness :
  let run := [(10%Z, StdoutData "building"); (25%Z, StderrData "killed");
              (30%Z, Callback (Some {| e_code := None; e_message := "Command failed" |})
                       "building" "killed")] in
  promise (runCommandAsync_at 3600000 run) = Fulfilled (result "building" "killed" 1).
Proof.
  cbv zeta.
  refine (proj1 (async_result_is_final 30 3600000 _ (result "building" "killed" 1) _ _ _)).
  - repeat constructor; cbn [fst]; lia.
  - lia.
  - reflexivity.
Defined.

End Timing.

(** * Project generation: language detection, setup and preview
    ([comprehensive-ai-service.ts]) *)

Module Generation.
Import JsString.

(** [languageConfigs] is an object literal, so [languageConfigs[key]]
    also finds what [Object.prototype] provides. Of those names only these
    two are left unchanged by [toLowerCase]; their values are truthy and
    have none of the fields of a configuration. *)
Definition inherited : list string := ["constructor"; "__proto__"].

(** Truthiness of [this.languageConfigs[key]]. *)
Definition has_entry (key : string) : bool :=
  bool_decide (is_Some (Preview.languageConfigs !! key)) || bool_decide (key ∈ inherited).

(** [detectLanguage(prompt, explicitLang)] *)
Definition detectLanguage (prompt : string) (explicitLang : option string) : string :=
  if from_option (λ e, truthy e && has_entry (toLowerCase e)) false explicitLang
  then toLowerCase (default "" explicitLang)
  else
    let lowerPrompt := toLowerCase prompt in
    if includes "react" lowerPrompt || includes "jsx" lowerPrompt || includes "tsx" lowerPrompt
    then "react"
    else if includes "vue" lowerPrompt then "vue"
    else if includes "angular" lowerPrompt then "angular"
    else if includes "python" lowerPrompt || includes "flask" lowerPrompt ||
            includes "django" lowerPrompt
    then "python"
    else if includes "java" lowerPrompt || includes "spring" lowerPrompt then "java"
    else if includes "c#" lowerPrompt || includes "csharp" lowerPrompt ||
            includes ".net" lowerPrompt
    then "csharp"
    else if includes "c++" lowerPrompt || includes "cpp" lowerPrompt then "cpp"
    else if includes "go" lowerPrompt || includes "golang" lowerPrompt then "go"
    else if includes "rust" lowerPrompt then "rust"
    else if includes "ruby" lowerPrompt || includes "rails" lowerPrompt then "ruby"
    else if includes "php" lowerPrompt then "php"
    else if includes "swift" lowerPrompt || includes "ios" lowerPrompt then "swift"
    else if includes "kotlin" lowerPrompt || includes "android" lowerPrompt then "kotlin"
    else if includes "flutter" lowerPrompt || includes "dart" lowerPrompt then "flutter"
    else if includes "unity" lowerPrompt || includes "game" lowerPrompt then "unity"
    else if includes "unreal" lowerPrompt then "unreal"
    else if includes "godot" lowerPrompt then "godot"
    else if includes "typescript" lowerPrompt || includes "ts" lowerPrompt then "typescript"
    else if includes "node" lowerPrompt || includes "express" lowerPrompt then "node"
    else if includes "html" lowerPrompt || includes "website" lowerPrompt then "html"
    else "react".

(** The table of the service's own [getSetupCommands]. *)
Definition setupCommands : list (string * list string) :=
  [ ("react", ["npm install"]);
    ("node", ["npm install"]);
    ("typescript", ["npm install"]);
    ("python", ["pip install -r requirements.txt"]);
    ("java", ["mvn compile"]);
    ("csharp", ["dotnet restore"]);
    ("go", ["go mod tidy"]);
    ("rust", ["cargo build"]);
    ("flutter", ["flutter pub get"]);
    ("php", ["composer install"]) ].

Definition getSetupCommands (language : string) : list string :=
  Terminal.commands_of setupCommands language.

(** What [setupProject(projectPath, language)] does: it answers
    [No setup required for <language>] or [No setup commands for <language>]
    without running anything, or hands the commands to
    [executeCommandsSequentially]. *)
Inductive Setup :=
| NoSetupRequired
| NoSetupCommands
| Execute (commands : list string).

Definition setupProject (language : string) : Setup :=
  let langConfig := Preview.languageConfigs !! language in
  if negb (truthy_opt (langConfig ≫= Lang.buildCmd)) then NoSetupRequired
  else
    let setupCommands := getSetupCommands language in
    if length setupCommands =? 0 then NoSetupCommands else Execute setupCommands.

(** The preview step of [generateProject]:
    [if (this.languageConfigs[detectedLang]?.port) previewUrl = await
    this.startPreviewServer(projectId, projectPath, detectedLang)]. *)
Definition preview_step (projectId projectPath detectedLang : string) (svc : Preview.Service)
  : option string * Preview.Service :=
  if from_option Lang.port false (Preview.languageConfigs !! detectedLang)
  then Preview.startPreviewServer projectId projectPath detectedLang svc
  else (None, svc).

(** ** Detection from the prompt *)

(** The languages the keyword tests can give. *)
Definition detected : list string :=
  [ "react"; "vue"; "angular"; "python"; "java"; "csharp"; "cpp"; "go"; "rust"; "ruby";
    "php"; "swift"; "kotlin"; "flutter"; "unity"; "unreal"; "typescript"; "node"; "html" ].

Ltac walk_tests :=
  lazymatch goal with
  | |- ?P (if ?b then _ else _) =>
      let E := fresh "E" in destruct b eqn:E; [try assumption | walk_tests]
  | _ => try assumption
  end.

Lemma detectLanguage_cases (P : string → Prop) prompt :
  Forall P detected → P (detectLanguage prompt None).
Proof.
  intros H. unfold detected in H.
  repeat (apply Forall_cons in H as [? H]). clear H.
  unfold detectLanguage. cbn [from_option]. cbv zeta.
  walk_tests.
  match goal with
  | Hgodot : includes "godot" _ = true |- _ =>
      apply (includes_prefix "go" "dot") in Hgodot; rewrite Hgodot in *; discriminate
  end.
Qed.

(** X21. From the prompt alone, [detectLanguage] gives one of nineteen
    languages, each of them configured and each detected from its own
    name. The test for [godot] can never succeed, because a prompt that
    mentions it also contains [go], which is tested before; so eleven of
    the thirty configured languages, among them [javascript], [css] and
    [godot], are never detected from a prompt. *)
Theorem prompt_detection :
  (∀ prompt, detectLanguage prompt None ∈ detected) ∧
  Forall (λ l, detectLanguage l None = l ∧ is_Some (Preview.languageConfigs !! l)) detected ∧
  (∀ prompt,
     detectLanguage prompt None ∉
       [ "javascript"; "css"; "dart"; "godot"; "r"; "sql"; "json"; "yaml"; "xml";
         "markdown"; "text" ]) ∧
  Forall (λ l, is_Some (Preview.languageConfigs !! l))
    [ "javascript"; "css"; "dart"; "godot"; "r"; "sql"; "json"; "yaml"; "xml";
      "markdown"; "text" ] ∧
  size Preview.languageConfigs = 30.
Proof.
  split; [|split; [|split; [|split]]].
  - intros prompt. apply (detectLanguage_cases (λ l, l ∈ detected)).
    apply Forall_forall. by intros l Hl.
  - unfold detected. repeat (constructor; [split; [by vm_compute|by eexists; vm_compute]|]).
    constructor.
  - intros prompt. apply (detectLanguage_cases (λ l, l ∉ _)).
    apply (bool_decide_unpack _). by vm_compute.
  - repeat (constructor; [by eexists; vm_compute|]). constructor.
  - by vm_compute.
Qed.

(** X22. A prompt that asks for JavaScript is never detected as
    [javascript]: unless one of the tests before matches, the test for
    [java] does, so the result is one of [react], [vue], [angular],
    [python] and [java]. *)
Theorem javascript_detected_as_java (prompt : string)
    (H : includes "javascript" (toLowerCase prompt) = true) :
  detectLanguage prompt None ∈ ["react"; "vue"; "angular"; "python"; "java"].
Proof.
  apply (includes_prefix "java" "script") in H.
  unfold detectLanguage. cbn [from_option]. cbv zeta. rewrite H. cbn [orb].
  repeat match goal with
         | |- (if ?b then _ else _) ∈ _ => destruct b; [set_solver|]
         end.
  set_solver.
Qed.

Lemma javascript_detected_as_java_witness :
  detectLanguage "A JavaScript stopwatch" None ∈ ["react"; "vue"; "angular"; "python"; "java"].
Proof. apply javascript_detected_as_java. reflexivity. Defined.

(** ** An explicit language *)


(** ** Setup *)

Lemma setupProject_unconfigured language :
  Preview.languageConfigs !! language = None → setupProject language = NoSetupRequired.
Proof. intros H. unfold setupProject. cbv zeta. by rewrite H. Qed.

Definition installs : list (string * list string) :=
  [ ("react", ["npm install"]); ("node", ["npm install"]); ("typescript", ["npm install"]);
    ("java", ["mvn compile"]); ("csharp", ["dotnet restore"]); ("go", ["go mod tidy"]);
    ("rust", ["cargo build"]); ("flutter", ["flutter pub get"]) ].

Definition without_install : list string :=
  ["javascript"; "vue"; "angular"; "cpp"; "swift"; "kotlin"; "dart"].

Definition setup_as_listed (language : string) : bool :=
  match setupProject language with
  | Execute commands => bool_decide ((language, commands) ∈ installs)
  | NoSetupCommands => bool_decide (language ∈ without_install)
  | NoSetupRequired => true
  end.

Lemma setupProject_listed language : setup_as_listed language = true.
Proof.
  destruct (Preview.languageConfigs !! language) as [cfg|] eqn:Hcfg.
  - assert (Hall : forallb (λ kv, setup_as_listed kv.1)
                     (map_to_list Preview.languageConfigs) = true) by (by vm_compute).
    rewrite forallb_forall in Hall. apply elem_of_map_to_list, list_elem_of_In in Hcfg.
    exact (Hall _ Hcfg).
  - unfold setup_as_listed. by rewrite setupProject_unconfigured.
Qed.

(** X24. [setupProject] runs a command for eight languages only, one
    command each: the dependency installation of [react], [node],
    [typescript], [java], [csharp], [go], [rust] and [flutter]. The entries
    of [python] and [php] in the table of setup commands are never run,
    because these languages have no build command, and seven languages
    with a build command have no setup command. *)
Theorem setup_runs_installs (language : string) (commands : list string) :
  (setupProject language = Execute commands ↔ (language, commands) ∈ installs) ∧
  (setupProject language = NoSetupCommands ↔ language ∈ without_install) ∧
  setupProject "python" = NoSetupRequired ∧ setupProject "php" = NoSetupRequired ∧
  getSetupCommands "python" = ["pip install -r requirements.txt"] ∧
  getSetupCommands "php" = ["composer install"].
Proof.
  pose proof (setupProject_listed language) as H. unfold setup_as_listed in H.
  split; [|split; [|by vm_compute]].
  - split.
    + intros E. rewrite E in H. by apply bool_decide_eq_true_1 in H.
    + unfold installs. intros Hin.
      repeat (apply elem_of_cons in Hin as [[= -> ->]|Hin]; [by vm_compute|]).
      by apply elem_of_nil in Hin.
  - split.
    + intros E. rewrite E in H. by apply bool_decide_eq_true_1 in H.
    + unfold without_install. intros Hin.
      repeat (apply elem_of_cons in Hin as [->|Hin]; [by vm_compute|]).
      by apply elem_of_nil in Hin.
Qed.

(** ** Preview *)

Lemma port_needs_runCmd :
  map_Forall (λ _ cfg, Lang.port cfg = true → truthy_opt (Lang.runCmd cfg) = true)
    Preview.languageConfigs.
Proof.
  apply map_Forall_to_list, Forall_forall. intros [k cfg] H.
  assert (Hall : forallb (λ kv, implb (Lang.port kv.2) (truthy_opt (Lang.runCmd kv.2)))
                   (map_to_list Preview.languageConfigs) = true) by (by vm_compute).
  rewrite forallb_forall in Hall. apply list_elem_of_In in H. specialize (Hall _ H).
  cbn [snd] in *. intros Hp. by rewrite Hp in Hall.
Qed.

(** X25. In [generateProject] the guard of [startPreviewServer] never
    refuses: every language configured with a port has a run command, so a
    preview is launched, and its address returned, exactly when the
    detected language is configured with a port. Of the languages detected
    from a prompt, all get a preview but [cpp], [swift], [kotlin], [unity]
    and [unreal]. *)
Theorem preview_iff_port (projectId projectPath : string) (svc : Preview.Service) :
  (∀ detectedLang,
     (preview_step projectId projectPath detectedLang svc).1 =
       if from_option Lang.port false (Preview.languageConfigs !! detectedLang)
       then Some (Preview.previewUrl
                    (Preview.basePort + Z.of_nat (size (Preview.previewServers svc))))
       else None) ∧
  (∀ prompt,
     (preview_step projectId projectPath (detectLanguage prompt None) svc).1 = None ↔
     detectLanguage prompt None ∈ ["cpp"; "swift"; "kotlin"; "unity"; "unreal"]).
Proof.
  assert (Hstep : ∀ detectedLang,
     (preview_step projectId projectPath detectedLang svc).1 =
       if from_option Lang.port false (Preview.languageConfigs !! detectedLang)
       then Some (Preview.previewUrl
                    (Preview.basePort + Z.of_nat (size (Preview.previewServers svc))))
       else None).
  { intros lang. unfold preview_step.
    destruct (from_option Lang.port false (Preview.languageConfigs !! lang)) eqn:Hport; [|done].
    destruct (Preview.languageConfigs !! lang) as [cfg|] eqn:Hcfg; [|done].
    cbn [from_option] in Hport.
    pose proof (port_needs_runCmd lang cfg Hcfg Hport) as Hrun.
    destruct (Preview.startPreviewServer_launched projectId projectPath lang svc)
      as [proc ->]; [by rewrite Hcfg|by rewrite Hcfg|done]. }
  split; [exact Hstep|].
  intros prompt. rewrite Hstep.
  assert (Hnone : ∀ (b : bool) (url : string),
            (if b then Some url else None) = None ↔ b = false) by (by intros []).
  rewrite Hnone.
  apply (detectLanguage_cases
    (λ l, from_option Lang.port false (Preview.languageConfigs !! l) = false ↔
          l ∈ ["cpp"; "swift"; "kotlin"; "unity"; "unreal"])).
  apply (bool_decide_unpack _). by vm_compute.
Qed.

End Generation.

(* ===================================================================== *)
(** ** The chat endpoint ([POST /api/enhanced-chat]) *)
(* ===================================================================== *)

Module ChatRoute.
Import JsString.

(** [req.body]; a field the client left out is [None]. *)
Record Body := { message : option string; userId : option string }.

(** The JSON answered with status 200. *)
Record Success := {
  s_message : string;
  s_type : string;
  isGenerating : bool;
  files : option (gmap string AILoop.FileEntry);
  previewUrl : option string;
  taskId : option string }.

Inductive Answer :=
| BadRequest
| Ok (response : Success).

Definition working : string :=
  "I'll create that application for you! Let me work on it...".

(** The handler. [now] is the clock when the message is queued, [later]
    the clock when the answer is built, and [response] the text
    [generateChatResponse] comes back with. *)
Definition enhanced_chat (now later : Z) (response : string) (body : Body) (l : AILoop.Loop)
  : Answer * AILoop.Loop :=
  if negb (truthy_opt (message body)) || negb (truthy_opt (userId body)) then (BadRequest, l)
  else
    let message := default "" (message body) in
    let userId := default "" (userId body) in
    let result := AILoop.handleChatMessage now response userId message l in
    let session := AILoop.getSession userId result.2 in
    (Ok {| s_message := match result.1 with
                        | AILoop.AppGeneration => working
                        | AILoop.Chat text => text
                        end;
           s_type := match result.1 with
                     | AILoop.AppGeneration => "app_generation"
                     | AILoop.Chat _ => "chat"
                     end;
           isGenerating := match result.1 with
                           | AILoop.AppGeneration => true
                           | AILoop.Chat _ => false
                           end;
           files := AILoop.activeFiles <$> session;
           previewUrl :=
             session ≫= λ s,
               if truthy_opt (AILoop.projectId s)
               then Some ("http://0.0.0.0:" +:+
                          pretty (3001 + Z.of_nat (size (AILoop.activeFiles s)))%Z)
               else None;
           taskId := match result.1 with
                     | AILoop.AppGeneration =>
                         Some ("app_" +:+ pretty later +:+ "_" +:+ userId)
                     | AILoop.Chat _ => None
                     end |},
     result.2).

Lemma append_inj_l (s t u : string) : s +:+ t = s +:+ u → t = u.
Proof. induction s as [|c s IH]; [done|]. intros [= H]. by apply IH. Qed.

Lemma append_inj_r (s t u : string) : s +:+ u = t +:+ u → s = t.
Proof.
  revert t. induction s as [|c s IH]; intros [|d t] H.
  - done.
  - apply (f_equal String.length) in H. rewrite !append_length in H. simpl in H. lia.
  - apply (f_equal String.length) in H. rewrite !append_length in H. simpl in H. lia.
  - injection H as -> H. f_equal. by apply IH.
Qed.

(** X16. The chat endpoint refuses a body without message or without user
    id and leaves the loop untouched. Otherwise it files the message and,
    for a generation request, answers a task id built from a second clock
    reading: it is the id of the task just queued exactly when the two
    readings agree, so after a clock tick the answered id names no task
    unless another task happens to carry it. The files it answers are
    those of the user's session. *)
Theorem chat_endpoint_task_id (now later : Z) (response uid message : string) (l : AILoop.Loop)
  (Hm : truthy message = true) (Hu : truthy uid = true)
  (Hreq : AILoop.isAppGenerationRequest message = true) :
  let r := enhanced_chat now later response {| message := Some message; userId := Some uid |} l in
  (∀ later' response' body l0,
     truthy_opt (ChatRoute.message body) = false ∨ truthy_opt (userId body) = false →
     enhanced_chat now later' response' body l0 = (BadRequest, l0)) ∧
  r.2 = (AILoop.handleChatMessage now response uid message l).2 ∧
  (∃ a, r.1 = Ok a ∧
        taskId a = Some ("app_" +:+ pretty later +:+ "_" +:+ uid) ∧
        (taskId a = Some (AILoop.task_id now uid message) ↔ later = now) ∧
        files a = AILoop.activeFiles <$> AILoop.getSession uid r.2) ∧
  (later = now → AILoop.getTaskStatus (AILoop.task_id now uid message) l = None →
     AILoop.getTaskStatus ("app_" +:+ pretty later +:+ "_" +:+ uid) r.2 = Some AILoop.pending) ∧
  (later ≠ now →
     AILoop.getTaskStatus ("app_" +:+ pretty later +:+ "_" +:+ uid) r.2 =
     AILoop.getTaskStatus ("app_" +:+ pretty later +:+ "_" +:+ uid) l).
Proof.
  cbv zeta.
  assert (Hid : AILoop.task_id now uid message = "app_" +:+ pretty now +:+ "_" +:+ uid)
    by (unfold AILoop.task_id; by rewrite Hreq).
  assert (Hinj : "app_" +:+ pretty later +:+ "_" +:+ uid = "app_" +:+ pretty now +:+ "_" +:+ uid
                 ↔ later = now).
  { split; [|by intros ->]. intros H. apply append_inj_l in H.
    apply (append_inj_r _ _ ("_" +:+ uid)) in H. by apply (inj pretty). }
  assert (Hreply : (AILoop.handleChatMessage now response uid message l).1 = AILoop.AppGeneration).
  { unfold AILoop.handleChatMessage.
    destruct (AILoop.activeSessions l !! uid); by rewrite Hreq. }
  destruct (AILoop.task_status_after_message_aux now response uid message l) as (Hnew & Hother).
  assert (Hrun : ∀ later0,
            enhanced_chat now later0 response {| message := Some message; userId := Some uid |} l =
            (Ok {| s_message := working; s_type := "app_generation"; isGenerating := true;
                   files := AILoop.activeFiles <$>
                     AILoop.getSession uid (AILoop.handleChatMessage now response uid message l).2;
                   previewUrl :=
                     AILoop.getSession uid (AILoop.handleChatMessage now response uid message l).2
                     ≫= λ s,
                       if truthy_opt (AILoop.projectId s)
                       then Some ("http://0.0.0.0:" +:+
                                  pretty (3001 + Z.of_nat (size (AILoop.activeFiles s)))%Z)
                       else None;
                   taskId := Some ("app_" +:+ pretty later0 +:+ "_" +:+ uid) |},
             (AILoop.handleChatMessage now response uid message l).2)).
  { intros later0. unfold enhanced_chat. cbv zeta.
    cbn [ChatRoute.message ChatRoute.userId truthy_opt].
    change (default "" (Some message)) with message.
    change (default "" (Some uid)) with uid.
    rewrite Hm, Hu. cbn [negb orb]. by rewrite Hreply. }
  rewrite Hrun. cbn [fst snd].
  split; [|split; [done|split; [|split]]].
  - intros later' response' body l0 H. unfold enhanced_chat.
    destruct H as [-> | ->]; [done|]. by rewrite orb_true_r.
  - eexists. split; [done|]. cbn [taskId files]. split; [done|]. split; [|done].
    rewrite Hid. split; [intros H; apply (inj Some) in H; by apply Hinj|by intros ->].
  - intros -> Hnone. rewrite <- Hid, Hnew. by rewrite Hnone.
  - intros Hne. apply Hother. rewrite Hid. intros H. by apply Hne, Hinj.
Qed.

(** The theorem at a first generation request. *)
Lemma chat_endpoint_task_id_witness :
  (enhanced_chat 1700 1701 "" {| message := Some "build me a todo app"; userId := Some "u1" |}
     AILoop.empty).2
  = (AILoop.handleChatMessage 1700 "" "u1" "build me a todo app" AILoop.empty).2.
Proof.
  refine (proj1 (proj2
    (chat_endpoint_task_id 1700 1701 "" "u1" "build me a todo app" AILoop.empty _ _ _))).
  - reflexivity.
  - reflexivity.
  - by vm_compute.
Defined.

End ChatRoute.
